(** * down-pattern: the sharded crossword lookup engine

    A shallow embedding of [ChunkedCrosswordLoader] (chunked-data-loader.ts):
    manifest-driven shard selection, the bounded shard cache, the pattern
    matcher, the two search strategies, the result cache and the clue
    retriever, followed by the properties the specification states about
    them.

    Conventions of the embedding.
    - JavaScript strings are [string]s of 8-bit characters (the patterns and
      answers of this service are ASCII letters and the wildcard).
    - Numbers that are counts, lengths or timestamps are [Z] or [nat];
      [Math.random()] is a rational in [0,1) read from an oracle.
    - A [Map] is an association list in insertion order; a plain object
      (a [Record<string, V>]) is an association list of its own properties
      in enumeration order.
    - An [async] method is a state transformer that either returns a value
      or throws; the object store, the clock and the random source are an
      immutable [World] read by the methods.
    - The calls of a client run one after the other. Inside
      [loadChunksParallel] the fetches are issued together and complete in
      an order that the world chooses. *)

From Stdlib Require Import Ascii String ZArith QArith Qround.
From stdpp Require Import base list sorting strings pretty gmap.

Close Scope Q_scope.
Open Scope string_scope.
Open Scope nat_scope.
Open Scope list_scope.

(** ** Strings *)

Module JSString.

Definition code (c : ascii) : nat := nat_of_ascii c.

Definition in_range (lo hi c : ascii) : bool :=
  (code lo <=? code c) && (code c <=? code hi).

Definition is_upper (c : ascii) : bool := in_range "A" "Z" c.
Definition is_lower (c : ascii) : bool := in_range "a" "z" c.
Definition is_digit (c : ascii) : bool := in_range "0" "9" c.

Definition upper_char (c : ascii) : ascii :=
  if is_lower c then ascii_of_nat (code c - 32) else c.

(** [s.toUpperCase()] *)
Fixpoint toUpperCase (s : string) : string :=
  match s with
  | EmptyString => EmptyString
  | String c r => String (upper_char c) (toUpperCase r)
  end.

(** [s[i]]: [None] is [undefined]. *)
Definition at_index (s : string) (i : nat) : option ascii := String.get i s.

(** [String(n)] for a non-negative integer: its decimal digits. *)
Definition of_nat (n : nat) : string := pretty n.

(** Truthiness of a string value: every string but the empty one. *)
Definition truthy (s : string) : bool :=
  match s with EmptyString => false | _ => true end.

(** [s.replace(/\?/g, '[A-Z]')] *)
Fixpoint replace_wildcards (s : string) : string :=
  match s with
  | EmptyString => EmptyString
  | String c r =>
      if Ascii.eqb c "?" then "[A-Z]" +:+ replace_wildcards r
      else String c (replace_wildcards r)
  end.

(** [c.replace(/[^A-Z0-9]/g, '_')] on a one-character string. *)
Definition sanitize (c : ascii) : ascii :=
  if is_upper c || is_digit c then c else "_"%char.

End JSString.

Import JSString.

(** ** Regular expressions

    The fragment of the RegExp language that the engine's patterns
    generate: the two anchors, literal characters and a one-range
    character class. [RegExp_new] returns [None] on any source text
    outside the fragment. *)

Module RegExp.

Inductive atom : Type :=
| AssertStart
| AssertEnd
| Lit (c : ascii)
| Range (lo hi : ascii).

Definition t := list atom.

Definition is_syntax_char (c : ascii) : bool :=
  bool_decide (c ∈ list_ascii_of_string "\^$.|?*+()[]{}").

Fixpoint parse (src : string) : option t :=
  match src with
  | EmptyString => Some []
  | String "^" r => cons AssertStart <$> parse r
  | String "$" r => cons AssertEnd <$> parse r
  | String "[" (String lo (String "-" (String hi (String "]" r)))) =>
      if is_syntax_char lo || is_syntax_char hi || negb (code lo <=? code hi)
      then None
      else cons (Range lo hi) <$> parse r
  | String c r =>
      if is_syntax_char c then None else cons (Lit c) <$> parse r
  end.

Definition RegExp_new (src : string) : option t := parse src.

(** Match the atoms at the current position; [bos] tells whether the
    position is the beginning of the input. *)
Fixpoint match_here (r : t) (bos : bool) (s : string) : bool :=
  match r with
  | [] => true
  | AssertStart :: r' => bos && match_here r' bos s
  | AssertEnd :: r' =>
      match s with EmptyString => match_here r' bos s | _ => false end
  | Lit c :: r' =>
      match s with
      | String d s' => Ascii.eqb c d && match_here r' false s'
      | EmptyString => false
      end
  | Range lo hi :: r' =>
      match s with
      | String d s' => in_range lo hi d && match_here r' false s'
      | EmptyString => false
      end
  end.

(** The search that [test] performs: try every start position. *)
Fixpoint search (r : t) (bos : bool) (s : string) : bool :=
  match_here r bos s ||
  match s with
  | EmptyString => false
  | String _ s' => search r false s'
  end.

(** [regex.test(s)] for a regex without flags. *)
Definition test (r : t) (s : string) : bool := search r true s.

End RegExp.

(** The matcher of [findMatchingAnswers]:
    [new RegExp('^' + normalizedPattern.replace(/\?/g, '[A-Z]') + '$')]. *)
Definition matcher_source (normalizedPattern : string) : string :=
  "^" +:+ replace_wildcards normalizedPattern +:+ "$".

Definition compile_matcher (normalizedPattern : string) : option RegExp.t :=
  RegExp.RegExp_new (matcher_source normalizedPattern).

(** A normalized pattern: upper-case letters and the wildcard. *)
Definition pattern_char (c : ascii) : bool := is_upper c || Ascii.eqb c "?".

Fixpoint normalized_pattern (p : string) : bool :=
  match p with
  | EmptyString => true
  | String c r => pattern_char c && normalized_pattern r
  end.

(** What the specification asks of a match, position by position. *)
Definition position_ok (p a : string) (i : nat) : Prop :=
  match at_index p i with
  | None => True
  | Some c =>
      if Ascii.eqb c "?"
      then ∃ d, at_index a i = Some d ∧ is_upper d = true
      else at_index a i = Some c
  end.

Definition full_match (p a : string) : Prop :=
  String.length a = String.length p ∧ ∀ i, position_ok p a i.

(** ** Arrays, plain objects and Maps *)

(** [l.slice(0, e)] for an integer [e]: a negative [e] counts from the
    end of the array. *)
Definition slice0 {A} (e : Z) (l : list A) : list A :=
  if (e <? 0)%Z
  then take (Z.to_nat (Z.max (Z.of_nat (length l) + e) 0)) l
  else take (Z.to_nat e) l.

(** [l.sort(cmp)]: the sort of the language is stable; [cmp a b <= 0]
    keeps [a] before [b]. *)
Fixpoint sort_insert {A} (cmp : A → A → Z) (x : A) (l : list A) : list A :=
  match l with
  | [] => [x]
  | y :: r =>
      if (cmp x y <=? 0)%Z then x :: y :: r else y :: sort_insert cmp x r
  end.

Fixpoint Array_sort {A} (cmp : A → A → Z) (l : list A) : list A :=
  match l with
  | [] => []
  | x :: r => sort_insert cmp x (Array_sort cmp r)
  end.

(** [[...new Set(l)]]: the first occurrence of every value, in order. *)
Fixpoint Set_add (seen : list string) (x : string) : list string :=
  match seen with
  | [] => [x]
  | y :: r => if decide (y = x) then y :: r else y :: Set_add r x
  end.

Definition Set_from (l : list string) : list string :=
  fold_left Set_add l [].

(** [[s[i], s[j]] = [s[j], s[i]]] for two indices inside the array (the
    shuffle draws no other, see [random_index_bound]). *)
Definition swap {A} (s : list A) (i j : nat) : list A :=
  match s !! i, s !! j with
  | Some si, Some sj => <[j := si]> (<[i := sj]> s)
  | _, _ => s
  end.

(** A plain object: its own properties, in enumeration order. *)
Module JSObject.

Definition t (V : Type) : Type := list (string * V).

(** [obj[k]]: [None] is [undefined]. *)
Fixpoint get {V} (obj : t V) (k : string) : option V :=
  match obj with
  | [] => None
  | (k', v) :: r => if decide (k' = k) then Some v else get r k
  end.

(** [Object.values(obj)] *)
Definition values {V} (obj : t V) : list V := snd <$> obj.

Definition keys {V} (obj : t V) : list string := fst <$> obj.

End JSObject.

(** A [Map<string, V>]: its entries, in insertion order. *)
Module JSMap.

Definition t (V : Type) : Type := list (string * V).

Fixpoint get {V} (m : t V) (k : string) : option V :=
  match m with
  | [] => None
  | (k', v) :: r => if decide (k' = k) then Some v else get r k
  end.

Definition has {V} (m : t V) (k : string) : bool :=
  match get m k with Some _ => true | None => false end.

(** [m.set(k, v)]: a present key keeps its position. *)
Fixpoint set {V} (m : t V) (k : string) (v : V) : t V :=
  match m with
  | [] => [(k, v)]
  | (k', v') :: r =>
      if decide (k' = k) then (k, v) :: r else (k', v') :: set r k v
  end.

Fixpoint delete {V} (m : t V) (k : string) : t V :=
  match m with
  | [] => []
  | (k', v') :: r =>
      if decide (k' = k) then r else (k', v') :: delete r k
  end.

Definition size {V} (m : t V) : nat := length m.

Definition keys {V} (m : t V) : list string := fst <$> m.

(** [m.keys().next().value] *)
Definition first_key {V} (m : t V) : option string := head (keys m).

(** The eviction both caches use:
    [const k = m.keys().next().value; if (k) m.delete(k);] *)
Definition delete_oldest {V} (m : t V) : t V :=
  match first_key m with
  | Some k => if truthy k then delete m k else m
  | None => m
  end.

End JSMap.

(** ** Data model *)

Record AnswerMatch : Type := { answer : string; count : Z }.

Record ChunkManifest : Type := {
  totalEntries : Z;
  chunkCount : Z;
  buildTime : string;
  chunks : JSObject.t (JSObject.t string) (* length -> letter -> filename *)
}.

Record Chunk : Type := {
  answers : list AnswerMatch;
  clues : gmap string (list string)
}.

Record CachedResult : Type := {
  results : list AnswerMatch;
  timestamp : Z
}.

Definition CACHE_TTL : Z := 5 * 60 * 1000.
Definition MAX_RESULT_CACHE_SIZE : nat := 100.
Definition MAX_CHUNK_CACHE_SIZE : nat := 10.

(** ** The world outside the loader *)

(** What [dataBucket.get(key)] followed by [JSON.parse] of the body comes
    to: no object under the key, a rejected request, a body that does not
    parse, or the decoded value. *)
Inductive R2Response (V : Type) : Type :=
| R2Missing
| R2Failure
| R2Malformed
| R2Body (v : V).
Arguments R2Missing {V}.
Arguments R2Failure {V}.
Arguments R2Malformed {V}.
Arguments R2Body {V} v.

Record World : Type := {
  (** the object under [chunked-indexes/manifest.json] *)
  r2_manifest : R2Response ChunkManifest;
  (** the object under any other key *)
  r2_chunk : string → R2Response Chunk;
  (** the value of the [n]-th call of [Date.now()] *)
  Date_now : nat → Z;
  (** the value of the [n]-th call of [Math.random()], a number in [0, 1) *)
  Math_random : nat → Q;
  Math_random_unit : ∀ n, (0 <= Math_random n)%Q ∧ (Math_random n < 1)%Q;
  (** the order in which concurrently issued fetches complete *)
  settle_order : list string → list string
}.

(** ** The loader and its methods *)

Record Loader : Type := {
  manifest : option ChunkManifest;
  chunkCache : JSMap.t Chunk;
  resultCache : JSMap.t CachedResult;
  clock_reads : nat;
  random_draws : nat
}.

(** [new ChunkedCrosswordLoader(dataBucket)] *)
Definition new_loader : Loader :=
  {| manifest := None; chunkCache := []; resultCache := [];
     clock_reads := 0; random_draws := 0 |}.

Definition set_manifest (m : ChunkManifest) (st : Loader) : Loader :=
  {| manifest := Some m; chunkCache := chunkCache st;
     resultCache := resultCache st;
     clock_reads := clock_reads st; random_draws := random_draws st |}.

Definition set_chunkCache (c : JSMap.t Chunk) (st : Loader) : Loader :=
  {| manifest := manifest st; chunkCache := c;
     resultCache := resultCache st;
     clock_reads := clock_reads st; random_draws := random_draws st |}.

Definition set_resultCache (c : JSMap.t CachedResult) (st : Loader) : Loader :=
  {| manifest := manifest st; chunkCache := chunkCache st;
     resultCache := c;
     clock_reads := clock_reads st; random_draws := random_draws st |}.

Definition set_clock_reads (n : nat) (st : Loader) : Loader :=
  {| manifest := manifest st; chunkCache := chunkCache st;
     resultCache := resultCache st;
     clock_reads := n; random_draws := random_draws st |}.

Definition set_random_draws (n : nat) (st : Loader) : Loader :=
  {| manifest := manifest st; chunkCache := chunkCache st;
     resultCache := resultCache st;
     clock_reads := clock_reads st; random_draws := n |}.

Inductive Exn : Type :=
| Error (message : string)  (* [throw new Error(message)] *)
| SyntaxError               (* [JSON.parse] of a malformed body *)
| TypeError                 (* a method call on [undefined] *)
| StorageError              (* the object store rejected the request *)
| OutsideFragment.          (* a RegExp source the model does not cover *)

Inductive Outcome (A : Type) : Type :=
| Returns (a : A)
| Throws (e : Exn).
Arguments Returns {A} a.
Arguments Throws {A} e.

(** A method body: it runs on a loader, returns or throws, and leaves a
    loader behind (mutations made before a throw stay). *)
Definition M (A : Type) : Type := Loader → Outcome A * Loader.

Definition ret {A} (a : A) : M A := λ st, (Returns a, st).
Definition throw {A} (e : Exn) : M A := λ st, (Throws e, st).
Definition bind {A B} (m : M A) (k : A → M B) : M B :=
  λ st, match m st with
        | (Returns a, st') => k a st'
        | (Throws e, st') => (Throws e, st')
        end.
Definition try_catch {A} (m : M A) (handler : Exn → M A) : M A :=
  λ st, match m st with
        | (Returns a, st') => (Returns a, st')
        | (Throws e, st') => handler e st'
        end.
Definition this : M Loader := λ st, (Returns st, st).
Definition update (f : Loader → Loader) : M unit := λ st, (Returns (), f st).

Notation "'let*' x ':=' m 'in' k" := (bind m (λ x, k))
  (at level 10, x pattern, m at level 100, k at level 200).
Notation "m ';;' k" := (bind m (λ _, k))
  (at level 100, k at level 200, right associativity).

(** The result of [await dataBucket.get(key)], the not-found check and
    [JSON.parse(await obj.text())], as the two loaders write them. *)
Definition fetch {V} (response : R2Response V) (notFound : string) : M V :=
  match response with
  | R2Missing => throw (Error notFound)
  | R2Failure => throw StorageError
  | R2Malformed => throw SyntaxError
  | R2Body v => ret v
  end.

Record PatternAnalysis : Type := {
  wildcardCount : nat;
  wildcardPositions : list nat;
  startsWithWildcard : bool;
  isHighCostPattern : bool;
  searchStrategy : string
}.

(** The loop of [analyzePattern] from index [i] on. *)
Fixpoint wildcard_positions_from (i : nat) (pattern : string) : list nat :=
  match pattern with
  | EmptyString => []
  | String c r =>
      if Ascii.eqb c "?" then i :: wildcard_positions_from (S i) r
      else wildcard_positions_from (S i) r
  end.

(** [analyzePattern]. The ratio [wildcardCount / pattern.length > 0.6] is
    compared exactly, as [10 * wildcardCount > 6 * pattern.length]; on the
    empty pattern the ratio is NaN and the comparison is false. *)
Definition analyzePattern (pattern : string) : PatternAnalysis :=
  let positions := wildcard_positions_from 0 pattern in
  let wildcards := length positions in
  let starts := bool_decide (at_index pattern 0 = Some "?"%char) in
  {| wildcardCount := wildcards;
     wildcardPositions := positions;
     startsWithWildcard := starts;
     isHighCostPattern :=
       starts && ((3 <? wildcards) || (6 * String.length pattern <? 10 * wildcards));
     searchStrategy := if starts then "parallel-optimized" else "direct" |}.

Definition getCacheKey (pattern : string) : string :=
  "pattern:" +:+ toUpperCase pattern.

(** The inner loop of the direct strategy: every answer is tested. *)
Definition scan_answers (regex : RegExp.t) (chunk_answers results : list AnswerMatch)
  : list AnswerMatch :=
  fold_left
    (λ acc a, if RegExp.test regex (answer a) then acc ++ [a] else acc)
    chunk_answers results.

(** The inner loop of the parallel strategy: it breaks as soon as
    [results.length >= limit] after a push. *)
Fixpoint scan_answers_capped (regex : RegExp.t) (limit : Z)
    (chunk_answers results : list AnswerMatch) : list AnswerMatch :=
  match chunk_answers with
  | [] => results
  | a :: rest =>
      if RegExp.test regex (answer a) then
        let results' := results ++ [a] in
        if (limit <=? Z.of_nat (length results'))%Z then results'
        else scan_answers_capped regex limit rest results'
      else scan_answers_capped regex limit rest results
  end.

(** The outer loop of the parallel strategy: it breaks after a chunk when
    [results.length >= limit]. *)
Fixpoint scan_chunks_capped (regex : RegExp.t) (limit : Z)
    (loaded : list Chunk) (results : list AnswerMatch) : list AnswerMatch :=
  match loaded with
  | [] => results
  | chunk :: rest =>
      let results' := scan_answers_capped regex limit (answers chunk) results in
      if (limit <=? Z.of_nat (length results'))%Z then results'
      else scan_chunks_capped regex limit rest results'
  end.

(** The comparator of the final sort: [(a, b) => b.count - a.count]. *)
Definition by_count_desc (a b : AnswerMatch) : Z := (count b - count a)%Z.

(** The index drawn by the shuffle: [Math.floor(r * (i + 1))]. *)
Definition random_index (r : Q) (i : nat) : nat :=
  Z.to_nat (Qfloor (r * inject_Z (Z.of_nat (i + 1)))).

Section Methods.

Variable w : World.

(** [Date.now()] *)
Definition now : M Z :=
  λ st, (Returns (Date_now w (clock_reads st)),
         set_clock_reads (S (clock_reads st)) st).

(** [Math.random()] *)
Definition random : M Q :=
  λ st, (Returns (Math_random w (random_draws st)),
         set_random_draws (S (random_draws st)) st).

Definition loadManifest : M unit :=
  let* st := this in
  match manifest st with
  | Some _ => ret ()
  | None =>
      let* m := fetch (r2_manifest w) "Chunk manifest not found in R2 bucket" in
      update (set_manifest m)
  end.

(** The cache write of [loadChunk]: [set], then drop the first key when
    the size exceeds 10. *)
Definition chunkCache_store (fileName : string) (chunk : Chunk)
    (cache : JSMap.t Chunk) : JSMap.t Chunk :=
  let cache' := JSMap.set cache fileName chunk in
  if MAX_CHUNK_CACHE_SIZE <? JSMap.size cache'
  then JSMap.delete_oldest cache'
  else cache'.

Definition chunk_key (fileName : string) : string :=
  "chunked-indexes/" +:+ fileName.

Definition loadChunk (fileName : string) : M Chunk :=
  let* st := this in
  match JSMap.get (chunkCache st) fileName with
  | Some chunk => ret chunk
  | None =>
      let* chunk :=
        fetch (r2_chunk w (chunk_key fileName))
              ("Chunk " +:+ fileName +:+ " not found in R2 bucket") in
      update (λ st, set_chunkCache
                      (chunkCache_store fileName chunk (chunkCache st)) st) ;;
      ret chunk
  end.

(** What a fetch that completes does to the cache. *)
Definition settle (cache : JSMap.t Chunk) (fileName : string) : JSMap.t Chunk :=
  match r2_chunk w (chunk_key fileName) with
  | R2Body chunk => chunkCache_store fileName chunk cache
  | _ => cache
  end.

(** The value a [loadChunk] promise fulfils with, if it does: the cache
    is consulted when the call is made, the store on a miss. *)
Definition fulfilled (cache : JSMap.t Chunk) (fileName : string) : option Chunk :=
  match JSMap.get cache fileName with
  | Some chunk => Some chunk
  | None =>
      match r2_chunk w (chunk_key fileName) with
      | R2Body chunk => Some chunk
      | _ => None
      end
  end.

(** [loadChunksParallel]: every call checks the cache before any fetch
    completes; the fetches of the misses complete in the order the world
    decides, each writing the cache; [Promise.allSettled] keeps the
    order of the calls and the filter keeps the fulfilled ones. *)
Definition loadChunksParallel (chunkFiles : list string) : M (list Chunk) :=
  let* st := this in
  let cache := chunkCache st in
  let pending := filter (λ f, JSMap.has cache f = false) chunkFiles in
  update (set_chunkCache (fold_left settle (settle_order w pending) cache)) ;;
  ret (omap (fulfilled cache) chunkFiles).

Definition getRelevantChunks (pattern : string) : M (list string) :=
  let* st := this in
  match manifest st with
  | None => ret []
  | Some m =>
      let length := String.length pattern in
      match at_index pattern 0 with
      | None =>
          (* [undefined !== '?'], then [firstChar.replace] throws *)
          throw TypeError
      | Some firstChar =>
          if negb (Ascii.eqb firstChar "?") then
            let lengthChunks := JSObject.get (chunks m) (of_nat length) in
            let cleanFirstChar := String (sanitize firstChar) EmptyString in
            match lengthChunks with
            | Some lc =>
                match JSObject.get lc cleanFirstChar with
                | Some file => ret (if truthy file then [file] else [])
                | None => ret []
                end
            | None => ret []
            end
          else
            match JSObject.get (chunks m) (of_nat length) with
            | Some lc => ret (JSObject.values lc)
            | None => ret []
            end
      end
  end.

Definition getCachedResult (pattern : string) : M (option (list AnswerMatch)) :=
  let cacheKey := getCacheKey pattern in
  let* st := this in
  match JSMap.get (resultCache st) cacheKey with
  | None => ret None
  | Some cached =>
      let* t := now in
      if (CACHE_TTL <? t - timestamp cached)%Z then
        update (λ st, set_resultCache (JSMap.delete (resultCache st) cacheKey) st) ;;
        ret None
      else ret (Some (results cached))
  end.

Definition setCachedResult (pattern : string) (found : list AnswerMatch) : M unit :=
  let cacheKey := getCacheKey pattern in
  update (λ st,
    if MAX_RESULT_CACHE_SIZE <=? JSMap.size (resultCache st)
    then set_resultCache (JSMap.delete_oldest (resultCache st)) st
    else st) ;;
  let* t := now in
  update (λ st, set_resultCache
                  (JSMap.set (resultCache st) cacheKey
                     {| results := found; timestamp := t |}) st).

(** The loop of the [direct] case. *)
Fixpoint search_direct (regex : RegExp.t) (relevantChunks : list string)
    (found : list AnswerMatch) : M (list AnswerMatch) :=
  match relevantChunks with
  | [] => ret found
  | chunkFile :: rest =>
      let* found' :=
        try_catch
          (let* chunk := loadChunk chunkFile in
           ret (scan_answers regex (answers chunk) found))
          (λ _, ret found) in
      search_direct regex rest found'
  end.

(** The [parallel-optimized] case. *)
Definition search_parallel (regex : RegExp.t) (maxResults : Z)
    (relevantChunks : list string) : M (list AnswerMatch) :=
  let* loaded := loadChunksParallel relevantChunks in
  ret (scan_chunks_capped regex (maxResults * 2) loaded []).

(** The [switch] on the strategy: the matches accumulated in [results]. *)
Definition search (analysis : PatternAnalysis) (regex : RegExp.t)
    (maxResults : Z) (relevantChunks : list string) : M (list AnswerMatch) :=
  if decide (searchStrategy analysis = "direct") then
    search_direct regex relevantChunks []
  else if decide (searchStrategy analysis = "parallel-optimized") then
    search_parallel regex maxResults relevantChunks
  else ret [].

Definition default_maxResults : Z := 100.

Definition findMatchingAnswers (pattern : string) (maxResults_arg : option Z)
  : M (list AnswerMatch) :=
  let maxResults := default default_maxResults maxResults_arg in
  loadManifest ;;
  let normalizedPattern := toUpperCase pattern in
  let* cachedResult := getCachedResult normalizedPattern in
  match cachedResult with
  | Some cached => ret (slice0 maxResults cached)
  | None =>
      let patternAnalysis := analyzePattern normalizedPattern in
      let* regex :=
        match compile_matcher normalizedPattern with
        | Some r => ret r
        | None => throw OutsideFragment
        end in
      let* relevantChunks := getRelevantChunks normalizedPattern in
      let* found := search patternAnalysis regex maxResults relevantChunks in
      let sortedResults := slice0 maxResults (Array_sort by_count_desc found) in
      setCachedResult normalizedPattern sortedResults ;;
      ret sortedResults
  end.

(** The Fisher-Yates loop from index [i] down to 1. *)
Fixpoint shuffle_from (i : nat) (shuffled : list string) : M (list string) :=
  match i with
  | O => ret shuffled
  | S i' =>
      let* r := random in
      shuffle_from i' (swap shuffled i (random_index r i))
  end.

Definition default_maxClues : Z := 10.

Definition getClues (answer_arg : string) (maxClues_arg : option Z)
  : M (list string) :=
  let maxClues := default default_maxClues maxClues_arg in
  loadManifest ;;
  let normalizedAnswer := toUpperCase answer_arg in
  let length := String.length normalizedAnswer in
  match at_index normalizedAnswer 0 with
  | None => throw TypeError (* [firstLetter.replace] on [undefined] *)
  | Some firstLetter =>
      let cleanFirstLetter := String (sanitize firstLetter) EmptyString in
      let* st := this in
      let lengthChunks :=
        m ← manifest st; JSObject.get (chunks m) (of_nat length) in
      match lengthChunks ≫= (λ lc, JSObject.get lc cleanFirstLetter) with
      | None => ret []
      | Some file =>
          if negb (truthy file) then ret []
          else
            try_catch
              (let* chunk := loadChunk file in
               let stored := default [] (clues chunk !! normalizedAnswer) in
               let uniqueClues := Set_from stored in
               let* shuffled := shuffle_from (List.length uniqueClues - 1) uniqueClues in
               ret (slice0 maxClues shuffled))
              (λ _, ret [])
      end
  end.

End Methods.

(** ** Notions used by the statements *)

(** The atoms a normalized pattern compiles to. *)
Definition pattern_atom (c : ascii) : RegExp.atom :=
  if Ascii.eqb c "?" then RegExp.Range "A" "Z" else RegExp.Lit c.

Definition pattern_atoms (p : string) : list RegExp.atom :=
  map pattern_atom (list_ascii_of_string p).

(** A query pattern as the HTTP layer lets it through: letters of either
    case and the wildcard. *)
Definition query_char (c : ascii) : bool :=
  is_upper c || is_lower c || Ascii.eqb c "?".

Fixpoint query_pattern (p : string) : bool :=
  match p with
  | EmptyString => true
  | String c r => query_char c && query_pattern r
  end.

(** The manifest registers [file] for the answers of length [len] in the
    bucket [bucket]. *)
Definition registered (m : ChunkManifest) (len : nat) (bucket file : string) : Prop :=
  ∃ lc, JSObject.get (chunks m) (of_nat len) = Some lc ∧
        JSObject.get lc bucket = Some file.

(** Well-formedness of a manifest: an object has no two properties of the
    same name, and a shard file name is not the empty string (the build
    script names the files [chunk_<length>_<bucket>.json]). *)
Definition buckets_unique (m : ChunkManifest) : Prop :=
  Forall (λ e, NoDup (JSObject.keys e.2)) (chunks m).

Definition shard_names_nonempty (m : ChunkManifest) : Prop :=
  Forall (λ e, Forall (λ bf, truthy bf.2 = true) e.2) (chunks m).

(** The manifest a call can rely on: the one already loaded, or else the
    one the store serves. *)
Definition manifest_available (w : World) (st : Loader) (m : ChunkManifest) : Prop :=
  manifest st = Some m ∨ (manifest st = None ∧ r2_manifest w = R2Body m).

Definition manifest_unavailable (w : World) (st : Loader) : Prop :=
  manifest st = None ∧ ∀ m, r2_manifest w ≠ R2Body m.

(** Every match of a list of chunks, in scan order. *)
Definition all_matches (regex : RegExp.t) (loaded : list Chunk) : list AnswerMatch :=
  flat_map (λ chunk, filter (λ a, RegExp.test regex (answer a) = true) (answers chunk))
           loaded.

(** The chunks a sequence of [loadChunk] calls obtains, one call after the
    other, starting from a given cache. *)
Fixpoint load_in_turn (w : World) (cache : JSMap.t Chunk) (files : list string)
  : list Chunk :=
  match files with
  | [] => []
  | f :: rest =>
      match JSMap.get cache f with
      | Some chunk => chunk :: load_in_turn w cache rest
      | None =>
          match r2_chunk w (chunk_key f) with
          | R2Body chunk =>
              chunk :: load_in_turn w (chunkCache_store f chunk cache) rest
          | _ => load_in_turn w cache rest
          end
      end
  end.

(** The result cache holds an entry for the pattern that has not expired
    at the next reading of the clock. *)
Definition fresh_entry (w : World) (st : Loader) (pattern : string)
    (cached : CachedResult) : Prop :=
  JSMap.get (resultCache st) (getCacheKey pattern) = Some cached ∧
  (Date_now w (clock_reads st) - timestamp cached <= CACHE_TTL)%Z.

Definition cache_miss (w : World) (st : Loader) (pattern : string) : Prop :=
  ∀ cached, ¬ fresh_entry w st pattern cached.

(** The calls a client can make, and the loader after a sequence of them
    (a call that throws leaves the loader as it was when it threw). *)
Inductive Call : Type :=
| Call_findMatchingAnswers (pattern : string) (maxResults : option Z)
| Call_getClues (answer : string) (maxClues : option Z).

Definition run_call (w : World) (st : Loader) (c : Call) : Loader :=
  match c with
  | Call_findMatchingAnswers pattern maxResults =>
      (findMatchingAnswers w pattern maxResults st).2
  | Call_getClues answer maxClues => (getClues w answer maxClues st).2
  end.

Definition run_calls (w : World) (calls : list Call) (st : Loader) : Loader :=
  fold_left (run_call w) calls st.

(** The loader after a sequence of shard loads. *)
Definition load_all (w : World) (files : list string) (st : Loader) : Loader :=
  fold_left (λ st f, (loadChunk w f st).2) files st.

(** The order of the ranking: a higher count comes first. *)
Definition ranked (a b : AnswerMatch) : Prop := (count b <= count a)%Z.

(** The world is fair to concurrent fetches: each one completes, once. *)
Definition fetches_complete (w : World) : Prop :=
  ∀ pending, settle_order w pending ≡ₚ pending.

(** The size bounds of the two caches. *)
Definition caches_bounded (st : Loader) : Prop :=
  JSMap.size (chunkCache st) ≤ MAX_CHUNK_CACHE_SIZE ∧
  JSMap.size (resultCache st) ≤ MAX_RESULT_CACHE_SIZE.

(** The invariant of a loader: bounded caches whose keys are non-empty
    strings, and a well-formed manifest once one is loaded. *)
Definition truthy_keys {V} (m : JSMap.t V) : Prop :=
  Forall (λ k, truthy k = true) (JSMap.keys m).

Definition loader_ok (st : Loader) : Prop :=
  caches_bounded st ∧
  truthy_keys (chunkCache st) ∧ truthy_keys (resultCache st) ∧
  ∀ m, manifest st = Some m → shard_names_nonempty m.

(** The store serves a manifest with non-empty shard file names, if any. *)
Definition served_manifest_ok (w : World) : Prop :=
  ∀ m, r2_manifest w = R2Body m → shard_names_nonempty m.

(** A method keeps an invariant of the loader, whether it returns or
    throws, and returns only values that satisfy [φ]. *)
Definition inv_spec {A} (I : Loader → Prop) (m : M A) (φ : A → Prop) : Prop :=
  ∀ st, I st → I (m st).2 ∧ ∀ a, (m st).1 = Returns a → φ a.

(** The cache write of [setCachedResult]: evict the oldest entry of a full
    cache, then set. *)
Definition resultCache_store (key : string) (entry : CachedResult)
    (rc : JSMap.t CachedResult) : JSMap.t CachedResult :=
  JSMap.set (if MAX_RESULT_CACHE_SIZE <=? JSMap.size rc
             then JSMap.delete_oldest rc else rc) key entry.

(** The matches a search accumulates from the chunks it obtained: capped
    for a pattern that starts with the wildcard, all of them otherwise. *)
Definition accumulated (regex : RegExp.t) (wildcard_first : bool)
    (maxResults : Z) (healthy : list Chunk) : list AnswerMatch :=
  if wildcard_first
  then scan_chunks_capped regex (maxResults * 2) healthy []
  else all_matches regex healthy.

(** The next reading of the clock is within the TTL of the entry cached
    for the pattern. *)
Definition within_ttl (w : World) (st : Loader) (pattern : string) : Prop :=
  ∀ cached, JSMap.get (resultCache st) (getCacheKey pattern) = Some cached →
            (Date_now w (clock_reads st) - timestamp cached <= CACHE_TTL)%Z.

(** The shard file that holds the clues of a normalized answer whose first
    character is [c], as [getClues] looks it up in the manifest. *)
Definition owning_shard (m : ChunkManifest) (normalizedAnswer : string) (c : ascii)
  : option string :=
  JSObject.get (chunks m) (of_nat (String.length normalizedAnswer)) ≫=
  λ lc, JSObject.get lc (String (sanitize c) EmptyString).

(** The last [n] elements of a list. *)
Definition last_n {A} (n : nat) (l : list A) : list A := drop (length l - n) l.

(** The call that a query (pattern, [maxResults] argument) makes. *)
Definition query_call (q : string * option Z) : Call :=
  Call_findMatchingAnswers q.1 q.2.

(** ** A small world, for the examples

    Three shards of five-letter answers (the one of the bucket [B] is not
    in the store), one shard of sixty three-letter answers, a clock that
    advances by a second at every reading. *)

Definition match_of (a : string) (n : Z) : AnswerMatch :=
  {| answer := a; count := n |}.

Definition chunk_5_A : Chunk :=
  {| answers := [match_of "ANGLE" 40; match_of "APPLE" 12; match_of "AMPLE" 3];
     clues := {[ "APPLE" := ["a"; "a"; "b"] ]} |}.

Definition chunk_5_C : Chunk :=
  {| answers := [match_of "CABLE" 7; match_of "CANDY" 5; match_of "CAPLE" 1];
     clues := ∅ |}.

Definition letter (n : nat) : ascii := ascii_of_nat (65 + n mod 26).

Definition chunk_3_A : Chunk :=
  {| answers :=
       map (λ n, match_of (String "A" (String (letter (n / 26)) (String (letter n) "")))
                          (Z.of_nat (100 - n)))
           (seq 0 60);
     clues := ∅ |}.

Definition demo_manifest : ChunkManifest :=
  {| totalEntries := 66; chunkCount := 4; buildTime := "2024-01-01T00:00:00.000Z";
     chunks := [("3", [("A", "chunk_3_A.json")]);
                ("5", [("A", "chunk_5_A.json"); ("B", "chunk_5_B.json");
                       ("C", "chunk_5_C.json")])] |}.

Definition demo_store (key : string) : R2Response Chunk :=
  if decide (key = "chunked-indexes/chunk_5_A.json") then R2Body chunk_5_A
  else if decide (key = "chunked-indexes/chunk_5_C.json") then R2Body chunk_5_C
  else if decide (key = "chunked-indexes/chunk_3_A.json") then R2Body chunk_3_A
  else R2Missing.

Definition demo_world : World :=
  {| r2_manifest := R2Body demo_manifest;
     r2_chunk := demo_store;
     Date_now := λ n, (1000 * Z.of_nat n)%Z;
     Math_random := λ _, (1 # 2)%Q;
     Math_random_unit := λ _, ltac:(split; [discriminate|reflexivity]);
     settle_order := λ pending, pending |}.

(** The same world with no manifest in the store. *)
Definition world_without_manifest : World :=
  {| r2_manifest := R2Missing;
     r2_chunk := demo_store;
     Date_now := λ n, (1000 * Z.of_nat n)%Z;
     Math_random := λ _, (1 # 2)%Q;
     Math_random_unit := λ _, ltac:(split; [discriminate|reflexivity]);
     settle_order := λ pending, pending |}.

(** A world whose store has a (one-answer) shard under every key. *)
Definition wide_world : World :=
  {| r2_manifest := R2Body demo_manifest;
     r2_chunk := λ _, R2Body {| answers := [match_of "A" 1]; clues := ∅ |};
     Date_now := λ n, (1000 * Z.of_nat n)%Z;
     Math_random := λ _, (1 # 2)%Q;
     Math_random_unit := λ _, ltac:(split; [discriminate|reflexivity]);
     settle_order := λ pending, pending |}.

(** Shard file names [chunk_1_A.json], [chunk_2_A.json], ... and the
    patterns [A], [AA], [AAA], ... *)
Definition shard_names (n : nat) : list string :=
  map (λ i, "chunk_" +:+ of_nat i +:+ "_A.json") (seq 1 n).

Fixpoint letters_A (n : nat) : string :=
  match n with
  | O => EmptyString
  | S n' => String "A" (letters_A n')
  end.

Definition patterns_A (n : nat) : list string := map letters_A (seq 1 n).

Definition queries_A (n : nat) : list (string * option Z) :=
  map (λ p, (p, None)) (patterns_A n).

(** A world that shows the clock of the small world and holds its first
    shard, and nothing else: no manifest, and a failing store elsewhere. *)
Definition lone_shard_world : World :=
  {| r2_manifest := R2Failure;
     r2_chunk := λ key,
       if decide (key = "chunked-indexes/chunk_5_A.json") then R2Body chunk_5_A
       else R2Failure;
     Date_now := λ n, (1000 * Z.of_nat n)%Z;
     Math_random := λ _, (1 # 2)%Q;
     Math_random_unit := λ _, ltac:(split; [discriminate|reflexivity]);
     settle_order := λ pending, pending |}.

(** A loader whose result cache holds an entry written long ago. *)
Definition loader_with_old_entry : Loader :=
  set_resultCache
    [("pattern:A?PLE", {| results := [match_of "APPLE" 12]; timestamp := (-400000)%Z |});
     ("pattern:CAB??", {| results := [match_of "CABLE" 7]; timestamp := 0%Z |})]
    new_loader.

(** The small world after a query. *)
Definition loader_after_query : Loader :=
  (findMatchingAnswers demo_world "A?PLE" None new_loader).2.

(** The calls made before the queries of the examples below. *)
Definition earlier_calls : list Call :=
  [Call_findMatchingAnswers "?????" (Some 1%Z); Call_getClues "apple" None;
   Call_findMatchingAnswers "a?ple" (Some 5%Z)].

(** ** The engine at any number

    [maxResults] is a JavaScript number: the HTTP layer obtains it from
    [parseInt], which returns NaN on a text without digits. The methods
    below are [findMatchingAnswers] and its loops again, with the
    comparisons and [slice] of the language at NaN: a comparison with NaN
    is false and [slice(0, NaN)] is empty. *)

Inductive JSNumber : Type :=
| NaN
| Num (z : Z).

(** [n * 2] *)
Definition times_two (n : JSNumber) : JSNumber :=
  match n with NaN => NaN | Num z => Num (z * 2) end.

(** [len >= n] for the length of an array *)
Definition length_reaches (len : nat) (n : JSNumber) : bool :=
  match n with NaN => false | Num z => (z <=? Z.of_nat len)%Z end.

(** [n < k] and [n > k] for an integer constant [k] *)
Definition number_lt (n : JSNumber) (k : Z) : bool :=
  match n with NaN => false | Num z => (z <? k)%Z end.

Definition number_gt (n : JSNumber) (k : Z) : bool :=
  match n with NaN => false | Num z => (k <? z)%Z end.

(** [l.slice(0, n)] *)
Definition slice0_number {A} (n : JSNumber) (l : list A) : list A :=
  match n with NaN => [] | Num z => slice0 z l end.

Fixpoint scan_answers_capped_number (regex : RegExp.t) (limit : JSNumber)
    (chunk_answers results : list AnswerMatch) : list AnswerMatch :=
  match chunk_answers with
  | [] => results
  | a :: rest =>
      if RegExp.test regex (answer a) then
        let results' := results ++ [a] in
        if length_reaches (length results') limit then results'
        else scan_answers_capped_number regex limit rest results'
      else scan_answers_capped_number regex limit rest results
  end.

Fixpoint scan_chunks_capped_number (regex : RegExp.t) (limit : JSNumber)
    (loaded : list Chunk) (results : list AnswerMatch) : list AnswerMatch :=
  match loaded with
  | [] => results
  | chunk :: rest =>
      let results' :=
        scan_answers_capped_number regex limit (answers chunk) results in
      if length_reaches (length results') limit then results'
      else scan_chunks_capped_number regex limit rest results'
  end.

Definition search_number (w : World) (analysis : PatternAnalysis)
    (regex : RegExp.t) (maxResults : JSNumber) (relevantChunks : list string)
  : M (list AnswerMatch) :=
  if decide (searchStrategy analysis = "direct") then
    search_direct w regex relevantChunks []
  else if decide (searchStrategy analysis = "parallel-optimized") then
    let* loaded := loadChunksParallel w relevantChunks in
    ret (scan_chunks_capped_number regex (times_two maxResults) loaded [])
  else ret [].

(** [findMatchingAnswers(pattern, maxResults)] with the argument given. *)
Definition findMatchingAnswers_number (w : World) (pattern : string)
    (maxResults : JSNumber) : M (list AnswerMatch) :=
  loadManifest w ;;
  let normalizedPattern := toUpperCase pattern in
  let* cachedResult := getCachedResult w normalizedPattern in
  match cachedResult with
  | Some cached => ret (slice0_number maxResults cached)
  | None =>
      let patternAnalysis := analyzePattern normalizedPattern in
      let* regex :=
        match compile_matcher normalizedPattern with
        | Some r => ret r
        | None => throw OutsideFragment
        end in
      let* relevantChunks := getRelevantChunks normalizedPattern in
      let* found := search_number w patternAnalysis regex maxResults relevantChunks in
      let sortedResults :=
        slice0_number maxResults (Array_sort by_count_desc found) in
      setCachedResult w normalizedPattern sortedResults ;;
      ret sortedResults
  end.

(** ** The HTTP layer

    The three routes of the worker that call the engine. A request is the
    text of its query parameters ([None] when a parameter is absent); a
    response is a status, the headers the handler sets, and a body. The
    module-level index is created on first use with the bucket of the
    request: the bucket is the world's store, so the state of the server
    is the loader, a new one until a call changes it. The headers that the
    CORS middleware adds are not part of the model. *)

Inductive Body : Type :=
| AnswersBody (answers : list AnswerMatch)          (* [{ answers }] *)
| CluesBody (clues : list string)                   (* [{ clues }] *)
| AnalysisBody (pattern : string) (analysis : PatternAnalysis)
               (tips : list string)                 (* [{ pattern, analysis, tips }] *)
| ErrorBody (error : string)                        (* [{ error }] *)
| HealthBody (message state : string)
             (optimizations : list string).         (* [{ message, status, optimizations }] *)

Record Response : Type := {
  status : nat;
  headers : list (string * string);
  body : Body
}.

(** [c.json(body, status)] after the given [c.header] calls. *)
Definition json (body : Body) (status : nat) (headers : list (string * string))
  : Response :=
  {| status := status; headers := headers; body := body |}.

(** [c.req.query(name) || fallback] *)
Definition query_or (param : option string) (fallback : string) : string :=
  match param with
  | Some s => if truthy s then s else fallback
  | None => fallback
  end.

(** [s.match(/^[...]+$/)] is not [null]: the text is not empty and all its
    characters are in the class. *)
Fixpoint all_in_class (class : ascii → bool) (s : string) : bool :=
  match s with
  | EmptyString => true
  | String c r => class c && all_in_class class r
  end.

Definition matches_one_or_more (class : ascii → bool) (s : string) : bool :=
  truthy s && all_in_class class s.

(** The class [[A-Za-z]]; the class [[A-Za-z?]] is [query_char]. *)
Definition letter_char (c : ascii) : bool := is_upper c || is_lower c.

(** [parseInt(s, 10)]: leading white space is skipped, a sign is read,
    then decimal digits up to the first other character; no digit gives
    NaN. The integer is kept exactly (the language rounds integers that
    have more than 53 bits, all of them far above the bounds the handler
    compares with). *)
Definition is_white_space (c : ascii) : bool :=
  bool_decide (code c ∈ [9; 10; 11; 12; 13; 32; 160]).

Fixpoint skip_white_space (s : string) : string :=
  match s with
  | EmptyString => EmptyString
  | String c r => if is_white_space c then skip_white_space r else s
  end.

Fixpoint parse_digits (acc : option Z) (s : string) : option Z :=
  match s with
  | EmptyString => acc
  | String c r =>
      if is_digit c
      then parse_digits (Some (10 * default 0%Z acc + Z.of_nat (code c - 48))%Z) r
      else acc
  end.

Definition parseInt (s : string) : JSNumber :=
  let trimmed := skip_white_space s in
  let '(sign, digits) :=
    match trimmed with
    | String "-" r => ((-1)%Z, r)
    | String "+" r => (1%Z, r)
    | _ => (1%Z, trimmed)
    end in
  match parse_digits None digits with
  | None => NaN
  | Some n => Num (sign * n)
  end.

(** [n.toString()] for an integer. *)
Definition Z_toString (z : Z) : string := pretty z.

Definition tips_slow : list string :=
  ["This pattern may be slow"; "Consider using fewer wildcards";
   "Try limiting maxResults parameter"].

Definition tips_fast : list string :=
  ["This pattern should be fast"; "Direct chunk access available"].

(** [app.get('/', ...)] *)
Definition health_route : M Response :=
  ret (json (HealthBody "Down Pattern API is running" "ok"
               ["Result caching (5min TTL)";
                "Parallel chunk loading for wildcard patterns";
                "Smart search strategies based on pattern analysis";
                "Early stopping for expensive queries"])
            200 []).

Section Routes.

Variable w : World.

(** [app.get('/answers', ...)] *)
Definition answers_route (pattern_param maxResults_param : option string)
  : M Response :=
  let pattern := query_or pattern_param "" in
  let maxResults := parseInt (query_or maxResults_param "50") in
  if negb (truthy pattern) || negb (matches_one_or_more query_char pattern)
  then ret (json (AnswersBody []) 400 [])
  else if number_lt maxResults 1 || number_gt maxResults 500
  then ret (json (AnswersBody []) 400 [])
  else
    let* startTime := now w in
    try_catch
      (let* answers := findMatchingAnswers_number w pattern maxResults in
       let* endTime := now w in
       let executionTime := (endTime - startTime)%Z in
       ret (json (AnswersBody answers) 200
              [("X-Execution-Time-Ms", Z_toString executionTime);
               ("X-Result-Count", Z_toString (Z.of_nat (length answers)));
               ("X-Pattern-Type",
                if bool_decide (at_index pattern 0 = Some "?"%char)
                then "wildcard" else "literal")]))
      (λ _, ret (json (AnswersBody []) 500 [])).

(** [app.get('/clues', ...)] *)
Definition clues_route (answer_param : option string) : M Response :=
  let answer := query_or answer_param "" in
  if negb (truthy answer) || negb (matches_one_or_more letter_char answer)
  then ret (json (CluesBody []) 400 [])
  else
    try_catch
      (let* found := getClues w answer (Some 10%Z) in
       ret (json (CluesBody found) 200 []))
      (λ _, ret (json (CluesBody []) 500 [])).

(** [app.get('/debug/pattern', ...)] *)
Definition debug_pattern_route (pattern_param : option string) : M Response :=
  let pattern := query_or pattern_param "" in
  if negb (truthy pattern) || negb (matches_one_or_more query_char pattern)
  then ret (json (ErrorBody "Invalid pattern") 400 [])
  else
    try_catch
      (let analysis := analyzePattern (toUpperCase pattern) in
       ret (json (AnalysisBody (toUpperCase pattern) analysis
                    (if isHighCostPattern analysis then tips_slow else tips_fast))
                 200 []))
      (λ _, ret (json (ErrorBody "Analysis failed") 500 [])).

End Routes.

(** The requests that the worker routes, and the loader of a worker after
    a sequence of them, served one after the other. *)
Inductive Request : Type :=
| GET_health
| GET_answers (pattern maxResults : option string)
| GET_clues (answer : option string)
| GET_debug_pattern (pattern : option string).

Definition handle (w : World) (req : Request) : M Response :=
  match req with
  | GET_health => health_route
  | GET_answers pattern maxResults => answers_route w pattern maxResults
  | GET_clues answer => clues_route w answer
  | GET_debug_pattern pattern => debug_pattern_route pattern
  end.

Definition serve (w : World) (reqs : list Request) (st : Loader) : Loader :=
  fold_left (λ st req, (handle w req st).2) reqs st.

(** ** Notions used by the further properties *)

(** Both caches are Maps (no key occurs twice), and every cached shard is
    the chunk that the store holds under its name. *)
Definition mirrors_store (w : World) (cache : JSMap.t Chunk) : Prop :=
  Forall (λ kv, r2_chunk w (chunk_key kv.1) = R2Body kv.2) cache.

Definition caches_coherent (w : World) (st : Loader) : Prop :=
  NoDup (JSMap.keys (chunkCache st)) ∧
  NoDup (JSMap.keys (resultCache st)) ∧
  mirrors_store w (chunkCache st).

(** Every cached result list belongs to a pattern whose matcher accepts
    all its answers, and is ranked. *)
Definition entry_sound (key : string) (entry : CachedResult) : Prop :=
  ∃ p regex,
    key = getCacheKey p ∧
    compile_matcher (toUpperCase p) = Some regex ∧
    Forall (λ a, RegExp.test regex (answer a) = true) (results entry) ∧
    Sorted ranked (results entry).

Definition results_sound (st : Loader) : Prop :=
  Forall (λ kv, entry_sound kv.1 kv.2) (resultCache st).

(** What a query returns: answers that the pattern's matcher accepts,
    ranked, and no more than a non-negative [maxResults]. *)
Definition sound_result (p : string) (maxResults : Z) (r : list AnswerMatch) : Prop :=
  (∃ regex, compile_matcher (toUpperCase p) = Some regex ∧
            Forall (λ a, RegExp.test regex (answer a) = true) r) ∧
  Sorted ranked r ∧
  ((0 <= maxResults)%Z → (Z.of_nat (length r) <= maxResults)%Z).

(** The loader after a reading of the clock. *)
Definition tick (st : Loader) : Loader := set_clock_reads (S (clock_reads st)) st.

(** The [maxResults] that the answers route accepts: NaN, or an integer
    from 1 to 500. *)
Definition accepted_maxResults (n : JSNumber) : Prop :=
  match n with NaN => True | Num z => (1 <= z <= 500)%Z end.

(** The engine's argument that behaves as the number does. *)
Definition as_argument (n : JSNumber) : Z :=
  match n with NaN => 0%Z | Num z => z end.

(** A request that the answers route lets through to the engine. *)
Definition valid_answers_request (pattern : string) (n : JSNumber) : Prop :=
  pattern ≠ "" ∧ query_pattern pattern = true ∧ accepted_maxResults n.

(** The headers of a successful answers response. *)
Definition answers_headers (pattern : string) (executionTime : Z)
    (answers : list AnswerMatch) : list (string * string) :=
  [("X-Execution-Time-Ms", Z_toString executionTime);
   ("X-Result-Count", Z_toString (Z.of_nat (length answers)));
   ("X-Pattern-Type",
    if bool_decide (at_index pattern 0 = Some "?"%char)
    then "wildcard" else "literal")].

(** A call as the HTTP layer makes it: the pattern has only letters and
    the wildcard, the answer only letters. These are the texts of the
    conventions above: their RegExp source is in the modelled fragment,
    and their upper case is that of ASCII. *)
Definition modelled_call (c : Call) : bool :=
  match c with
  | Call_findMatchingAnswers p _ => query_pattern p
  | Call_getClues a _ => all_in_class letter_char a
  end.

(** ** The loader before the optimizations

    The first version of the loader has the [loadManifest], [loadChunk]
    and [getRelevantChunks] of the present one, word for word. Its
    [findMatchingAnswers] takes no [maxResults] and knows no result cache
    and no strategy: it scans every relevant shard in turn, skipping a
    shard that fails to load, and returns every match, sorted. (Its
    [getClues] shuffles with [sort(() => Math.random() - 0.5)], whose
    result the language leaves to the implementation; it is not
    modelled.) *)
Module Baseline.

Section Methods.

Variable w : World.

Definition findMatchingAnswers (pattern : string) : M (list AnswerMatch) :=
  loadManifest w ;;
  let normalizedPattern := toUpperCase pattern in
  let* regex :=
    match compile_matcher normalizedPattern with
    | Some r => ret r
    | None => throw OutsideFragment
    end in
  let* relevantChunks := getRelevantChunks normalizedPattern in
  let* results := search_direct w regex relevantChunks [] in
  ret (Array_sort by_count_desc results).

(** [app.get('/answers', ...)] of the first version. *)
Definition answers_route (pattern_param : option string) : M Response :=
  let pattern := query_or pattern_param "" in
  if negb (truthy pattern) || negb (matches_one_or_more query_char pattern)
  then ret (json (AnswersBody []) 400 [])
  else
    try_catch
      (let* answers := findMatchingAnswers pattern in
       ret (json (AnswersBody answers) 200 []))
      (λ _, ret (json (AnswersBody []) 500 [])).

End Methods.

End Baseline.

(** The chunk that the store holds under a shard file name, if any. *)
Definition store_chunk (w : World) (fileName : string) : option Chunk :=
  match r2_chunk w (chunk_key fileName) with
  | R2Body chunk => Some chunk
  | _ => None
  end.

(** A list of answers refines the first version's answer to a pattern:
    the first version, on a new loader, returns a list of which this one
    is a sublist, and a prefix if the pattern starts with a literal. *)
Definition refines_baseline (w : World) (p : string) (r : list AnswerMatch) : Prop :=
  ∃ all st_b,
    Baseline.findMatchingAnswers w p new_loader = (Returns all, st_b) ∧
    r `sublist_of` all ∧
    (at_index p 0 ≠ Some "?"%char → r `prefix_of` all).

Definition entries_refine (w : World) (st : Loader) : Prop :=
  Forall (λ kv, ∃ p, kv.1 = getCacheKey p ∧ refines_baseline w p (results kv.2))
         (resultCache st).

(** The loader holds the manifest [m], its cached shards are those of the
    store, and its cached results refine the first version's. *)
Definition refinement_inv (w : World) (m : ChunkManifest) (st : Loader) : Prop :=
  manifest st = Some m ∧
  mirrors_store w (chunkCache st) ∧
  entries_refine w st.

(** The same for a loader that may not have loaded the manifest yet: a
    manifest it holds is the one the store serves. *)
Definition refinement_state (w : World) (st : Loader) : Prop :=
  (∀ m, manifest st = Some m → r2_manifest w = R2Body m) ∧
  mirrors_store w (chunkCache st) ∧
  entries_refine w st.

(** The requests served before those of the examples below. *)
Definition earlier_requests : list Request :=
  [GET_answers (Some "?????") (Some "1"); GET_health;
   GET_clues (Some "apple"); GET_debug_pattern (Some "a?")].

(** ** The build script

    [scripts/build-chunked-index.js] reads the TSV of answers and clues
    and writes the shard files and the manifest that the loader reads.
    The model takes the text of the TSV and the build time, and gives the
    shard files written, in the order of the writes, and the manifest. *)

(** [s.trim()]: white space and line terminators are removed at both
    ends. *)
Fixpoint trim_end (s : string) : string :=
  match s with
  | EmptyString => EmptyString
  | String c r =>
      match trim_end r with
      | EmptyString => if is_white_space c then EmptyString else String c EmptyString
      | r' => String c r'
      end
  end.

Definition trim (s : string) : string := trim_end (skip_white_space s).

(** [s.split(sep)] for a separator of one character: the texts between
    the separators, at least one. *)
Fixpoint split (sep : ascii) (s : string) : list string :=
  match s with
  | EmptyString => [EmptyString]
  | String c r =>
      if Ascii.eqb c sep then EmptyString :: split sep r
      else match split sep r with
           | field :: fields => String c field :: fields
           | [] => [String c EmptyString]
           end
  end.

(** [s.replace(/[^A-Z0-9]/g, '_')] *)
Fixpoint sanitize_all (s : string) : string :=
  match s with
  | EmptyString => EmptyString
  | String c r => String (sanitize c) (sanitize_all r)
  end.

(** A [Map] whose keys are numbers: its entries, in insertion order. *)
Module NumMap.

Definition t (V : Type) : Type := list (nat * V).

Fixpoint get {V} (m : t V) (k : nat) : option V :=
  match m with
  | [] => None
  | (k', v) :: r => if decide (k' = k) then Some v else get r k
  end.

Definition has {V} (m : t V) (k : nat) : bool :=
  match get m k with Some _ => true | None => false end.

Fixpoint set {V} (m : t V) (k : nat) (v : V) : t V :=
  match m with
  | [] => [(k, v)]
  | (k', v') :: r =>
      if decide (k' = k) then (k, v) :: r else (k', v') :: set r k v
  end.

End NumMap.

(** [obj[k] = v] on a plain object. The properties of an object are
    enumerated with the array indices first, in ascending order, and the
    other names after them, in the order of their creation. An array
    index is the canonical decimal text of an integer below 2^32 - 1. *)
Fixpoint digits_value (acc : N) (s : string) : N :=
  match s with
  | EmptyString => acc
  | String c r => digits_value (10 * acc + N.of_nat (code c - 48)) r
  end.

Definition array_index (k : string) : option N :=
  match k with
  | EmptyString => None
  | String c r =>
      if all_in_class is_digit k
         && (negb (Ascii.eqb c "0") || negb (truthy r))
         && (digits_value 0 k <? 4294967295)%N
      then Some (digits_value 0 k)
      else None
  end.

Fixpoint insert_index {V} (n : N) (k : string) (v : V) (obj : JSObject.t V)
  : JSObject.t V :=
  match obj with
  | [] => [(k, v)]
  | (k', v') :: r =>
      match array_index k' with
      | Some n' =>
          if (n' <? n)%N then (k', v') :: insert_index n k v r
          else (k, v) :: obj
      | None => (k, v) :: obj
      end
  end.

Definition JSObject_set {V} (obj : JSObject.t V) (k : string) (v : V)
  : JSObject.t V :=
  match JSObject.get obj k, array_index k with
  | None, Some n => insert_index n k v obj
  | _, _ => JSMap.set obj k v  (* in place, or after the last property *)
  end.

Module Build.

Definition TAB : ascii := "009"%char.
Definition LF : ascii := "010"%char.

(** The two Maps of the first loop and its counter. *)
Record Index : Type := {
  answersByLengthAndLetter : NumMap.t (JSMap.t (JSMap.t Z));
  cluesByAnswer : JSMap.t (list string);
  entries : Z  (* [totalEntries] *)
}.

Definition empty_index : Index :=
  {| answersByLengthAndLetter := []; cluesByAnswer := []; entries := 0 |}.

(** The statements of the first loop that record an entry (from
    "Organize by length and first letter" to [totalEntries++]). The Maps
    are shared objects: a write to an inner Map shows in the outer one. *)
Definition record (ix : Index) (upperAnswer clue : string) : Index :=
  let length := String.length upperAnswer in
  let firstLetter := String.substring 0 1 upperAnswer in
  let byLength := answersByLengthAndLetter ix in
  let byLength1 :=
    if NumMap.has byLength length then byLength
    else NumMap.set byLength length [] in
  let lengthMap := default [] (NumMap.get byLength1 length) in
  let lengthMap1 :=
    if JSMap.has lengthMap firstLetter then lengthMap
    else JSMap.set lengthMap firstLetter [] in
  let letterMap := default [] (JSMap.get lengthMap1 firstLetter) in
  let letterMap1 :=
    if JSMap.has letterMap upperAnswer then letterMap
    else JSMap.set letterMap upperAnswer 0%Z in
  let letterMap2 :=
    JSMap.set letterMap1 upperAnswer
      (default 0 (JSMap.get letterMap1 upperAnswer) + 1)%Z in
  let lengthMap2 := JSMap.set lengthMap1 firstLetter letterMap2 in
  let byLength2 := NumMap.set byLength1 length lengthMap2 in
  let byAnswer := cluesByAnswer ix in
  let byAnswer1 :=
    if JSMap.has byAnswer upperAnswer then byAnswer
    else JSMap.set byAnswer upperAnswer [] in
  let clues := default [] (JSMap.get byAnswer1 upperAnswer) in
  let clues1 :=
    if List.length clues <? 10 then clues ++ [clue] else clues in
  {| answersByLengthAndLetter := byLength2;
     cluesByAnswer := JSMap.set byAnswer1 upperAnswer clues1;
     entries := entries ix + 1 |}.

(** The body of the first loop, on the line [lines[i]]. *)
Definition process_line (ix : Index) (raw : string) : Index :=
  let line := trim raw in
  if negb (truthy line) then ix
  else
    match split TAB line with
    | answer :: clue :: _ =>
        if truthy answer && truthy clue then
          let upperAnswer := toUpperCase answer in
          let length := String.length upperAnswer in
          (* skip very long answers *)
          if 20 <? length then ix
          else record ix upperAnswer clue
        else ix
    | _ => ix  (* [clue] is [undefined] *)
    end.

(** What the second loop has written so far. *)
Record Output : Type := {
  files : list (string * Chunk);  (* the [writeFileSync] of shards, in order *)
  chunkManifest : JSObject.t (JSObject.t string);
  written : Z  (* [chunkCount] *)
}.

Definition empty_output : Output :=
  {| files := []; chunkManifest := []; written := 0 |}.

(** The chunk of a letter: its answers sorted by count, and the clues of
    the answers that have some. *)
Definition make_chunk (byAnswer : JSMap.t (list string)) (answerCounts : JSMap.t Z)
  : Chunk :=
  let sorted :=
    Array_sort by_count_desc
      (map (λ ac, {| answer := ac.1; count := ac.2 |}) answerCounts) in
  {| answers := sorted;
     clues :=
       fold_left
         (λ (clues : gmap string (list string)) a,
            match JSMap.get byAnswer (answer a) with
            | Some found => <[answer a := found]> clues
            | None => clues
            end)
         sorted ∅ |}.

(** The body of the inner loop of the second phase. *)
Definition write_chunk (byAnswer : JSMap.t (list string)) (length : nat)
    (out : Output) (entry : string * JSMap.t Z) : Output :=
  let letter := entry.1 in
  let answerCounts := entry.2 in
  let cleanLetter := sanitize_all letter in
  let chunkKey := of_nat length +:+ "_" +:+ cleanLetter in
  let chunk := make_chunk byAnswer answerCounts in
  let fileName := "chunk_" +:+ chunkKey +:+ ".json" in
  let lengthChunks :=
    default [] (JSObject.get (chunkManifest out) (of_nat length)) in
  {| files := files out ++ [(fileName, chunk)];
     chunkManifest :=
       JSObject_set (chunkManifest out) (of_nat length)
         (JSObject_set lengthChunks cleanLetter fileName);
     written := written out + 1 |}.

(** The body of the outer loop. *)
Definition write_length (byAnswer : JSMap.t (list string)) (out : Output)
    (entry : nat * JSMap.t (JSMap.t Z)) : Output :=
  let length := entry.1 in
  let lengthMap := entry.2 in
  let out1 :=
    {| files := files out;
       chunkManifest := JSObject_set (chunkManifest out) (of_nat length) [];
       written := written out |} in
  fold_left (write_chunk byAnswer length) lengthMap out1.

(** The index read from the TSV: the header line is skipped. *)
Definition read_index (tsvData : string) : Index :=
  fold_left process_line (drop 1 (split LF tsvData)) empty_index.

Definition write_index (ix : Index) : Output :=
  fold_left (write_length (cluesByAnswer ix)) (answersByLengthAndLetter ix)
            empty_output.

(** The script: the shard files written and the manifest. *)
Definition build (tsvData buildTime : string)
  : list (string * Chunk) * ChunkManifest :=
  let ix := read_index tsvData in
  let out := write_index ix in
  (files out,
   {| totalEntries := entries ix; chunkCount := written out;
      buildTime := buildTime; chunks := chunkManifest out |}).

End Build.

(** ** The store after a deployment

    [scripts/upload-chunks.js] puts every file of the build under
    [chunked-indexes/]: a file written twice holds its last content. The
    clock, the random source and the completion order of a deployed
    world are those of the world [w0]. *)
Definition uploaded (files : list (string * Chunk)) (key : string)
  : R2Response Chunk :=
  match last (filter (λ fc, chunk_key fc.1 = key) files) with
  | Some fc => R2Body fc.2
  | None => R2Missing
  end.

Definition deployed (tsvData buildTime : string) (w0 : World) : World :=
  {| r2_manifest := R2Body (Build.build tsvData buildTime).2;
     r2_chunk := uploaded (Build.build tsvData buildTime).1;
     Date_now := Date_now w0;
     Math_random := Math_random w0;
     Math_random_unit := Math_random_unit w0;
     settle_order := settle_order w0 |}.

(** The lines of the TSV that the script takes: the upper-case answer
    and the clue of each. *)
Definition accepted_line (raw : string) : option (string * string) :=
  match split Build.TAB (trim raw) with
  | answer :: clue :: _ =>
      if truthy answer && truthy clue
         && (String.length (toUpperCase answer) <=? 20)
      then Some (toUpperCase answer, clue)
      else None
  | _ => None
  end.

Definition tsv_entries (tsvData : string) : list (string * string) :=
  omap accepted_line (drop 1 (split Build.LF tsvData)).

(** The name of the shard file of a length and a bucket. *)
Definition shard_file (length : nat) (bucket : string) : string :=
  "chunk_" +:+ (of_nat length +:+ "_" +:+ bucket) +:+ ".json".

(** The object that the second loop builds for a length, and the shard
    files that it writes, in the order of the writes. *)
Definition length_object (n : nat) (lengthMap : JSMap.t (JSMap.t Z))
  : JSObject.t string :=
  fold_left (λ o e, JSObject_set o (sanitize_all e.1)
                      (shard_file n (sanitize_all e.1)))
            lengthMap [].

Definition shard_files (ix : Build.Index) : list (string * Chunk) :=
  Build.answersByLengthAndLetter ix ≫= λ e,
    (λ e', (shard_file e.1 (sanitize_all e'.1),
            Build.make_chunk (Build.cluesByAnswer ix) e'.2)) <$> e.2.

(** The count that the index holds for an answer. *)
Definition count_lookup (ix : Build.Index) (answer : string) : option Z :=
  lengthMap ← NumMap.get (Build.answersByLengthAndLetter ix) (String.length answer);
  letterMap ← JSMap.get lengthMap (String.substring 0 1 answer);
  JSMap.get letterMap answer.

(** The number of accepted lines with an answer, and their clues. *)
Definition occurrences (answer : string) (es : list (string * string)) : Z :=
  Z.of_nat (length (filter (λ e, e.1 = answer) es)).

Definition clues_of (answer : string) (es : list (string * string)) : list string :=
  snd <$> filter (λ e, e.1 = answer) es.

(** The index after the accepted lines [es]: the counter, the clues kept
    (the first ten of an answer), the counts, and the keys of the three
    levels of Maps. *)
Definition index_of (es : list (string * string)) (ix : Build.Index) : Prop :=
  Build.entries ix = Z.of_nat (length es) ∧
  (∀ A, JSMap.get (Build.cluesByAnswer ix) A =
        if decide (A ∈ es.*1) then Some (take 10 (clues_of A es)) else None) ∧
  (∀ A, count_lookup ix A =
        if decide (A ∈ es.*1) then Some (occurrences A es) else None) ∧
  NoDup (Build.answersByLengthAndLetter ix).*1 ∧
  (∀ n lengthMap, (n, lengthMap) ∈ Build.answersByLengthAndLetter ix →
     NoDup (JSMap.keys lengthMap) ∧
     ∀ l letterMap, (l, letterMap) ∈ lengthMap →
       String.length l = 1 ∧ NoDup (JSMap.keys letterMap) ∧
       ∀ A c, (A, c) ∈ letterMap →
         String.length A = n ∧ String.substring 0 1 A = l).

(** A small TSV. *)
Definition tsv_row (answer clue : string) : string :=
  answer +:+ String Build.TAB clue.

Definition demo_tsv : string :=
  String.concat (String Build.LF "")
    [tsv_row "answer" "clue";
     tsv_row "apple" "A fruit";
     tsv_row "Apple" "Mac maker" +:+ String "013" "";
     tsv_row "angle" "Corner";
     tsv_row "  cable" (tsv_row "Wire" "extra");
     "no clue here";
     "";
     tsv_row "it's" "Contraction";
     tsv_row "-ish" "Suffix";
     tsv_row "supercalifragilisticexpialidocious" "Long word"].

(** The shard of the five-letter answers in A of the small TSV. *)
Definition demo_shard : Chunk :=
  {| answers := [{| answer := "APPLE"; count := 2 |};
                 {| answer := "ANGLE"; count := 1 |}];
     clues := <["ANGLE" := ["Corner"]]>
                (<["APPLE" := ["A fruit"; "Mac maker"]]> ∅) |}.

(** * Properties *)

(** ** The matcher *)

Section Matcher.

Import RegExp.

Lemma parse_upper c r :
  is_upper c = true → parse (String c r) = cons (Lit c) <$> parse r.
Proof.
  intros Hc.
  destruct c as [[] [] [] [] [] [] [] []];
    vm_compute in Hc; try discriminate Hc; reflexivity.
Qed.

Lemma parse_class r :
  parse ("[A-Z]" +:+ r) = cons (Range "A" "Z") <$> parse r.
Proof. reflexivity. Qed.

Lemma pattern_char_cases c :
  pattern_char c = true → c = "?"%char ∨ (is_upper c = true ∧ Ascii.eqb c "?" = false).
Proof.
  unfold pattern_char. intros H.
  destruct (Ascii.eqb c "?") eqn:E.
  - left. by apply Ascii.eqb_eq.
  - right. by rewrite orb_false_r in H.
Qed.

Lemma parse_pattern p tail :
  normalized_pattern p = true →
  parse (replace_wildcards p +:+ tail) = (pattern_atoms p ++.) <$> parse tail.
Proof.
  induction p as [|c r IH]; intros Hp.
  - change (replace_wildcards "" +:+ tail) with tail. by destruct (parse tail).
  - simpl in Hp. apply andb_prop in Hp as [Hc Hr].
    destruct (pattern_char_cases c Hc) as [->|[Hup Hq]].
    + change (replace_wildcards (String "?" r)) with ("[A-Z]" +:+ replace_wildcards r).
      change (("[A-Z]" +:+ replace_wildcards r) +:+ tail)
        with ("[A-Z]" +:+ (replace_wildcards r +:+ tail)).
      rewrite parse_class, IH by done. by destruct (parse tail).
    + simpl. rewrite Hq.
      change (String c (replace_wildcards r) +:+ tail)
        with (String c (replace_wildcards r +:+ tail)).
      rewrite parse_upper, IH by done.
      unfold pattern_atoms; simpl. unfold pattern_atom at 2. rewrite Hq.
      by destruct (parse tail).
Qed.

Lemma compile_matcher_normalized p :
  normalized_pattern p = true →
  compile_matcher p = Some (AssertStart :: pattern_atoms p ++ [AssertEnd]).
Proof.
  intros Hp. unfold compile_matcher, RegExp_new, matcher_source.
  change ("^" +:+ replace_wildcards p +:+ "$")
    with (String "^" (replace_wildcards p +:+ "$")).
  change (parse (String "^" (replace_wildcards p +:+ "$")))
    with (cons AssertStart <$> parse (replace_wildcards p +:+ "$")).
  by rewrite parse_pattern.
Qed.

Lemma full_match_empty a : full_match "" a ↔ a = "".
Proof.
  unfold full_match. split.
  - intros [Hlen _]. by destruct a.
  - intros ->. split; [done|]. intros i. unfold position_ok. by destruct i.
Qed.

Lemma full_match_cons c r a :
  full_match (String c r) a ↔
  ∃ d a', a = String d a' ∧
          (if Ascii.eqb c "?" then is_upper d = true else d = c) ∧
          full_match r a'.
Proof.
  unfold full_match. split.
  - intros [Hlen Hpos]. destruct a as [|d a']; [done|].
    exists d, a'. split; [done|]. split; [|split].
    + specialize (Hpos 0). unfold position_ok in Hpos. simpl in Hpos.
      destruct (Ascii.eqb c "?").
      * destruct Hpos as (d' & [= <-] & Hup). done.
      * by injection Hpos.
    + simpl in Hlen. lia.
    + intros i. specialize (Hpos (S i)). done.
  - intros (d & a' & -> & Hc & Hlen & Hpos). split; [simpl; lia|].
    intros [|i]; [|apply (Hpos i)].
    unfold position_ok. simpl. destruct (Ascii.eqb c "?"); [eauto|by subst].
Qed.

Lemma match_here_pattern p bos a :
  match_here (pattern_atoms p ++ [AssertEnd]) bos a = true ↔ full_match p a.
Proof.
  revert bos a. induction p as [|c r IH]; intros bos a.
  - rewrite full_match_empty. by destruct a.
  - rewrite full_match_cons.
    change (pattern_atoms (String c r)) with (pattern_atom c :: pattern_atoms r).
    unfold pattern_atom. simpl.
    destruct (Ascii.eqb c "?") eqn:Hq; destruct a as [|d a']; simpl.
    + split; [done|]. by intros (? & ? & ? & _).
    + rewrite andb_true_iff, IH. split.
      * intros [Hd Hm]. by exists d, a'.
      * intros (d' & a'' & [= <- <-] & Hd & Hm). done.
    + split; [done|]. by intros (? & ? & ? & _).
    + rewrite andb_true_iff, IH, Ascii.eqb_eq. split.
      * intros [-> Hm]. by exists d, a'.
      * intros (d' & a'' & [= <- <-] & Hd & Hm). done.
Qed.

Lemma search_anchored_later r s : search (AssertStart :: r) false s = false.
Proof. induction s as [|c s IH]; simpl; [done|]. exact IH. Qed.

Lemma test_anchored r s : test (AssertStart :: r) s = match_here r true s.
Proof.
  unfold test. destruct s as [|c s]; simpl.
  - by rewrite orb_false_r.
  - by rewrite search_anchored_later, orb_false_r.
Qed.

End Matcher.

(** C1. For a normalized pattern the matcher compiles, and it accepts
    exactly the answers of the pattern's length that agree with every
    literal position and have an upper-case letter at every wildcard
    position: an answer of another length, or one that only contains a
    match, is rejected. *)
Theorem matcher_accepts_exactly_full_matches (p : string) :
  normalized_pattern p = true →
  ∃ regex, compile_matcher p = Some regex ∧
           ∀ a, RegExp.test regex a = true ↔ full_match p a.
Proof.
  intros Hp. eexists. split; [by apply compile_matcher_normalized|].
  intros a. by rewrite test_anchored, match_here_pattern.
Qed.

Lemma matcher_accepts_exactly_full_matches_witness :
  ∃ regex, compile_matcher "A?PLE" = Some regex ∧
           ∀ a, RegExp.test regex a = true ↔ full_match "A?PLE" a.
Proof. apply (matcher_accepts_exactly_full_matches "A?PLE"). reflexivity. Defined.


(** ** Shard selection *)

Section Objects.

Context {V : Type}.
Implicit Types (obj : JSObject.t V) (k : string) (v : V).

Lemma JSObject_get_key obj k v :
  JSObject.get obj k = Some v → k ∈ JSObject.keys obj.
Proof.
  induction obj as [|[k' v'] r IH]; simpl; [done|].
  case_decide as Hk; [intros _; subst; left|].
  intros H. right. by apply IH.
Qed.

Lemma JSObject_get_elem obj k v :
  JSObject.get obj k = Some v → (k, v) ∈ obj.
Proof.
  induction obj as [|[k' v'] r IH]; simpl; [done|].
  case_decide as Hk; [intros [= ->]; subst; left|].
  intros H. right. by apply IH.
Qed.

Lemma JSObject_values_get obj v :
  NoDup (JSObject.keys obj) →
  v ∈ JSObject.values obj ↔ ∃ k, JSObject.get obj k = Some v.
Proof.
  induction obj as [|[k' v'] r IH]; simpl.
  - intros _. split; [by intros ?%elem_of_nil|by intros [? ?]].
  - intros [Hfresh Hr]%NoDup_cons. rewrite elem_of_cons, (IH Hr). split.
    + intros [->|[k Hk]].
      * exists k'. by rewrite decide_True.
      * exists k. rewrite decide_False; [done|].
        intros ->. by apply Hfresh, JSObject_get_key with v.
    + intros [k Hk]. case_decide; [left; congruence|right; eauto].
Qed.

End Objects.

(** C2. With a manifest loaded, a non-empty pattern selects: for a literal
    first character, the one shard file registered under the pattern's
    length and the sanitized character, or nothing when none is
    registered; for the wildcard, the files of all the buckets registered
    under the pattern's length; nothing when the manifest has no entry for
    the length. The selection never throws and changes nothing. *)
Theorem getRelevantChunks_candidates (st : Loader) (m : ChunkManifest)
    (p : string) (c : ascii) :
  manifest st = Some m →
  buckets_unique m → shard_names_nonempty m →
  at_index p 0 = Some c →
  ∃ files,
    getRelevantChunks p st = (Returns files, st) ∧
    let len := String.length p in
    let bucket := String (sanitize c) EmptyString in
    (c ≠ "?"%char → ∀ file, registered m len bucket file → files = [file]) ∧
    (c ≠ "?"%char → (∀ file, ¬ registered m len bucket file) → files = []) ∧
    (c = "?"%char → ∀ lc, JSObject.get (chunks m) (of_nat len) = Some lc →
                         files = JSObject.values lc) ∧
    (c = "?"%char → ∀ file, file ∈ files ↔ ∃ b, registered m len b file) ∧
    (JSObject.get (chunks m) (of_nat len) = None → files = []).
Proof.
  intros Hm Huniq Hnames Hc.
  unfold getRelevantChunks, bind, this. rewrite Hm, Hc.
  destruct (JSObject.get (chunks m) (of_nat (String.length p))) as [lc|] eqn:Hlc.
  - assert (NoDup (JSObject.keys lc) ∧ Forall (λ bf, truthy bf.2 = true) lc)
      as [Hlc_uniq Hlc_names].
    { apply JSObject_get_elem in Hlc.
      unfold buckets_unique, shard_names_nonempty in *.
      rewrite Forall_forall in Huniq, Hnames.
      split; [apply (Huniq _ Hlc)|apply (Hnames _ Hlc)]. }
    destruct (Ascii.eqb c "?") eqn:Hq; simpl.
    + apply Ascii.eqb_eq in Hq as ->.
      eexists. split; [reflexivity|]. simpl.
      split; [done|]. split; [done|]. split; [by intros _ ? [= <-]|].
      split; [|done]. intros _ file.
      rewrite JSObject_values_get by done. unfold registered.
      split; [intros [b Hb]; eauto|].
      intros (b & lc' & Hlc' & Hb). exists b. congruence.
    + apply Ascii.eqb_neq in Hq.
      destruct (JSObject.get lc (String (sanitize c) "")) as [file|] eqn:Hfile.
      * assert (truthy file = true) as ->.
        { apply JSObject_get_elem in Hfile. rewrite Forall_forall in Hlc_names.
          apply (Hlc_names _ Hfile). }
        eexists. split; [reflexivity|]. simpl.
        split. { intros _ file' (lc' & Hlc' & Hf'). congruence. }
        split. { intros _ Hnone. destruct (Hnone file). by exists lc. }
        done.
      * eexists. split; [reflexivity|]. simpl.
        split. { intros _ file' (lc' & Hlc' & Hf'). congruence. }
        done.
  - destruct (Ascii.eqb c "?") eqn:Hq; simpl.
    + eexists. split; [reflexivity|]. simpl.
      apply Ascii.eqb_eq in Hq as ->.
      split; [done|]. split; [done|]. split; [by intros _ ? [=]|].
      split; [|done]. intros _ file. split; [by intros ?%elem_of_nil|].
      intros (b & lc' & Hlc' & _). congruence.
    + eexists. split; [reflexivity|]. simpl.
      split. { intros _ file' (lc' & Hlc' & _). congruence. }
      split; [done|]. apply Ascii.eqb_neq in Hq. done.
Qed.

(** ** Invariants of the loader *)

Section InvSpec.

Context (I : Loader → Prop).

Lemma inv_ret {A} (a : A) (φ : A → Prop) : φ a → inv_spec I (ret a) φ.
Proof. intros Ha st Hst. split; [done|]. by intros ? [= <-]. Qed.

Lemma inv_throw {A} (e : Exn) (φ : A → Prop) : inv_spec I (throw e) φ.
Proof. intros st Hst. split; [done|]. by intros ? [=]. Qed.

Lemma inv_bind {A B} (m : M A) (k : A → M B) (φ : A → Prop) (ψ : B → Prop) :
  inv_spec I m φ → (∀ a, φ a → inv_spec I (k a) ψ) → inv_spec I (bind m k) ψ.
Proof.
  intros Hm Hk st Hst. unfold bind.
  destruct (Hm st Hst) as [Hst' Hres].
  destruct (m st) as [[a|e] st']; simpl in *; [|split; [done|by intros ? [=]]].
  apply Hk; [by apply Hres|done].
Qed.

Lemma inv_try_catch {A} (m : M A) (h : Exn → M A) (φ : A → Prop) :
  inv_spec I m φ → (∀ e, inv_spec I (h e) φ) → inv_spec I (try_catch m h) φ.
Proof.
  intros Hm Hh st Hst. unfold try_catch.
  destruct (Hm st Hst) as [Hst' Hres].
  destruct (m st) as [[a|e] st']; simpl in *; [done|].
  by apply Hh.
Qed.

Lemma inv_this : inv_spec I this I.
Proof. intros st Hst. split; [done|]. by intros ? [= <-]. Qed.

Lemma inv_update (f : Loader → Loader) :
  (∀ st, I st → I (f st)) → inv_spec I (update f) (λ _, True).
Proof. intros Hf st Hst. split; [by apply Hf|done]. Qed.

Lemma inv_weaken {A} (m : M A) (φ ψ : A → Prop) :
  inv_spec I m φ → (∀ a, φ a → ψ a) → inv_spec I m ψ.
Proof.
  intros Hm Himp st Hst. destruct (Hm st Hst) as [? Hres].
  split; [done|]. intros a Ha. by apply Himp, Hres.
Qed.

End InvSpec.

Section MapLemmas.

Context {V : Type}.
Implicit Types (m : JSMap.t V) (k : string) (v : V).

Lemma JSMap_keys_set m k v :
  JSMap.keys (JSMap.set m k v) =
  if decide (k ∈ JSMap.keys m) then JSMap.keys m else JSMap.keys m ++ [k].
Proof.
  unfold JSMap.keys.
  induction m as [|[k' v'] r IH]; csimpl; [done|].
  destruct (decide (k' = k)) as [->|Hk']; csimpl.
  - rewrite decide_True; [done|left].
  - rewrite IH.
    destruct (decide (k ∈ fst <$> r)) as [Hin|Hnin].
    + rewrite decide_True; [done|by right].
    + rewrite decide_False; [done|].
      intros [->|?]%elem_of_cons; done.
Qed.

Lemma JSMap_get_None m k : JSMap.get m k = None ↔ k ∉ JSMap.keys m.
Proof.
  induction m as [|[k' v'] r IH]; simpl.
  - split; [intros _ ?%elem_of_nil; done|done].
  - case_decide as Hk'.
    + subst. split; [done|]. intros []. left.
    + rewrite IH. unfold JSMap.keys. simpl. rewrite not_elem_of_cons.
      split; [by intros ?; split|by intros [_ ?]].
Qed.

Lemma JSMap_size_set m k v :
  JSMap.size (JSMap.set m k v) =
  if decide (k ∈ JSMap.keys m) then JSMap.size m else S (JSMap.size m).
Proof.
  unfold JSMap.size.
  rewrite <-(length_fmap fst (JSMap.set m k v)), <-(length_fmap fst m).
  fold (JSMap.keys (JSMap.set m k v)). fold (JSMap.keys m).
  rewrite JSMap_keys_set. case_decide; [done|].
  rewrite length_app. simpl. lia.
Qed.

Lemma JSMap_keys_delete_sub m k : JSMap.keys (JSMap.delete m k) ⊆ JSMap.keys m.
Proof.
  induction m as [|[k' v'] r IH]; simpl; [done|].
  case_decide; simpl.
  - intros x Hx. by right.
  - intros x [->|Hx]%elem_of_cons; [left|right; by apply IH].
Qed.

Lemma JSMap_size_delete m k : JSMap.size (JSMap.delete m k) ≤ JSMap.size m.
Proof.
  unfold JSMap.size. induction m as [|[k' v'] r IH]; simpl; [done|].
  case_decide; simpl; lia.
Qed.

Lemma JSMap_delete_first k v m : JSMap.delete ((k, v) :: m) k = m.
Proof. simpl. by rewrite decide_True. Qed.

(** With non-empty keys the eviction removes exactly the first entry. *)
Lemma JSMap_delete_oldest_truthy m :
  truthy_keys m → JSMap.delete_oldest m = drop 1 m.
Proof.
  destruct m as [|[k v] r]; [done|].
  intros Hk. apply Forall_cons in Hk as [Hk _]. simpl in Hk.
  unfold JSMap.delete_oldest. simpl. rewrite Hk. by rewrite decide_True.
Qed.

Lemma truthy_keys_set m k v :
  truthy k = true → truthy_keys m → truthy_keys (JSMap.set m k v).
Proof.
  intros Hk Hm. unfold truthy_keys. rewrite JSMap_keys_set.
  case_decide; [done|]. apply Forall_app. split; [done|]. by apply Forall_singleton.
Qed.

Lemma truthy_keys_delete m k : truthy_keys m → truthy_keys (JSMap.delete m k).
Proof.
  unfold truthy_keys. rewrite !Forall_forall. intros Hm x Hx.
  by apply Hm, (JSMap_keys_delete_sub m k).
Qed.

Lemma truthy_keys_drop m n : truthy_keys m → truthy_keys (drop n m).
Proof.
  unfold truthy_keys, JSMap.keys. rewrite fmap_drop. apply Forall_drop.
Qed.

End MapLemmas.

Lemma loader_ok_set_chunkCache c st :
  JSMap.size c ≤ MAX_CHUNK_CACHE_SIZE → truthy_keys c →
  loader_ok st → loader_ok (set_chunkCache c st).
Proof. intros ?? ([? ?] & ? & ? & ?). by repeat split. Qed.

Lemma loader_ok_set_resultCache c st :
  JSMap.size c ≤ MAX_RESULT_CACHE_SIZE → truthy_keys c →
  loader_ok st → loader_ok (set_resultCache c st).
Proof. intros ?? ([? ?] & ? & ? & ?). by repeat split. Qed.

Lemma loader_ok_new : loader_ok new_loader.
Proof.
  repeat split; simpl; try lia; try apply Forall_nil_2. by intros ? [=].
Qed.

Lemma getCacheKey_truthy p : truthy (getCacheKey p) = true.
Proof. reflexivity. Qed.

Section MethodInvariants.

Variable w : World.
Hypothesis Hserved : served_manifest_ok w.
Hypothesis Hfair : fetches_complete w.

Lemma chunkCache_store_ok f chunk c :
  truthy f = true → truthy_keys c ∧ JSMap.size c ≤ MAX_CHUNK_CACHE_SIZE →
  truthy_keys (chunkCache_store f chunk c) ∧
  JSMap.size (chunkCache_store f chunk c) ≤ MAX_CHUNK_CACHE_SIZE.
Proof.
  intros Hf [Hc Hsize]. unfold chunkCache_store.
  pose proof (truthy_keys_set c f chunk Hf Hc) as Hc'.
  pose proof (JSMap_size_set c f chunk) as Hsize'.
  destruct (MAX_CHUNK_CACHE_SIZE <? JSMap.size (JSMap.set c f chunk)) eqn:Hfull.
  - rewrite JSMap_delete_oldest_truthy by done.
    split; [by apply truthy_keys_drop|].
    unfold JSMap.size in *. rewrite length_drop. case_decide; lia.
  - apply Nat.ltb_ge in Hfull. done.
Qed.

Lemma inv_fetch {V} (I : Loader → Prop) (response : R2Response V) msg :
  inv_spec I (fetch response msg) (λ _, True).
Proof. destruct response; simpl; try apply inv_throw. by apply inv_ret. Qed.

Lemma inv_now : inv_spec loader_ok (now w) (λ _, True).
Proof. by intros st ([? ?] & ? & ? & ?). Qed.

Lemma inv_random : inv_spec loader_ok (random w) (λ _, True).
Proof. by intros st ([? ?] & ? & ? & ?). Qed.

Lemma inv_loadManifest : inv_spec loader_ok (loadManifest w) (λ _, True).
Proof.
  unfold loadManifest. eapply inv_bind; [apply inv_this|].
  intros st Hst. destruct (manifest st); [by apply inv_ret|].
  intros st' Hst'. unfold bind, fetch.
  destruct (r2_manifest w) as [| | |m] eqn:Hm; simpl; try done.
  split; [|done]. destruct Hst' as ([? ?] & ? & ? & ?).
  repeat split; try done. intros ? [= <-]. by apply Hserved.
Qed.

Lemma inv_loadChunk f :
  truthy f = true → inv_spec loader_ok (loadChunk w f) (λ _, True).
Proof.
  intros Hf. unfold loadChunk. eapply inv_bind; [apply inv_this|].
  intros st _. destruct (JSMap.get (chunkCache st) f); [by apply inv_ret|].
  eapply inv_bind; [apply inv_fetch|]. intros chunk _.
  eapply inv_bind; [|intros; by apply inv_ret].
  apply inv_update. intros st' Hst'.
  destruct (chunkCache_store_ok f chunk (chunkCache st') Hf) as [? ?].
  { destruct Hst' as ([? ?] & ? & ? & ?). done. }
  by apply loader_ok_set_chunkCache.
Qed.

Lemma settle_all_ok files c :
  Forall (λ f, truthy f = true) files →
  truthy_keys c ∧ JSMap.size c ≤ MAX_CHUNK_CACHE_SIZE →
  truthy_keys (fold_left (settle w) files c) ∧
  JSMap.size (fold_left (settle w) files c) ≤ MAX_CHUNK_CACHE_SIZE.
Proof.
  intros Hfiles. revert c.
  induction Hfiles as [|f files Hf _ IH]; intros c Hc; simpl; [done|].
  apply IH. unfold settle.
  destruct (r2_chunk w (chunk_key f)); try done.
  by apply chunkCache_store_ok.
Qed.

Lemma inv_loadChunksParallel files :
  Forall (λ f, truthy f = true) files →
  inv_spec loader_ok (loadChunksParallel w files) (λ _, True).
Proof.
  intros Hfiles. unfold loadChunksParallel.
  eapply inv_bind; [apply inv_this|]. intros st Hst.
  eapply inv_bind; [|intros; by apply inv_ret].
  apply inv_update. intros st' Hst'.
  destruct (settle_all_ok
              (settle_order w (filter (λ f, JSMap.has (chunkCache st) f = false) files))
              (chunkCache st)) as [? ?].
  - apply Forall_forall. intros f Hf. rewrite (Hfair _) in Hf.
    apply list_elem_of_filter in Hf as [_ Hf].
    rewrite Forall_forall in Hfiles. by apply Hfiles.
  - destruct Hst as ([? ?] & ? & ? & ?). done.
  - by apply loader_ok_set_chunkCache.
Qed.

Lemma inv_getRelevantChunks p :
  inv_spec loader_ok (getRelevantChunks p) (Forall (λ f, truthy f = true)).
Proof.
  unfold getRelevantChunks. eapply inv_bind; [apply inv_this|].
  intros st Hst. destruct (manifest st) as [m|] eqn:Hm; [|by apply inv_ret].
  destruct (at_index p 0) as [c|]; [|apply inv_throw].
  destruct Hst as (_ & _ & _ & Hwf). specialize (Hwf m Hm).
  destruct (negb (Ascii.eqb c "?")).
  - destruct (JSObject.get (chunks m) _) as [lc|]; [|by apply inv_ret].
    destruct (JSObject.get lc _) as [file|]; [|by apply inv_ret].
    apply inv_ret. destruct (truthy file) eqn:Hfile; [|done].
    by apply Forall_singleton.
  - destruct (JSObject.get (chunks m) _) as [lc|] eqn:Hlc; [|by apply inv_ret].
    apply inv_ret. apply JSObject_get_elem in Hlc.
    unfold shard_names_nonempty in Hwf. rewrite Forall_forall in Hwf.
    specialize (Hwf _ Hlc). simpl in Hwf. unfold JSObject.values.
    by apply Forall_fmap.
Qed.

Lemma inv_getCachedResult p :
  inv_spec loader_ok (getCachedResult w p) (λ _, True).
Proof.
  unfold getCachedResult. eapply inv_bind; [apply inv_this|].
  intros st _. destruct (JSMap.get (resultCache st) _); [|by apply inv_ret].
  eapply inv_bind; [apply inv_now|]. intros t _.
  destruct (CACHE_TTL <? t - timestamp c)%Z; [|by apply inv_ret].
  eapply inv_bind; [|intros; by apply inv_ret].
  apply inv_update. intros st' Hst'.
  pose proof Hst' as ([? ?] & ? & ? & ?).
  apply loader_ok_set_resultCache; [|by apply truthy_keys_delete|done].
  etrans; [apply JSMap_size_delete|done].
Qed.

Lemma resultCache_store_ok (rc : JSMap.t CachedResult) key entry :
  truthy key = true →
  truthy_keys rc → JSMap.size rc ≤ MAX_RESULT_CACHE_SIZE →
  let rc' := if MAX_RESULT_CACHE_SIZE <=? JSMap.size rc
             then JSMap.delete_oldest rc else rc in
  truthy_keys (JSMap.set rc' key entry) ∧
  JSMap.size (JSMap.set rc' key entry) ≤ MAX_RESULT_CACHE_SIZE.
Proof.
  intros Hkey Hrc Hsize rc'.
  assert (truthy_keys rc' ∧ JSMap.size rc' < MAX_RESULT_CACHE_SIZE) as [? ?].
  { subst rc'. destruct (MAX_RESULT_CACHE_SIZE <=? JSMap.size rc) eqn:Hfull.
    - apply Nat.leb_le in Hfull.
      rewrite JSMap_delete_oldest_truthy by done.
      split; [by apply truthy_keys_drop|].
      unfold JSMap.size in *. rewrite length_drop.
      unfold MAX_RESULT_CACHE_SIZE in *. lia.
    - apply Nat.leb_gt in Hfull. done. }
  split; [by apply truthy_keys_set|].
  rewrite JSMap_size_set. case_decide; lia.
Qed.

Lemma inv_setCachedResult p found :
  inv_spec loader_ok (setCachedResult w p found) (λ _, True).
Proof.
  intros st ([Hcc Hrc] & Hck & Hrk & Hm). split; [|done].
  unfold setCachedResult, bind, update, now.
  destruct (resultCache_store_ok (resultCache st) (getCacheKey p)
              {| results := found; timestamp := Date_now w (clock_reads st) |}
              (getCacheKey_truthy p) Hrk Hrc) as [Hk' Hs'].
  cbv zeta in Hk', Hs'.
  destruct (MAX_RESULT_CACHE_SIZE <=? JSMap.size (resultCache st));
    by repeat split.
Qed.

Lemma inv_search_direct regex files found :
  Forall (λ f, truthy f = true) files →
  inv_spec loader_ok (search_direct w regex files found) (λ _, True).
Proof.
  intros Hfiles. revert found.
  induction Hfiles as [|f files Hf _ IH]; intros found; simpl.
  - by apply inv_ret.
  - eapply (inv_bind _ _ _ (λ _, True)); [|intros found' _; apply IH].
    apply inv_try_catch; [|intros; by apply inv_ret].
    eapply inv_bind; [by apply inv_loadChunk|]. intros; by apply inv_ret.
Qed.

Lemma inv_search analysis regex maxResults files :
  Forall (λ f, truthy f = true) files →
  inv_spec loader_ok (search w analysis regex maxResults files) (λ _, True).
Proof.
  intros Hfiles. unfold search.
  case_decide; [by apply inv_search_direct|].
  case_decide; [|by apply inv_ret].
  unfold search_parallel.
  eapply inv_bind; [by apply inv_loadChunksParallel|]. intros; by apply inv_ret.
Qed.

Lemma inv_findMatchingAnswers p maxResults :
  inv_spec loader_ok (findMatchingAnswers w p maxResults) (λ _, True).
Proof.
  unfold findMatchingAnswers.
  eapply inv_bind; [apply inv_loadManifest|]. intros _ _.
  eapply inv_bind; [apply inv_getCachedResult|]. intros [cached|] _.
  { by apply inv_ret. }
  eapply (inv_bind _ _ _ (λ _, True)).
  { destruct (compile_matcher _); [by apply inv_ret|apply inv_throw]. }
  intros regex _.
  eapply inv_bind; [apply inv_getRelevantChunks|]. intros files Hfiles.
  eapply (inv_bind _ _ _ (λ _, True)); [by apply inv_search|]. intros found _.
  eapply inv_bind; [apply inv_setCachedResult|]. intros; by apply inv_ret.
Qed.

Lemma inv_shuffle_from i l :
  inv_spec loader_ok (shuffle_from w i l) (λ _, True).
Proof.
  revert l. induction i as [|i IH]; intros l; simpl; [by apply inv_ret|].
  eapply inv_bind; [apply inv_random|]. intros; apply IH.
Qed.

Lemma inv_getClues a maxClues :
  inv_spec loader_ok (getClues w a maxClues) (λ _, True).
Proof.
  unfold getClues.
  eapply inv_bind; [apply inv_loadManifest|]. intros _ _.
  destruct (at_index _ 0); [|apply inv_throw].
  eapply inv_bind; [apply inv_this|]. intros st _.
  destruct (_ ≫= _) as [file|]; [|by apply inv_ret].
  destruct (truthy file) eqn:Hfile; simpl; [|by apply inv_ret].
  apply inv_try_catch; [|intros; by apply inv_ret].
  eapply inv_bind; [by apply inv_loadChunk|]. intros chunk _.
  eapply inv_bind; [apply inv_shuffle_from|]. intros; by apply inv_ret.
Qed.

Lemma loader_ok_run_call st c : loader_ok st → loader_ok (run_call w st c).
Proof.
  intros Hst. destruct c; simpl.
  - by apply inv_findMatchingAnswers.
  - by apply inv_getClues.
Qed.

Lemma loader_ok_run_calls calls st :
  loader_ok st → loader_ok (run_calls w calls st).
Proof.
  unfold run_calls. revert st.
  induction calls as [|c calls IH]; intros st Hst; simpl; [done|].
  by apply IH, loader_ok_run_call.
Qed.

End MethodInvariants.

(** ** What the methods compute *)

Lemma bind_returns {A B} (m : M A) (k : A → M B) st a st' :
  m st = (Returns a, st') → bind m k st = k a st'.
Proof. unfold bind. by intros ->. Qed.

Lemma bind_throws {A B} (m : M A) (k : A → M B) st e st' :
  m st = (Throws e, st') → bind m k st = (Throws e, st').
Proof. unfold bind. by intros ->. Qed.

Lemma set_chunkCache_id st : set_chunkCache (chunkCache st) st = st.
Proof. by destruct st. Qed.

Lemma set_chunkCache_twice c c' st :
  set_chunkCache c' (set_chunkCache c st) = set_chunkCache c' st.
Proof. done. Qed.

Lemma set_manifest_id st m : manifest st = Some m → set_manifest m st = st.
Proof. destruct st. simpl. by intros ->. Qed.

Lemma scan_answers_filter regex chunk_answers found :
  scan_answers regex chunk_answers found =
  found ++ filter (λ a, RegExp.test regex (answer a) = true) chunk_answers.
Proof.
  unfold scan_answers. revert found.
  induction chunk_answers as [|a rest IH]; intros found; simpl.
  - by rewrite app_nil_r.
  - rewrite IH, filter_cons. destruct (RegExp.test regex (answer a)) eqn:Ha.
    + rewrite decide_True by done. by rewrite <-app_assoc.
    + rewrite decide_False by done. done.
Qed.

Section Runs.

Variable w : World.

Lemma loadManifest_available st m :
  manifest_available w st m →
  loadManifest w st = (Returns (), set_manifest m st).
Proof.
  unfold loadManifest, bind, this.
  intros [Hm|[Hm Hw]]; rewrite Hm.
  - by rewrite set_manifest_id.
  - by rewrite Hw.
Qed.

Lemma loadManifest_unavailable st :
  manifest_unavailable w st → ∃ e, loadManifest w st = (Throws e, st).
Proof.
  unfold loadManifest, bind, this. intros [Hm Hw]. rewrite Hm.
  destruct (r2_manifest w) as [| | |m] eqn:Hr; simpl; eauto.
  by destruct (Hw m).
Qed.

Lemma loadChunk_run f st :
  loadChunk w f st =
  match JSMap.get (chunkCache st) f with
  | Some chunk => (Returns chunk, st)
  | None =>
      match r2_chunk w (chunk_key f) with
      | R2Body chunk =>
          (Returns chunk,
           set_chunkCache (chunkCache_store f chunk (chunkCache st)) st)
      | R2Missing =>
          (Throws (Error ("Chunk " +:+ f +:+ " not found in R2 bucket")), st)
      | R2Failure => (Throws StorageError, st)
      | R2Malformed => (Throws SyntaxError, st)
      end
  end.
Proof.
  unfold loadChunk, bind, this.
  destruct (JSMap.get (chunkCache st) f); [done|].
  by destruct (r2_chunk w (chunk_key f)).
Qed.

Lemma loadChunksParallel_run files st :
  loadChunksParallel w files st =
  (Returns (omap (fulfilled w (chunkCache st)) files),
   set_chunkCache
     (fold_left (settle w)
        (settle_order w (filter (λ f, JSMap.has (chunkCache st) f = false) files))
        (chunkCache st)) st).
Proof. done. Qed.

(** The direct strategy keeps every match of every chunk it loads, and
    touches nothing but the chunk cache. *)
Lemma search_direct_run regex files found st :
  ∃ c', search_direct w regex files found st =
        (Returns (found ++ all_matches regex (load_in_turn w (chunkCache st) files)),
         set_chunkCache c' st).
Proof.
  revert found st. induction files as [|f files IH]; intros found st.
  - exists (chunkCache st). simpl. unfold ret, all_matches. simpl.
    by rewrite app_nil_r, set_chunkCache_id.
  - simpl. unfold bind at 1. unfold try_catch, bind at 1.
    rewrite loadChunk_run.
    destruct (JSMap.get (chunkCache st) f) as [chunk|] eqn:Hget.
    + unfold ret at 1. destruct (IH (scan_answers regex (answers chunk) found) st)
        as [c' ->]. exists c'. f_equal. f_equal.
      rewrite scan_answers_filter. unfold all_matches. simpl.
      by rewrite <-app_assoc.
    + destruct (r2_chunk w (chunk_key f)) as [| | |chunk] eqn:Hr;
        unfold ret at 1.
      1-3: destruct (IH found st) as [c' ->]; by exists c'.
      destruct (IH (scan_answers regex (answers chunk) found)
                  (set_chunkCache (chunkCache_store f chunk (chunkCache st)) st))
        as [c' ->].
      exists c'. rewrite set_chunkCache_twice. f_equal. f_equal.
      rewrite scan_answers_filter. unfold all_matches. simpl.
      by rewrite <-app_assoc.
Qed.

Lemma search_parallel_run regex maxResults files st :
  ∃ c', search_parallel w regex maxResults files st =
        (Returns (scan_chunks_capped regex (maxResults * 2)
                    (omap (fulfilled w (chunkCache st)) files) []),
         set_chunkCache c' st).
Proof. eexists. reflexivity. Qed.

Lemma getCachedResult_run p st :
  getCachedResult w p st =
  match JSMap.get (resultCache st) (getCacheKey p) with
  | None => (Returns None, st)
  | Some cached =>
      if (CACHE_TTL <? Date_now w (clock_reads st) - timestamp cached)%Z
      then (Returns None,
            set_resultCache (JSMap.delete (resultCache st) (getCacheKey p))
              (set_clock_reads (S (clock_reads st)) st))
      else (Returns (Some (results cached)),
            set_clock_reads (S (clock_reads st)) st)
  end.
Proof.
  unfold getCachedResult, bind, this, now.
  destruct (JSMap.get (resultCache st) (getCacheKey p)) as [cached|]; [|done].
  by destruct (CACHE_TTL <? _)%Z.
Qed.

Lemma setCachedResult_run p found st :
  setCachedResult w p found st =
  (Returns (),
   set_resultCache
     (resultCache_store (getCacheKey p)
        {| results := found; timestamp := Date_now w (clock_reads st) |}
        (resultCache st))
     (set_clock_reads (S (clock_reads st)) st)).
Proof.
  unfold setCachedResult, resultCache_store, bind, update, now.
  by destruct (MAX_RESULT_CACHE_SIZE <=? JSMap.size (resultCache st)).
Qed.

End Runs.

(** ** Patterns, scans and the ranking *)

Lemma upper_char_query c : query_char c = true → pattern_char (upper_char c) = true.
Proof.
  intros Hc. destruct c as [[] [] [] [] [] [] [] []];
    vm_compute in Hc; try discriminate Hc; reflexivity.
Qed.

Lemma upper_char_idem c : upper_char (upper_char c) = upper_char c.
Proof. by destruct c as [[] [] [] [] [] [] [] []]. Qed.

Lemma upper_char_wildcard c : upper_char c = "?"%char ↔ c = "?"%char.
Proof.
  split; [|by intros ->].
  destruct c as [[] [] [] [] [] [] [] []]; vm_compute; by intros [=].
Qed.

Lemma toUpperCase_idem p : toUpperCase (toUpperCase p) = toUpperCase p.
Proof. induction p as [|c r IH]; simpl; [done|]. by rewrite upper_char_idem, IH. Qed.

Lemma toUpperCase_normalized p :
  query_pattern p = true → normalized_pattern (toUpperCase p) = true.
Proof.
  induction p as [|c r IH]; simpl; [done|].
  intros [Hc Hr]%andb_prop. by rewrite upper_char_query, IH.
Qed.

Lemma toUpperCase_first p :
  at_index (toUpperCase p) 0 = upper_char <$> at_index p 0.
Proof. by destruct p. Qed.

Lemma toUpperCase_length p : String.length (toUpperCase p) = String.length p.
Proof. induction p as [|c r IH]; simpl; [done|]. by rewrite IH. Qed.

Lemma nonempty_first p : p ≠ "" → ∃ c, at_index p 0 = Some c.
Proof. destruct p as [|c r]; [done|]. intros _. by exists c. Qed.

Lemma getCacheKey_inj p q : getCacheKey p = getCacheKey q → toUpperCase p = toUpperCase q.
Proof. unfold getCacheKey. by intros ?%(inj (String.app "pattern:")). Qed.

Lemma analyzePattern_strategy p :
  searchStrategy (analyzePattern p) =
  if bool_decide (at_index p 0 = Some "?"%char) then "parallel-optimized" else "direct".
Proof. done. Qed.

Section Scans.

Variable regex : RegExp.t.

Local Abbreviation matching := (filter (λ a, RegExp.test regex (answer a) = true)).

Lemma scan_answers_capped_take (limit : Z) chunk_answers found :
  (Z.of_nat (length found) < limit)%Z →
  scan_answers_capped regex limit chunk_answers found =
  take (Z.to_nat limit) (found ++ matching chunk_answers).
Proof.
  revert found. induction chunk_answers as [|a rest IH]; intros found Hlen; simpl.
  - rewrite app_nil_r, take_ge; [done|lia].
  - rewrite filter_cons. destruct (RegExp.test regex (answer a)) eqn:Ha.
    + rewrite decide_True by done.
      destruct (limit <=? Z.of_nat (length (found ++ [a])))%Z eqn:Hfull.
      * apply Z.leb_le in Hfull. rewrite length_app in Hfull. simpl in Hfull.
        rewrite (cons_middle a found (matching rest)).
        rewrite (assoc_L (++) found [a] (matching rest)).
        rewrite take_app_le by (rewrite length_app; simpl; lia).
        rewrite take_ge by (rewrite length_app; simpl; lia). done.
      * apply Z.leb_gt in Hfull. rewrite IH by done. by rewrite <-app_assoc.
    + rewrite decide_False by done. by apply IH.
Qed.

Lemma scan_chunks_capped_take (limit : Z) loaded found :
  (Z.of_nat (length found) < limit)%Z →
  scan_chunks_capped regex limit loaded found =
  take (Z.to_nat limit) (found ++ all_matches regex loaded).
Proof.
  revert found. induction loaded as [|chunk rest IH]; intros found Hlen; simpl.
  - rewrite app_nil_r, take_ge; [done|lia].
  - rewrite scan_answers_capped_take by done.
    unfold all_matches. simpl. fold (all_matches regex rest).
    set (here := matching (answers chunk)).
    rewrite (assoc_L (++) found here (all_matches regex rest)).
    destruct (limit <=? _)%Z eqn:Hfull.
    + apply Z.leb_le in Hfull. rewrite length_take in Hfull.
      rewrite (take_app_le (found ++ here)) by lia. done.
    + apply Z.leb_gt in Hfull. rewrite length_take in Hfull.
      rewrite (take_ge (found ++ here)) by lia. rewrite IH by lia. done.
Qed.

(** Once the cap is reached, what follows is not looked at. *)
Lemma scan_chunks_capped_stops (limit : Z) loaded more :
  (0 < limit)%Z →
  (limit <= Z.of_nat (length (scan_chunks_capped regex limit loaded [])))%Z →
  scan_chunks_capped regex limit (loaded ++ more) [] =
  scan_chunks_capped regex limit loaded [].
Proof.
  intros Hpos. rewrite !scan_chunks_capped_take by (simpl; lia).
  rewrite !app_nil_l, length_take. intros Hfull.
  unfold all_matches in *. rewrite flat_map_app.
  rewrite take_app_le by lia. done.
Qed.

Lemma scan_answers_capped_stops (limit : Z) chunk_answers more :
  (0 < limit)%Z →
  (limit <= Z.of_nat (length (scan_answers_capped regex limit chunk_answers [])))%Z →
  scan_answers_capped regex limit (chunk_answers ++ more) [] =
  scan_answers_capped regex limit chunk_answers [].
Proof.
  intros Hpos. rewrite !scan_answers_capped_take by (simpl; lia).
  rewrite !app_nil_l, length_take. intros Hfull.
  rewrite filter_app. rewrite take_app_le by lia. done.
Qed.

End Scans.

Lemma load_in_turn_short w cache files :
  length files ≤ 1 → load_in_turn w cache files = omap (fulfilled w cache) files.
Proof.
  destruct files as [|f [|f' files]]; simpl; [done| |lia]. intros _.
  unfold fulfilled. destruct (JSMap.get cache f); [done|].
  by destruct (r2_chunk w (chunk_key f)).
Qed.

(** The ranking. *)

Lemma sort_insert_perm {A} (cmp : A → A → Z) x l : sort_insert cmp x l ≡ₚ x :: l.
Proof.
  induction l as [|y r IH]; simpl; [done|].
  destruct (cmp x y <=? 0)%Z; [done|]. rewrite IH. apply Permutation_swap.
Qed.

Lemma Array_sort_perm {A} (cmp : A → A → Z) l : Array_sort cmp l ≡ₚ l.
Proof.
  induction l as [|x r IH]; simpl; [done|]. by rewrite sort_insert_perm, IH.
Qed.

Lemma sort_insert_ranked x l :
  Sorted ranked l → Sorted ranked (sort_insert by_count_desc x l).
Proof.
  induction l as [|y r IH]; simpl; intros Hl.
  - by repeat constructor.
  - destruct (by_count_desc x y <=? 0)%Z eqn:Hxy.
    + apply Z.leb_le in Hxy. constructor; [done|].
      constructor. unfold ranked, by_count_desc in *. lia.
    + apply Z.leb_gt in Hxy. apply Sorted_inv in Hl as [Hr Hy].
      constructor; [by apply IH|].
      destruct r as [|z r]; simpl.
      * constructor. unfold ranked, by_count_desc in *. lia.
      * destruct (by_count_desc x z <=? 0)%Z.
        -- constructor. unfold ranked, by_count_desc in *. lia.
        -- apply HdRel_inv in Hy. by constructor.
  Qed.

Lemma Array_sort_ranked l : Sorted ranked (Array_sort by_count_desc l).
Proof.
  induction l as [|x r IH]; simpl; [constructor|]. by apply sort_insert_ranked.
Qed.

Lemma slice0_nonneg {A} (e : Z) (l : list A) :
  (0 <= e)%Z → slice0 e l = take (Z.to_nat e) l.
Proof. intros He. unfold slice0. destruct (e <? 0)%Z eqn:H; [lia|done]. Qed.

Lemma slice0_length {A} (e : Z) (l : list A) :
  (0 <= e)%Z → (Z.of_nat (length (slice0 e l)) <= e)%Z.
Proof. intros He. rewrite slice0_nonneg, length_take by done. lia. Qed.

Lemma slice0_prefix {A} (e : Z) (l : list A) : slice0 e l `prefix_of` l.
Proof. unfold slice0. destruct (e <? 0)%Z; apply prefix_take. Qed.

(** ** Running a query *)

Lemma getRelevantChunks_state p st : (getRelevantChunks p st).2 = st.
Proof.
  unfold getRelevantChunks, bind, this.
  destruct (manifest st) as [m|]; [|done].
  destruct (at_index p 0) as [c|]; [|done].
  destruct (negb (Ascii.eqb c "?")).
  - destruct (JSObject.get (chunks m) _) as [lc|]; [|done].
    by destruct (JSObject.get lc _).
  - by destruct (JSObject.get (chunks m) _).
Qed.

Lemma getRelevantChunks_frame p st st' :
  manifest st = manifest st' →
  (getRelevantChunks p st).1 = (getRelevantChunks p st').1.
Proof.
  unfold getRelevantChunks, bind, this. intros <-.
  destruct (manifest st) as [m|]; [|done].
  destruct (at_index p 0) as [c|]; [|done].
  destruct (negb (Ascii.eqb c "?")).
  - destruct (JSObject.get (chunks m) _) as [lc|]; [|done].
    by destruct (JSObject.get lc _).
  - by destruct (JSObject.get (chunks m) _).
Qed.

Lemma getRelevantChunks_returns p st m c :
  manifest st = Some m → at_index p 0 = Some c →
  ∃ files, getRelevantChunks p st = (Returns files, st) ∧
           (c ≠ "?"%char → length files ≤ 1).
Proof.
  intros Hm Hc. unfold getRelevantChunks, bind, this. rewrite Hm, Hc.
  destruct (Ascii.eqb c "?") eqn:Hq; simpl.
  - apply Ascii.eqb_eq in Hq.
    destruct (JSObject.get (chunks m) _) as [lc|]; eexists; by split.
  - destruct (JSObject.get (chunks m) _) as [lc|]; [|by exists []; split; [|simpl; lia]].
    destruct (JSObject.get lc _) as [file|]; [|by exists []; split; [|simpl; lia]].
    eexists. split; [done|]. intros _. destruct (truthy file); simpl; lia.
Qed.

Lemma getRelevantChunks_empty p st m :
  manifest st = Some m → at_index p 0 = None →
  getRelevantChunks p st = (Throws TypeError, st).
Proof. intros Hm Hc. unfold getRelevantChunks, bind, this. by rewrite Hm, Hc. Qed.

Section Queries.

Variable w : World.

Lemma search_run p regex maxResults files st :
  (at_index p 0 ≠ Some "?"%char → length files ≤ 1) →
  ∃ c', search w (analyzePattern p) regex maxResults files st =
        (Returns (accumulated regex (bool_decide (at_index p 0 = Some "?"%char))
                    maxResults (omap (fulfilled w (chunkCache st)) files)),
         set_chunkCache c' st).
Proof.
  intros Hshort. unfold search. rewrite analyzePattern_strategy.
  unfold accumulated. case_bool_decide as Hq.
  - rewrite decide_False by done. rewrite decide_True by done.
    apply search_parallel_run.
  - rewrite decide_True by done.
    destruct (search_direct_run w regex files [] st) as [c' ->].
    exists c'. by rewrite load_in_turn_short by auto.
Qed.

Lemma getCachedResult_miss p st :
  cache_miss w st p →
  ∃ st2, getCachedResult w p st = (Returns None, st2) ∧
         manifest st2 = manifest st ∧ chunkCache st2 = chunkCache st ∧
         (JSMap.get (resultCache st) (getCacheKey p) = None → st2 = st).
Proof.
  intros Hmiss. rewrite getCachedResult_run.
  destruct (JSMap.get (resultCache st) (getCacheKey p)) as [cached|] eqn:Hget.
  - destruct (CACHE_TTL <? _)%Z eqn:Hstale.
    + eexists. by repeat split.
    + apply Z.ltb_ge in Hstale. by destruct (Hmiss cached).
  - exists st. by repeat split.
Qed.

Lemma getCachedResult_hit p st cached :
  fresh_entry w st p cached →
  getCachedResult w p st =
  (Returns (Some (results cached)), set_clock_reads (S (clock_reads st)) st).
Proof.
  intros [Hget Hfresh]. rewrite getCachedResult_run, Hget.
  apply Z.ltb_ge in Hfresh. by rewrite Hfresh.
Qed.

Lemma hit_or_miss p st :
  (∃ cached, fresh_entry w st p cached) ∨ cache_miss w st p.
Proof.
  unfold cache_miss, fresh_entry.
  destruct (JSMap.get (resultCache st) (getCacheKey p)) as [cached|] eqn:Hget.
  - destruct (decide (Date_now w (clock_reads st) - timestamp cached <= CACHE_TTL)%Z).
    + left. by exists cached.
    + right. intros cached' [[= <-] ?]. done.
  - right. by intros cached' [[=] ?].
Qed.

Lemma findMatchingAnswers_hit p mr st m cached :
  manifest_available w st m →
  fresh_entry w st (toUpperCase p) cached →
  findMatchingAnswers w p mr st =
  (Returns (slice0 (default default_maxResults mr) (results cached)),
   set_clock_reads (S (clock_reads st)) (set_manifest m st)).
Proof.
  intros Hm Hfresh. unfold findMatchingAnswers.
  rewrite (bind_returns _ _ _ _ _ (loadManifest_available w st m Hm)).
  by rewrite (bind_returns _ _ _ _ _
                (getCachedResult_hit _ (set_manifest m st) cached Hfresh)).
Qed.

Lemma findMatchingAnswers_miss p mr st m c :
  manifest_available w st m →
  query_pattern p = true → at_index p 0 = Some c →
  cache_miss w st (toUpperCase p) →
  let np := toUpperCase p in
  let maxResults := default default_maxResults mr in
  ∃ regex files st2 c',
    compile_matcher np = Some regex ∧
    getRelevantChunks np (set_manifest m st) = (Returns files, set_manifest m st) ∧
    getCachedResult w np (set_manifest m st) = (Returns None, st2) ∧
    (JSMap.get (resultCache st) (getCacheKey np) = None → st2 = set_manifest m st) ∧
    manifest st2 = Some m ∧
    let found := accumulated regex (bool_decide (c = "?"%char)) maxResults
                   (omap (fulfilled w (chunkCache st)) files) in
    let r := slice0 maxResults (Array_sort by_count_desc found) in
    findMatchingAnswers w p mr st =
    (Returns r,
     set_resultCache
       (resultCache_store (getCacheKey np)
          {| results := r; timestamp := Date_now w (clock_reads st2) |}
          (resultCache st2))
       (set_clock_reads (S (clock_reads st2)) (set_chunkCache c' st2))).
Proof.
  intros Hm Hp Hc Hmiss np maxResults.
  pose proof (compile_matcher_normalized np (toUpperCase_normalized p Hp)) as Hregex.
  set (regex := RegExp.AssertStart :: pattern_atoms np ++ [RegExp.AssertEnd]) in *.
  assert (at_index np 0 = Some (upper_char c)) as Hnc.
  { unfold np. by rewrite toUpperCase_first, Hc. }
  destruct (getRelevantChunks_returns np (set_manifest m st) m (upper_char c) eq_refl Hnc)
    as (files & Hfiles & Hshort).
  destruct (getCachedResult_miss np (set_manifest m st) Hmiss)
    as (st2 & Hst2 & Hm2 & Hc2 & Hsame).
  assert (getRelevantChunks np st2 = (Returns files, st2)) as Hfiles2.
  { apply injective_projections; simpl.
    - rewrite (getRelevantChunks_frame np st2 (set_manifest m st) Hm2). by rewrite Hfiles.
    - apply getRelevantChunks_state. }
  destruct (search_run np regex maxResults files st2) as [c' Hsearch].
  { rewrite Hnc. intros Hne. apply Hshort. congruence. }
  exists regex, files, st2, c'.
  split; [done|]. split; [done|]. split; [done|]. split; [done|].
  split; [done|].
  unfold findMatchingAnswers.
  rewrite (bind_returns _ _ _ _ _ (loadManifest_available w st m Hm)).
  rewrite (bind_returns _ _ _ _ _ Hst2).
  fold np. rewrite Hregex. unfold bind at 1, ret at 1.
  rewrite (bind_returns _ _ _ _ _ Hfiles2).
  fold maxResults. rewrite (bind_returns _ _ _ _ _ Hsearch).
  erewrite bind_returns by apply setCachedResult_run.
  unfold ret. rewrite Hc2, Hnc.
  replace (bool_decide (Some (upper_char c) = Some "?"%char))
    with (bool_decide (c = "?"%char)); [done|].
  apply bool_decide_ext. rewrite <-upper_char_wildcard. split; congruence.
Qed.

Lemma findMatchingAnswers_returns p mr st m :
  manifest_available w st m → query_pattern p = true → p ≠ "" →
  ∃ r st', findMatchingAnswers w p mr st = (Returns r, st').
Proof.
  intros Hm Hp [c Hc]%nonempty_first.
  destruct (hit_or_miss (toUpperCase p) st) as [[cached Hhit]|Hmiss].
  - eexists _, _. by apply findMatchingAnswers_hit.
  - destruct (findMatchingAnswers_miss p mr st m c Hm Hp Hc Hmiss)
      as (? & ? & ? & ? & _ & _ & _ & _ & _ & ->).
    by eexists _, _.
Qed.

Lemma findMatchingAnswers_no_manifest p mr st :
  manifest_unavailable w st → ∃ e, findMatchingAnswers w p mr st = (Throws e, st).
Proof.
  intros [e He]%(loadManifest_unavailable w). exists e.
  unfold findMatchingAnswers. by rewrite (bind_throws _ _ _ _ _ He).
Qed.

End Queries.

(** ** Queries: failures, the early stop, the default, the cache key *)

Lemma JSMap_get_set_eq {V} (m : JSMap.t V) k v : JSMap.get (JSMap.set m k v) k = Some v.
Proof.
  induction m as [|[k' v'] r IH]; simpl.
  - by rewrite decide_True.
  - destruct (decide (k' = k)) as [->|Hne]; simpl.
    + by rewrite decide_True.
    + by rewrite decide_False.
Qed.

(** C3. On a valid non-empty pattern, a query whose manifest is available
    never throws, whatever shards fail to load: on a result-cache miss it
    returns the matches accumulated from the chunks that did load, ranked
    by count (highest first) and cut to [maxResults]; on a hit it returns
    the cached list cut to [maxResults]. When the manifest cannot be
    loaded the query throws. *)
Theorem shard_failures_are_absorbed (w : World) (st : Loader) (p : string)
    (mr : option Z) (c : ascii) :
  query_pattern p = true → at_index p 0 = Some c →
  let np := toUpperCase p in
  let maxResults := default default_maxResults mr in
  (∀ m, manifest_available w st m →
     ∃ r st', findMatchingAnswers w p mr st = (Returns r, st') ∧
       (∀ cached, fresh_entry w st np cached →
                  r = slice0 maxResults (results cached)) ∧
       (cache_miss w st np →
        ∃ regex files,
          compile_matcher np = Some regex ∧
          getRelevantChunks np (set_manifest m st) =
            (Returns files, set_manifest m st) ∧
          let healthy := omap (fulfilled w (chunkCache st)) files in
          let found := accumulated regex (bool_decide (c = "?"%char))
                         maxResults healthy in
          let sorted := Array_sort by_count_desc found in
          sorted ≡ₚ found ∧ Sorted ranked sorted ∧
          r = slice0 maxResults sorted ∧
          ((0 <= maxResults)%Z → r = take (Z.to_nat maxResults) sorted))) ∧
  (manifest_unavailable w st →
     ∃ e, findMatchingAnswers w p mr st = (Throws e, st)).
Proof.
  intros Hp Hc np maxResults. split; [|apply findMatchingAnswers_no_manifest].
  intros m Hm.
  destruct (hit_or_miss w np st) as [[cached Hhit]|Hmiss].
  - rewrite (findMatchingAnswers_hit w p mr st m cached Hm Hhit).
    eexists _, _. split; [reflexivity|]. split.
    + intros cached' [Hget' _]. destruct Hhit as [Hget _].
      rewrite Hget in Hget'. by injection Hget' as <-.
    + intros Hmiss. by destruct (Hmiss cached).
  - destruct (findMatchingAnswers_miss w p mr st m c Hm Hp Hc Hmiss)
      as (regex & files & st2 & c' & Hregex & Hfiles & _ & _ & _ & Hrun).
    eexists _, _. split; [exact Hrun|]. split.
    + intros cached Hhit. by destruct (Hmiss cached).
    + intros _. exists regex, files. split; [done|]. split; [done|].
      split; [apply Array_sort_perm|]. split; [apply Array_sort_ranked|].
      split; [done|]. intros Hnonneg. by apply slice0_nonneg.
Qed.

(** C6. With [maxResults >= 1], the search for a pattern that starts with
    the wildcard keeps the first [2 * maxResults] matches of the chunks it
    obtained, in scan order, and no more: once that many have accumulated,
    further answers and further chunks change nothing. The search for a
    pattern that starts with a literal keeps every match of every chunk it
    loads. *)
Theorem early_stop_only_for_wildcard_first (w : World) (regex : RegExp.t)
    (maxResults : Z) (files : list string) (st : Loader) (p : string) :
  (1 <= maxResults)%Z →
  let analysis := analyzePattern p in
  let cap := (maxResults * 2)%Z in
  (at_index p 0 = Some "?"%char →
     searchStrategy analysis = "parallel-optimized" ∧
     ∃ found st',
       search w analysis regex maxResults files st = (Returns found, st') ∧
       found = take (Z.to_nat cap)
                 (all_matches regex (omap (fulfilled w (chunkCache st)) files)) ∧
       (Z.of_nat (length found) <= 2 * maxResults)%Z) ∧
  (∀ chunk_answers more,
     (cap <= Z.of_nat (length (scan_answers_capped regex cap chunk_answers [])))%Z →
     scan_answers_capped regex cap (chunk_answers ++ more) [] =
     scan_answers_capped regex cap chunk_answers []) ∧
  (∀ loaded more,
     (cap <= Z.of_nat (length (scan_chunks_capped regex cap loaded [])))%Z →
     scan_chunks_capped regex cap (loaded ++ more) [] =
     scan_chunks_capped regex cap loaded []) ∧
  (at_index p 0 ≠ Some "?"%char →
     searchStrategy analysis = "direct" ∧
     ∃ st',
       search w analysis regex maxResults files st =
       (Returns (all_matches regex (load_in_turn w (chunkCache st) files)), st')).
Proof.
  intros Hmax analysis cap.
  split; [intros Hq; split|split; [|split; [|intros Hq; split]]].
  - unfold analysis. rewrite analyzePattern_strategy. by rewrite Hq.
  - unfold search, analysis.
    rewrite analyzePattern_strategy, Hq, bool_decide_eq_true_2 by done.
    rewrite decide_False by done. rewrite decide_True by done.
    destruct (search_parallel_run w regex maxResults files st) as [c' ->].
    eexists _, _. split; [done|].
    rewrite scan_chunks_capped_take by (simpl; lia). rewrite app_nil_l.
    split; [done|]. rewrite length_take. unfold cap. lia.
  - intros. apply scan_answers_capped_stops; [unfold cap; lia|done].
  - intros. apply scan_chunks_capped_stops; [unfold cap; lia|done].
  - unfold analysis. rewrite analyzePattern_strategy.
    by rewrite bool_decide_eq_false_2.
  - unfold search, analysis.
    rewrite analyzePattern_strategy, bool_decide_eq_false_2 by done.
    rewrite decide_True by done.
    destruct (search_direct_run w regex files [] st) as [c' ->]. by eexists.
Qed.

(** C7 (as amended). On every non-empty string of letters and wildcards,
    a query whose manifest is available returns a sequence of matches. *)
Theorem findMatchingAnswers_tolerates_nonempty_patterns (w : World) (st : Loader)
    (m : ChunkManifest) (p : string) (mr : option Z) :
  manifest_available w st m → query_pattern p = true → p ≠ "" →
  ∃ r st', findMatchingAnswers w p mr st = (Returns r, st').
Proof. apply findMatchingAnswers_returns. Qed.

(** C7 (as stated) fails on the empty string: the manifest loads, and the
    query throws a [TypeError] when it sanitizes the missing first
    character. *)
Lemma findMatchingAnswers_throws_on_empty_pattern :
  query_pattern "" = true ∧
  manifest_available demo_world new_loader demo_manifest ∧
  (findMatchingAnswers demo_world "" None new_loader).1 = Throws TypeError.
Proof. split; [done|]. split; [by right|]. reflexivity. Qed.

(** C9 (as amended). The default of [maxResults] is 100: a query without
    the argument is the query with [maxResults = 100]. *)
Theorem default_maxResults_is_100 (w : World) (p : string) (st : Loader) :
  default_maxResults = 100%Z ∧
  findMatchingAnswers w p None st = findMatchingAnswers w p (Some 100%Z) st.
Proof. split; reflexivity. Qed.

(** C9 (as stated) fails: on a pattern with sixty matches the query
    without the argument returns all sixty, the query with
    [maxResults = 50] returns fifty. *)
Lemma default_maxResults_is_not_50 :
  ∃ r r',
    (findMatchingAnswers demo_world "A??" None new_loader).1 = Returns r ∧
    (findMatchingAnswers demo_world "A??" (Some 50%Z) new_loader).1 = Returns r' ∧
    length r = 60 ∧ length r' = 50.
Proof. eexists _, _. split; [vm_compute; reflexivity|]. split; [vm_compute; reflexivity|]. by split. Qed.

(** C10. The result cache is keyed by the pattern alone. After a query
    [(p, m1)] that scanned the shards, a query [(p, m2)] with [m1 < m2]
    made before the entry expires returns the list the first call
    returned, which has at most [m1] elements. *)
Theorem result_cache_ignores_maxResults (w : World) (st : Loader)
    (m : ChunkManifest) (p : string) (m1 m2 : Z) :
  manifest_available w st m → query_pattern p = true → p ≠ "" →
  cache_miss w st (toUpperCase p) →
  (0 <= m1 < m2)%Z →
  ∃ r1 st1,
    findMatchingAnswers w p (Some m1) st = (Returns r1, st1) ∧
    (Z.of_nat (length r1) <= m1)%Z ∧
    (within_ttl w st1 (toUpperCase p) →
     ∃ st2, findMatchingAnswers w p (Some m2) st1 = (Returns r1, st2)).
Proof.
  intros Hm Hp [c Hc]%nonempty_first Hmiss [Hm1 Hm12].
  destruct (findMatchingAnswers_miss w p (Some m1) st m c Hm Hp Hc Hmiss)
    as (regex & files & st2 & c' & _ & _ & _ & _ & Hm2 & Hrun).
  simpl in Hrun. eexists _, _. split; [exact Hrun|].
  split; [by apply slice0_length|].
  intros Hfresh.
  set (r1 := slice0 m1 _) in *. set (st1 := set_resultCache _ _) in *.
  set (entry := {| results := r1; timestamp := Date_now w (clock_reads st2) |}).
  assert (JSMap.get (resultCache st1) (getCacheKey (toUpperCase p)) = Some entry)
    as Hget by apply JSMap_get_set_eq.
  rewrite (findMatchingAnswers_hit w p (Some m2) st1 m entry).
  - eexists. f_equal. f_equal. simpl.
    rewrite slice0_nonneg by lia. apply take_ge.
    pose proof (slice0_length m1 (Array_sort by_count_desc
      (accumulated regex (bool_decide (c = "?"%char)) m1
         (omap (fulfilled w (chunkCache st)) files))) Hm1).
    fold r1 in H. lia.
  - by left.
  - split; [done|]. by apply Hfresh.
Qed.

(** ** Clues *)

Lemma Set_add_elem seen x y : y ∈ Set_add seen x ↔ y ∈ seen ∨ y = x.
Proof.
  induction seen as [|z r IH]; simpl.
  - rewrite list_elem_of_singleton. split; [by right|]. by intros [?%elem_of_nil|].
  - case_decide as Hz.
    + subst. split; [by left|]. intros [ ? | -> ]; [done|left].
    + rewrite !elem_of_cons, IH. tauto.
Qed.

Lemma Set_add_NoDup seen x : NoDup seen → NoDup (Set_add seen x).
Proof.
  induction seen as [|z r IH]; simpl; intros Hseen.
  - apply NoDup_singleton.
  - case_decide as Hz; [done|].
    apply NoDup_cons in Hseen as [Hz' Hr]. apply NoDup_cons. split; [|by apply IH].
    rewrite Set_add_elem. intros [|]; congruence.
Qed.

Lemma Set_from_fold l seen :
  NoDup seen →
  NoDup (fold_left Set_add l seen) ∧
  ∀ y, y ∈ fold_left Set_add l seen ↔ y ∈ seen ∨ y ∈ l.
Proof.
  revert seen. induction l as [|x l IH]; intros seen Hseen; simpl.
  - split; [done|]. intros y. split; [by left|]. by intros [|?%elem_of_nil].
  - destruct (IH (Set_add seen x) (Set_add_NoDup seen x Hseen)) as [Hnd Hel].
    split; [done|]. intros y. rewrite Hel, Set_add_elem, elem_of_cons. tauto.
Qed.

Lemma Set_from_NoDup l : NoDup (Set_from l).
Proof. apply Set_from_fold, NoDup_nil_2. Qed.

Lemma Set_from_elem l y : y ∈ Set_from l ↔ y ∈ l.
Proof.
  unfold Set_from. destruct (Set_from_fold l [] (NoDup_nil_2)) as [_ ->].
  split; [by intros [?%elem_of_nil|]|by right].
Qed.

(** The number of distinct values of a list. *)
Lemma Set_from_length l :
  length (Set_from l) = size (list_to_set l : gset string).
Proof.
  rewrite <-(size_list_to_set (C := gset string) (Set_from l)) by apply Set_from_NoDup.
  f_equal. apply set_eq. intros y. by rewrite !elem_of_list_to_set, Set_from_elem.
Qed.

Lemma swap_perm {A} (s : list A) i j : swap s i j ≡ₚ s.
Proof.
  unfold swap. destruct (s !! i) as [si|] eqn:Hi; [|done].
  destruct (s !! j) as [sj|] eqn:Hj; [|done].
  by apply Permutation_insert_swap.
Qed.

(** The index the shuffle draws is inside the array. *)
Lemma random_index_bound (w : World) (k i : nat) :
  random_index (Math_random w k) i ≤ i.
Proof.
  destruct (Math_random_unit w k) as [Hr0 Hr1].
  set (r := Math_random w k) in *. unfold random_index.
  set (n := inject_Z (Z.of_nat (i + 1))).
  assert (0 < n)%Q as Hn.
  { unfold n, Qlt, inject_Z. simpl. lia. }
  assert (Qfloor (r * n) < Z.of_nat (i + 1))%Z; [|lia].
  apply Z.lt_nge. intros Hge.
  assert (n <= r * n)%Q as Hle.
  { eapply Qle_trans; [|apply Qfloor_le]. unfold n at 1. by rewrite <-Zle_Qle. }
  assert (r * n < 1 * n)%Q as Hlt by (by apply Qmult_lt_compat_r).
  rewrite Qmult_1_l in Hlt. by apply Qlt_not_le in Hlt.
Qed.

Section Clues.

Variable w : World.

Lemma shuffle_from_run i l st :
  ∃ shuffled,
    shuffle_from w i l st =
      (Returns shuffled, set_random_draws (random_draws st + i) st) ∧
    shuffled ≡ₚ l.
Proof.
  revert l st. induction i as [|i IH]; intros l st; simpl.
  - exists l. split; [|done]. unfold ret. f_equal.
    rewrite Nat.add_0_r. by destruct st.
  - unfold bind, random.
    destruct (IH (swap l (S i) (random_index (Math_random w (random_draws st)) (S i)))
                (set_random_draws (S (random_draws st)) st)) as (l' & -> & Hl').
    exists l'. split; [|by rewrite Hl', swap_perm].
    f_equal. unfold set_random_draws. simpl. f_equal. lia.
Qed.

Lemma getClues_run a mc st m c :
  manifest_available w st m → at_index (toUpperCase a) 0 = Some c →
  let na := toUpperCase a in
  ∃ r st', getClues w a mc st = (Returns r, st') ∧
    match owning_shard m na c with
    | None => r = []
    | Some file =>
        if truthy file then
          match fulfilled w (chunkCache st) file with
          | None => r = []
          | Some chunk =>
              ∃ shuffled,
                shuffled ≡ₚ Set_from (default [] (clues chunk !! na)) ∧
                r = slice0 (default default_maxClues mc) shuffled
          end
        else r = []
    end.
Proof.
  intros Hm Hc na. subst na. unfold getClues.
  rewrite (bind_returns _ _ _ _ _ (loadManifest_available w st m Hm)).
  rewrite Hc. unfold bind at 1, this at 1.
  change (manifest (set_manifest m st)) with (Some m).
  change (m0 ← Some m; JSObject.get (chunks m0) (of_nat (String.length (toUpperCase a))))
    with (JSObject.get (chunks m) (of_nat (String.length (toUpperCase a)))).
  fold (owning_shard m (toUpperCase a) c).
  destruct (owning_shard m (toUpperCase a) c) as [file|]; [|by eexists _, _].
  destruct (truthy file); simpl; [|by eexists _, _].
  unfold try_catch, bind at 1. rewrite loadChunk_run.
  change (chunkCache (set_manifest m st)) with (chunkCache st).
  unfold fulfilled.
  destruct (JSMap.get (chunkCache st) file) as [chunk|].
  - unfold ret at 1. unfold bind.
    destruct (shuffle_from_run (length (Set_from (default [] (clues chunk !! toUpperCase a))) - 1)
                (Set_from (default [] (clues chunk !! toUpperCase a))) (set_manifest m st))
      as (shuffled & -> & Hperm).
    eexists _, _. split; [reflexivity|]. by exists shuffled.
  - destruct (r2_chunk w (chunk_key file)) as [| | |chunk]; try by eexists _, _.
    unfold ret at 1, bind at 1, update, bind.
    destruct (shuffle_from_run (length (Set_from (default [] (clues chunk !! toUpperCase a))) - 1)
                (Set_from (default [] (clues chunk !! toUpperCase a)))
                (set_chunkCache
                   (chunkCache_store file chunk (chunkCache st))
                   (set_manifest m st)))
      as (shuffled & -> & Hperm).
    eexists _, _. split; [reflexivity|]. by exists shuffled.
Qed.

Lemma getClues_no_manifest a mc st :
  manifest_unavailable w st → ∃ e, getClues w a mc st = (Throws e, st).
Proof.
  intros [e He]%(loadManifest_unavailable w). exists e.
  unfold getClues. by rewrite (bind_throws _ _ _ _ _ He).
Qed.

End Clues.

Lemma owning_shard_registered m na c file :
  owning_shard m na c = Some file ↔
  registered m (String.length na) (String (sanitize c) EmptyString) file.
Proof.
  unfold owning_shard, registered.
  destruct (JSObject.get (chunks m) _) as [lc|]; simpl.
  - split; [by exists lc|]. by intros (lc' & [= <-] & ?).
  - split; [done|]. by intros (? & [=] & _).
Qed.

(** C4 (as amended). On a non-empty answer, a clue lookup whose manifest
    is available never throws: it returns the empty sequence when the
    manifest has no bucket for the answer or when the shard fails to load.
    When the manifest cannot be loaded the lookup throws. *)
Theorem getClues_absorbs_shard_failures (w : World) (st : Loader) (a : string)
    (mc : option Z) (c : ascii) :
  at_index (toUpperCase a) 0 = Some c →
  let na := toUpperCase a in
  let bucket := String (sanitize c) EmptyString in
  (∀ m, manifest_available w st m →
     ∃ r st', getClues w a mc st = (Returns r, st') ∧
       ((∀ file, ¬ registered m (String.length na) bucket file) → r = []) ∧
       (∀ file, registered m (String.length na) bucket file →
                fulfilled w (chunkCache st) file = None → r = [])) ∧
  (manifest_unavailable w st → ∃ e, getClues w a mc st = (Throws e, st)).
Proof.
  intros Hc na bucket. split; [|apply getClues_no_manifest].
  intros m Hm. destruct (getClues_run w a mc st m c Hm Hc) as (r & st' & Hrun & Hr).
  exists r, st'. split; [done|]. fold na in Hr. split.
  - intros Hnone. destruct (owning_shard m na c) as [file|] eqn:Hfile; [|done].
    by apply owning_shard_registered, Hnone in Hfile.
  - intros file Hfile%owning_shard_registered Hfail. rewrite Hfile, Hfail in Hr.
    by destruct (truthy file).
Qed.

(** C4 (as stated) fails: with no manifest in the store, the lookup of the
    clues of an ordinary answer throws the manifest loader's error. *)
Lemma getClues_propagates_manifest_failure :
  (getClues world_without_manifest "APPLE" None new_loader).1 =
  Throws (Error "Chunk manifest not found in R2 bucket").
Proof. reflexivity. Qed.

(** C8. When the shard of a non-empty answer loads and [maxClues >= 0],
    the lookup returns clues that are pairwise distinct and all among the
    clues stored for the answer (none when the shard stores nothing for
    it), at most [maxClues] of them and at most as many as there are
    distinct stored clues. *)
Theorem getClues_distinct_stored_clues (w : World) (st : Loader)
    (m : ChunkManifest) (a : string) (mc : option Z) (c : ascii)
    (file : string) (chunk : Chunk) :
  manifest_available w st m →
  at_index (toUpperCase a) 0 = Some c →
  let na := toUpperCase a in
  let maxClues := default default_maxClues mc in
  registered m (String.length na) (String (sanitize c) EmptyString) file →
  truthy file = true →
  fulfilled w (chunkCache st) file = Some chunk →
  (0 <= maxClues)%Z →
  let stored := default [] (clues chunk !! na) in
  ∃ r st',
    getClues w a mc st = (Returns r, st') ∧
    NoDup r ∧ r ⊆ stored ∧
    length r ≤ Z.to_nat maxClues `min` size (list_to_set stored : gset string) ∧
    (clues chunk !! na = None → r = []).
Proof.
  intros Hm Hc na maxClues Hfile%owning_shard_registered Htruthy Hload Hmax stored.
  destruct (getClues_run w a mc st m c Hm Hc) as (r & st' & Hrun & Hr).
  fold na in Hr. rewrite Hfile, Htruthy, Hload in Hr.
  destruct Hr as (shuffled & Hperm & ->). fold stored in Hperm. fold maxClues.
  exists (slice0 maxClues shuffled), st'. split; [done|].
  rewrite slice0_nonneg by done.
  assert (NoDup shuffled) as Hnd by (rewrite Hperm; apply Set_from_NoDup).
  split; [by eapply sublist_NoDup; [|apply sublist_take]|]. split; [|split].
  - intros y Hy%subseteq_take. rewrite Hperm in Hy. by apply Set_from_elem.
  - rewrite length_take, Hperm, Set_from_length. done.
  - intros Hnone. unfold stored in Hperm. rewrite Hnone in Hperm. simpl in Hperm.
    apply Permutation_nil_r in Hperm as ->. by rewrite take_nil.
Qed.

(** ** The two caches *)

Lemma last_n_short {A} n (l : list A) : length l ≤ n → last_n n l = l.
Proof. intros H. unfold last_n. by replace (length l - n) with 0 by lia. Qed.

Lemma last_n_length {A} n (l : list A) : length (last_n n l) = length l `min` n.
Proof. unfold last_n. rewrite length_drop. lia. Qed.

Lemma last_n_snoc {A} n (l : list A) x :
  0 < n → last_n n (last_n n l ++ [x]) = last_n n (l ++ [x]).
Proof.
  intros Hn. destruct (decide (length l ≤ n)) as [Hle|Hgt].
  - by rewrite (last_n_short n l).
  - unfold last_n at 1 3. rewrite !length_app, last_n_length. simpl.
    unfold last_n. rewrite !drop_app_le by (rewrite ?length_drop; lia).
    rewrite drop_drop. f_equal. f_equal. lia.
Qed.

Lemma JSMap_keys_length {V} (m : JSMap.t V) : length (JSMap.keys m) = JSMap.size m.
Proof. apply length_fmap. Qed.

(** A write of a fresh key: the new key goes last, and the oldest key
    leaves when the cache was full. *)
Lemma chunkCache_store_keys f chunk (c : JSMap.t Chunk) :
  truthy f = true → truthy_keys c → f ∉ JSMap.keys c →
  JSMap.size c ≤ MAX_CHUNK_CACHE_SIZE →
  JSMap.keys (chunkCache_store f chunk c) =
  last_n MAX_CHUNK_CACHE_SIZE (JSMap.keys c ++ [f]).
Proof.
  intros Htruthy Hc Hf Hbound. unfold chunkCache_store.
  pose proof (JSMap_size_set c f chunk) as Hsize. rewrite decide_False in Hsize by done.
  pose proof (JSMap_keys_set c f chunk) as Hkeys. rewrite decide_False in Hkeys by done.
  assert (length (JSMap.keys c) = JSMap.size c) as Hlen by apply length_fmap.
  destruct (MAX_CHUNK_CACHE_SIZE <? JSMap.size (JSMap.set c f chunk)) eqn:Hfull.
  - apply Nat.ltb_lt in Hfull.
    rewrite JSMap_delete_oldest_truthy by by apply truthy_keys_set.
    unfold JSMap.keys in *. rewrite fmap_drop, Hkeys.
    unfold last_n. rewrite length_app. simpl. f_equal. lia.
  - apply Nat.ltb_ge in Hfull. rewrite Hkeys, last_n_short; [done|].
    rewrite length_app. simpl. lia.
Qed.

Lemma JSMap_set_elem {V} (m : JSMap.t V) k v kv :
  kv ∈ JSMap.set m k v → kv = (k, v) ∨ kv ∈ m.
Proof.
  induction m as [|[k' v'] r IH]; simpl.
  - intros ->%list_elem_of_singleton. by left.
  - case_decide.
    + intros [->|?]%elem_of_cons; [by left|right; by right].
    + intros [->|Hin]%elem_of_cons; [right; left|].
      destruct (IH Hin) as [->|?]; [by left|right; by right].
Qed.

Lemma JSMap_delete_elem {V} (m : JSMap.t V) k kv : kv ∈ JSMap.delete m k → kv ∈ m.
Proof.
  induction m as [|[k' v'] r IH]; simpl; [done|].
  case_decide; [by right|].
  intros [->|Hin]%elem_of_cons; [left|right; by apply IH].
Qed.

Lemma chunkCache_store_elem f chunk (c : JSMap.t Chunk) kv :
  kv ∈ chunkCache_store f chunk c → kv = (f, chunk) ∨ kv ∈ c.
Proof.
  unfold chunkCache_store, JSMap.delete_oldest.
  destruct (_ <? _); [|apply JSMap_set_elem].
  destruct (JSMap.first_key _) as [k|]; [|apply JSMap_set_elem].
  destruct (truthy k); [|apply JSMap_set_elem].
  intros Hin%JSMap_delete_elem. by apply JSMap_set_elem.
Qed.

Lemma resultCache_store_keys key entry (rc : JSMap.t CachedResult) :
  truthy key = true → truthy_keys rc → key ∉ JSMap.keys rc →
  JSMap.size rc ≤ MAX_RESULT_CACHE_SIZE →
  JSMap.keys (resultCache_store key entry rc) =
  last_n MAX_RESULT_CACHE_SIZE (JSMap.keys rc ++ [key]).
Proof.
  intros Htruthy Hrc Hkey Hbound. unfold resultCache_store.
  assert (length (JSMap.keys rc) = JSMap.size rc) as Hlen by apply length_fmap.
  destruct (MAX_RESULT_CACHE_SIZE <=? JSMap.size rc) eqn:Hfull.
  - apply Nat.leb_le in Hfull.
    rewrite JSMap_delete_oldest_truthy by done.
    rewrite JSMap_keys_set. rewrite decide_False.
    + unfold JSMap.keys in *. rewrite fmap_drop. unfold last_n.
      rewrite length_app. simpl.
      replace (length (fst <$> rc) + 1 - MAX_RESULT_CACHE_SIZE) with 1 by lia.
      rewrite drop_app_le; [done|]. unfold MAX_RESULT_CACHE_SIZE in *. lia.
    + intros Hin. apply Hkey. unfold JSMap.keys in *. rewrite fmap_drop in Hin.
      by apply (subseteq_drop 1).
  - apply Nat.leb_gt in Hfull. rewrite JSMap_keys_set, decide_False by done.
    rewrite last_n_short; [done|]. rewrite length_app. simpl. lia.
Qed.

Lemma last_n_truthy n (l : list string) :
  Forall (λ k, truthy k = true) l → Forall (λ k, truthy k = true) (last_n n l).
Proof. apply Forall_drop. Qed.

Section Caches.

Variable w : World.

Lemma load_all_snoc files f st :
  load_all w (files ++ [f]) st = (loadChunk w f (load_all w files st)).2.
Proof. unfold load_all. by rewrite fold_left_app. Qed.

(** Loading distinct shards that are not cached yet, one after the other,
    leaves the ten most recently inserted ones in the cache. *)
Lemma load_all_keys files st :
  NoDup (JSMap.keys (chunkCache st) ++ files) →
  truthy_keys (chunkCache st) →
  JSMap.size (chunkCache st) ≤ MAX_CHUNK_CACHE_SIZE →
  Forall (λ f, truthy f = true ∧ ∃ chunk, r2_chunk w (chunk_key f) = R2Body chunk)
         files →
  JSMap.keys (chunkCache (load_all w files st)) =
  last_n MAX_CHUNK_CACHE_SIZE (JSMap.keys (chunkCache st) ++ files).
Proof.
  intros Hnd Hk0 Hsize. induction files as [|f files IH] using rev_ind; intros Hfiles.
  - rewrite app_nil_r. simpl. rewrite last_n_short; [done|].
    by rewrite JSMap_keys_length.
  - apply Forall_app in Hfiles as [Hfiles [[Hf [chunk Hchunk]] _]%Forall_cons].
    rewrite (assoc_L (++)) in Hnd. apply NoDup_app in Hnd as (Hnd & Hfresh & _).
    specialize (IH Hnd Hfiles).
    rewrite load_all_snoc, loadChunk_run.
    set (st' := load_all w files st) in *.
    assert (f ∉ JSMap.keys (chunkCache st')) as Hnew.
    { rewrite IH. intros Hin%(subseteq_drop _ _ f). apply (Hfresh f Hin). left. }
    assert (truthy_keys (chunkCache st')) as Hk'.
    { unfold truthy_keys. rewrite IH. apply last_n_truthy, Forall_app. split; [done|].
      eapply Forall_impl; [exact Hfiles|]. by intros ? [? _]. }
    assert (JSMap.size (chunkCache st') ≤ MAX_CHUNK_CACHE_SIZE) as Hs'.
    { rewrite <-JSMap_keys_length, IH, last_n_length. lia. }
    apply JSMap_get_None in Hnew as Hget. rewrite Hget, Hchunk. simpl.
    rewrite chunkCache_store_keys by done.
    rewrite IH, last_n_snoc by (unfold MAX_CHUNK_CACHE_SIZE; lia).
    by rewrite (assoc_L (++)).
Qed.

(** Every cached shard is the one the store holds under its name. *)
Lemma load_all_from_store files st :
  Forall (λ kv, r2_chunk w (chunk_key kv.1) = R2Body kv.2) (chunkCache st) →
  Forall (λ kv, r2_chunk w (chunk_key kv.1) = R2Body kv.2)
         (chunkCache (load_all w files st)).
Proof.
  revert st. induction files as [|f files IH]; intros st Hst; [done|].
  apply IH. rewrite loadChunk_run.
  destruct (JSMap.get (chunkCache st) f); [done|].
  destruct (r2_chunk w (chunk_key f)) as [| | |chunk] eqn:Hf; try done.
  simpl. rewrite Forall_forall in Hst |- *.
  intros kv [->|Hkv]%chunkCache_store_elem; [done|by apply Hst].
Qed.

Lemma loadChunk_hit f st chunk :
  JSMap.get (chunkCache st) f = Some chunk → loadChunk w f st = (Returns chunk, st).
Proof. intros Hget. by rewrite loadChunk_run, Hget. Qed.

(** A query for a pattern that is not in the result cache writes its
    entry, last. *)
Lemma query_keys p mr st m :
  manifest_available w st m → query_pattern p = true → p ≠ "" →
  truthy_keys (resultCache st) →
  JSMap.size (resultCache st) ≤ MAX_RESULT_CACHE_SIZE →
  getCacheKey (toUpperCase p) ∉ JSMap.keys (resultCache st) →
  let st' := (findMatchingAnswers w p mr st).2 in
  manifest st' = Some m ∧
  JSMap.keys (resultCache st') =
  last_n MAX_RESULT_CACHE_SIZE
    (JSMap.keys (resultCache st) ++ [getCacheKey (toUpperCase p)]).
Proof.
  intros Hm Hp [c Hc]%nonempty_first Hk Hsize Hnew%JSMap_get_None.
  assert (cache_miss w st (toUpperCase p)) as Hmiss.
  { intros cached [Hget _]. congruence. }
  destruct (findMatchingAnswers_miss w p mr st m c Hm Hp Hc Hmiss)
    as (regex & files & st2 & c' & _ & _ & _ & Hst2 & _ & ->).
  rewrite (Hst2 Hnew). simpl. split; [done|].
  apply resultCache_store_keys; try done. by apply JSMap_get_None.
Qed.

Lemma run_calls_snoc calls c st :
  run_calls w (calls ++ [c]) st = run_call w (run_calls w calls st) c.
Proof. unfold run_calls. by rewrite fold_left_app. Qed.

Lemma queries_keys queries m :
  r2_manifest w = R2Body m →
  Forall (λ q, query_pattern q.1 = true ∧ q.1 ≠ "") queries →
  NoDup ((λ q, toUpperCase q.1) <$> queries) →
  let st' := run_calls w (query_call <$> queries) new_loader in
  (queries ≠ [] → manifest st' = Some m) ∧
  JSMap.keys (resultCache st') =
  last_n MAX_RESULT_CACHE_SIZE ((λ q, getCacheKey (toUpperCase q.1)) <$> queries).
Proof.
  intros Hw. cbv zeta. induction queries as [|[p mr] queries IH] using rev_ind;
    intros Hqs Hnd; [done|].
  apply Forall_app in Hqs as [Hqs [[Hp Hne] _]%Forall_cons].
  rewrite fmap_app in Hnd. apply NoDup_app in Hnd as (Hnd & Hfresh & _).
  destruct (IH Hqs Hnd) as [IHm IHk]. clear IH. simpl in Hp, Hne.
  rewrite !fmap_app, !list_fmap_singleton, run_calls_snoc.
  cbn [run_call query_call fst snd].
  set (st := run_calls w (query_call <$> queries) new_loader) in *.
  assert (manifest_available w st m) as Hm.
  { destruct queries as [|q queries']; [by right|]. left. by apply IHm. }
  destruct (query_keys p mr st m Hm Hp Hne) as [Hm' Hk'].
  - unfold truthy_keys. rewrite IHk. apply last_n_truthy, Forall_fmap.
    by apply Forall_true.
  - rewrite <-JSMap_keys_length, IHk, last_n_length. lia.
  - rewrite IHk. intros Hin%(subseteq_drop _ _ _).
    apply list_elem_of_fmap in Hin as ([p' mr'] & Heq & Hin). simpl in Heq.
    apply getCacheKey_inj in Heq. rewrite !toUpperCase_idem in Heq.
    apply (Hfresh (toUpperCase p)); [|left].
    apply list_elem_of_fmap. exists (p', mr'). by split.
  - split; [done|]. rewrite Hk', IHk.
    apply last_n_snoc. unfold MAX_RESULT_CACHE_SIZE. lia.
Qed.

End Caches.

(** C5. For a store whose manifest names its shard files (no empty name):
    after any sequence of calls on a new loader the shard cache holds at
    most 10 entries and the result cache at most 100; after more than 10
    distinct shard loads the shard cache holds the 10 most recently
    inserted shards, oldest first, as the store has them; after more than
    100 queries for distinct patterns the result cache holds the entries
    of the 100 most recent ones; and a cache hit leaves both caches, and
    so every entry's place in the eviction order, as they were. *)
Theorem caches_are_bounded_and_evict_oldest_first (w : World) :
  served_manifest_ok w → fetches_complete w →
  (∀ calls, caches_bounded (run_calls w calls new_loader)) ∧
  (∀ files,
     NoDup files →
     Forall (λ f, truthy f = true ∧ ∃ chunk, r2_chunk w (chunk_key f) = R2Body chunk)
            files →
     MAX_CHUNK_CACHE_SIZE < length files →
     let cache := chunkCache (load_all w files new_loader) in
     JSMap.size cache = MAX_CHUNK_CACHE_SIZE ∧
     JSMap.keys cache = last_n MAX_CHUNK_CACHE_SIZE files ∧
     Forall (λ kv, r2_chunk w (chunk_key kv.1) = R2Body kv.2) cache) ∧
  (∀ m queries,
     r2_manifest w = R2Body m →
     Forall (λ q, query_pattern q.1 = true ∧ q.1 ≠ "") queries →
     NoDup ((λ q, toUpperCase q.1) <$> queries) →
     MAX_RESULT_CACHE_SIZE < length queries →
     let cache := resultCache (run_calls w (query_call <$> queries) new_loader) in
     JSMap.size cache = MAX_RESULT_CACHE_SIZE ∧
     JSMap.keys cache =
     last_n MAX_RESULT_CACHE_SIZE ((λ q, getCacheKey (toUpperCase q.1)) <$> queries)) ∧
  (∀ st f chunk,
     JSMap.get (chunkCache st) f = Some chunk →
     loadChunk w f st = (Returns chunk, st)) ∧
  (∀ st m p mr cached,
     manifest_available w st m → fresh_entry w st (toUpperCase p) cached →
     let st' := (findMatchingAnswers w p mr st).2 in
     resultCache st' = resultCache st ∧ chunkCache st' = chunkCache st).
Proof.
  intros Hserved Hfair. split; [|split; [|split; [|split]]].
  - intros calls.
    by destruct (loader_ok_run_calls w Hserved Hfair calls new_loader loader_ok_new).
  - intros files Hnd Hfiles Hlen cache.
    assert (JSMap.keys cache = last_n MAX_CHUNK_CACHE_SIZE files) as Hkeys.
    { apply (load_all_keys w files new_loader); try done.
      - apply Forall_nil_2.
      - simpl. lia. }
    split; [|split; [done|]].
    + rewrite <-JSMap_keys_length, Hkeys, last_n_length. lia.
    + by apply load_all_from_store.
  - intros m queries Hm Hqs Hnd Hlen cache.
    destruct (queries_keys w queries m Hm Hqs Hnd) as [_ Hkeys].
    split; [|done]. unfold cache.
    rewrite <-JSMap_keys_length, Hkeys, last_n_length, length_fmap. lia.
  - intros st f chunk. apply loadChunk_hit.
  - intros st m p mr cached Hm Hhit.
    by rewrite (findMatchingAnswers_hit w p mr st m cached Hm Hhit).
Qed.

(** ** The properties on the small world *)

(** The manifest of the small world is well formed. *)
Lemma demo_manifest_buckets_unique : buckets_unique demo_manifest.
Proof. unfold buckets_unique, shard_names_nonempty. compute_done. Qed.

Lemma demo_manifest_names : shard_names_nonempty demo_manifest.
Proof. unfold buckets_unique, shard_names_nonempty. compute_done. Qed.

(** The pattern [A?PLE] selects the one shard of the bucket [A] of length 5. *)
Lemma getRelevantChunks_candidates_witness :
  ∃ files,
    getRelevantChunks "A?PLE" (set_manifest demo_manifest new_loader) =
      (Returns files, set_manifest demo_manifest new_loader) ∧
    files = ["chunk_5_A.json"].
Proof.
  destruct (getRelevantChunks_candidates (set_manifest demo_manifest new_loader)
              demo_manifest "A?PLE" "A" eq_refl
              demo_manifest_buckets_unique demo_manifest_names eq_refl)
    as (files & Hrun & Hliteral & _).
  exists files. split; [exact Hrun|].
  apply Hliteral; [done|]. eexists. split; reflexivity.
Defined.

(** Fetches of the small world complete in the order they were issued. *)
Lemma demo_world_fair : fetches_complete demo_world.
Proof. by intros pending. Qed.

(** The shard of the bucket [B] is missing from the store: the query for
    [?A?LE] still returns, with the best match of the two other shards. *)
Lemma shard_failures_are_absorbed_witness :
  ∃ r st',
    findMatchingAnswers demo_world "?A?LE" (Some 1%Z) new_loader = (Returns r, st') ∧
    r = [match_of "CABLE" 7].
Proof.
  destruct (shard_failures_are_absorbed demo_world new_loader "?A?LE" (Some 1%Z) "?"
              eq_refl eq_refl) as [Hok _].
  destruct (Hok demo_manifest (or_intror (conj eq_refl eq_refl)))
    as (r & st' & Hrun & _ & Hmiss).
  exists r, st'. split; [exact Hrun|].
  destruct Hmiss as (regex & files & Hregex & Hfiles & _ & _ & -> & _).
  { intros cached [Hget _]. discriminate Hget. }
  vm_compute in Hregex, Hfiles.
  injection Hregex as <-. injection Hfiles as <-. vm_compute. reflexivity.
Defined.

(** With [maxResults = 1] the search for [?????] stops at two matches, both
    from the first shard. *)
Lemma early_stop_only_for_wildcard_first_witness :
  ∃ found st',
    search demo_world (analyzePattern "?????") (pattern_atoms "?????") 1
      ["chunk_5_A.json"; "chunk_5_B.json"; "chunk_5_C.json"] new_loader =
      (Returns found, st') ∧
    found = [match_of "ANGLE" 40; match_of "APPLE" 12].
Proof.
  destruct (early_stop_only_for_wildcard_first demo_world (pattern_atoms "?????") 1
              ["chunk_5_A.json"; "chunk_5_B.json"; "chunk_5_C.json"] new_loader "?????"
              ltac:(lia)) as [Hwild _].
  destruct (Hwild eq_refl) as (_ & found & st' & Hrun & -> & _).
  eexists _, st'. split; [exact Hrun|]. vm_compute. reflexivity.
Defined.

(** A lower-case pattern is tolerated. *)
Lemma findMatchingAnswers_tolerates_nonempty_patterns_witness :
  ∃ r st', findMatchingAnswers demo_world "a?ple" None new_loader = (Returns r, st').
Proof.
  apply (findMatchingAnswers_tolerates_nonempty_patterns demo_world new_loader
           demo_manifest "a?ple" None).
  - right. split; reflexivity.
  - reflexivity.
  - discriminate.
Defined.

(** After a query for [A?PLE] with [maxResults = 1], the query with
    [maxResults = 2] returns the one cached match, although a scan would
    find two. *)
Lemma result_cache_ignores_maxResults_witness :
  ∃ r1 st1 st2,
    findMatchingAnswers demo_world "A?PLE" (Some 1%Z) new_loader = (Returns r1, st1) ∧
    findMatchingAnswers demo_world "A?PLE" (Some 2%Z) st1 = (Returns r1, st2) ∧
    length r1 = 1 ∧
    ∃ fresh st', findMatchingAnswers demo_world "A?PLE" (Some 2%Z) new_loader
                 = (Returns fresh, st') ∧ length fresh = 2.
Proof.
  destruct (result_cache_ignores_maxResults demo_world new_loader demo_manifest
              "A?PLE" 1 2) as (r1 & st1 & Hfirst & Hlen & Hsecond).
  - right. split; reflexivity.
  - reflexivity.
  - discriminate.
  - intros cached [Hget _]. discriminate Hget.
  - lia.
  - vm_compute in Hfirst. injection Hfirst as <- <-.
    destruct Hsecond as [st2 Hsecond].
    { intros cached Hget. vm_compute in Hget. injection Hget as <-. vm_compute.
      discriminate. }
    eexists _, _, st2. split; [vm_compute; reflexivity|]. split; [exact Hsecond|].
    split; [reflexivity|]. eexists _, _. split; [vm_compute; reflexivity|reflexivity].
Defined.

(** The shard that would hold the clues of [BREAD] is missing: no clues,
    no error. *)
Lemma getClues_absorbs_shard_failures_witness :
  ∃ r st', getClues demo_world "bread" None new_loader = (Returns r, st') ∧ r = [].
Proof.
  destruct (getClues_absorbs_shard_failures demo_world new_loader "bread" None "B"
              eq_refl) as [Hok _].
  destruct (Hok demo_manifest (or_intror (conj eq_refl eq_refl)))
    as (r & st' & Hrun & _ & Hfail).
  exists r, st'. split; [exact Hrun|].
  apply (Hfail "chunk_5_B.json"); [|reflexivity].
  eexists. split; reflexivity.
Defined.

(** The clues stored for [APPLE] are [a], [a], [b]: the lookup returns at
    most two clues, distinct, among them. *)
Lemma getClues_distinct_stored_clues_witness :
  ∃ r st',
    getClues demo_world "apple" None new_loader = (Returns r, st') ∧
    NoDup r ∧ r ⊆ ["a"; "a"; "b"] ∧ length r ≤ 2.
Proof.
  destruct (getClues_distinct_stored_clues demo_world new_loader demo_manifest
              "apple" None "A" "chunk_5_A.json" chunk_5_A)
    as (r & st' & Hrun & Hnd & Hsub & Hlen & _).
  - right. split; reflexivity.
  - reflexivity.
  - eexists. split; reflexivity.
  - reflexivity.
  - reflexivity.
  - vm_compute. discriminate.
  - exists r, st'. split; [exact Hrun|]. split; [exact Hnd|]. split; [exact Hsub|].
    etrans; [exact Hlen|]. vm_compute. lia.
Defined.

(** Three calls, one of which throws, keep the bounds; twelve shard loads
    leave the last ten shards; a hundred and one queries leave a hundred
    entries. *)
Lemma caches_are_bounded_and_evict_oldest_first_witness :
  caches_bounded
    (run_calls wide_world
       [Call_findMatchingAnswers "?????" None; Call_getClues "apple" None;
        Call_findMatchingAnswers "" None] new_loader) ∧
  JSMap.keys (chunkCache (load_all wide_world (shard_names 12) new_loader)) =
    last_n 10 (shard_names 12) ∧
  JSMap.size
    (resultCache
       (run_calls wide_world (query_call <$> queries_A 101) new_loader)) = 100.
Proof.
  destruct (caches_are_bounded_and_evict_oldest_first wide_world)
    as (Hbounded & Hshards & Hqueries & _).
  - intros m [= <-]. unfold shard_names_nonempty. compute_done.
  - by intros pending.
  - split; [apply Hbounded|]. split.
    + apply (Hshards (shard_names 12)).
      * compute_done.
      * apply Forall_forall. intros f Hf. split; [|by eexists].
        revert f Hf. apply Forall_forall. compute_done.
      * vm_compute. lia.
    + apply (Hqueries demo_manifest (queries_A 101)).
      * reflexivity.
      * compute_done.
      * compute_done.
      * vm_compute. lia.
Defined.

(** * Further properties of the engine *)

(** ** The pattern analyzer *)

Lemma wildcard_positions_from_elem k p i :
  i ∈ wildcard_positions_from k p ↔ k ≤ i ∧ at_index p (i - k) = Some "?"%char.
Proof.
  revert k. induction p as [|c r IH]; intros k; simpl.
  - split; [by intros ?%elem_of_nil|]. by intros [_ ?].
  - assert (i ∈ wildcard_positions_from (S k) r ↔
            S k ≤ i ∧ at_index (String c r) (i - k) = Some "?"%char) as Hrest.
    { rewrite IH. split; intros [Hle Hi]; (split; [done|]).
      - replace (i - k) with (S (i - S k)) by lia. done.
      - replace (i - k) with (S (i - S k)) in Hi by lia. done. }
    destruct (Ascii.eqb c "?") eqn:Hc.
    + apply Ascii.eqb_eq in Hc as ->. rewrite elem_of_cons, Hrest. split.
      * intros [->|[Hle Hi]]; [|split; [lia|done]].
        split; [done|]. by rewrite Nat.sub_diag.
      * intros [Hle Hi]. destruct (decide (i = k)) as [->|Hne]; [by left|].
        right. split; [lia|done].
    + apply Ascii.eqb_neq in Hc. rewrite Hrest. split.
      * intros [Hle Hi]. split; [lia|done].
      * intros [Hle Hi]. split; [|done].
        destruct (decide (i = k)) as [->|Hne]; [|lia].
        rewrite Nat.sub_diag in Hi. simpl in Hi. congruence.
Qed.

Lemma wildcard_positions_from_sorted k p :
  StronglySorted lt (wildcard_positions_from k p).
Proof.
  revert k. induction p as [|c r IH]; intros k; simpl; [constructor|].
  destruct (Ascii.eqb c "?"); [|apply IH].
  constructor; [apply IH|]. apply Forall_forall.
  intros i [Hle _]%wildcard_positions_from_elem. lia.
Qed.

Lemma wildcard_positions_from_length k p :
  length (wildcard_positions_from k p) ≤ String.length p.
Proof.
  revert k. induction p as [|c r IH]; intros k; simpl; [done|].
  specialize (IH (S k)). destruct (Ascii.eqb c "?"); simpl; lia.
Qed.

Lemma wildcard_positions_all k p :
  (∀ i c, at_index p i = Some c → c = "?"%char) →
  length (wildcard_positions_from k p) = String.length p.
Proof.
  revert k. induction p as [|c r IH]; intros k Hall; simpl; [done|].
  rewrite (Hall 0 c eq_refl). simpl. f_equal. apply IH.
  intros i c' Hi. by apply (Hall (S i)).
Qed.

(** X1. The analyzer lists exactly the indices at which the pattern has
    the wildcard, in increasing order, and counts no more wildcards than
    the pattern has characters. *)
Theorem analyzePattern_lists_the_wildcards (p : string) :
  let analysis := analyzePattern p in
  (∀ i, i ∈ wildcardPositions analysis ↔ at_index p i = Some "?"%char) ∧
  StronglySorted lt (wildcardPositions analysis) ∧
  wildcardCount analysis ≤ String.length p ∧
  (startsWithWildcard analysis = true ↔ 0 ∈ wildcardPositions analysis).
Proof.
  simpl. split; [|split; [|split]].
  - intros i. rewrite wildcard_positions_from_elem, Nat.sub_0_r.
    split; [by intros [_ ?]|]. intros ?. split; [lia|done].
  - apply wildcard_positions_from_sorted.
  - apply wildcard_positions_from_length.
  - rewrite wildcard_positions_from_elem, bool_decide_eq_true. simpl.
    split; [intros ?; split; [lia|done]|by intros [_ ?]].
Qed.

(** X2. The cost classes of the analyzer: a high-cost pattern always
    starts with the wildcard and takes the parallel strategy; a pattern
    that starts with a literal is never high-cost, however many wildcards
    follow, and takes the direct strategy; a non-empty pattern made of
    wildcards only is always high-cost. *)
Theorem analyzePattern_cost_classes (p : string) :
  let analysis := analyzePattern p in
  (isHighCostPattern analysis = true →
     at_index p 0 = Some "?"%char ∧
     searchStrategy analysis = "parallel-optimized") ∧
  (∀ c, at_index p 0 = Some c → c ≠ "?"%char →
     isHighCostPattern analysis = false ∧ searchStrategy analysis = "direct") ∧
  (p ≠ "" → (∀ i c, at_index p i = Some c → c = "?"%char) →
     isHighCostPattern analysis = true).
Proof.
  cbv zeta. split; [|split].
  - unfold analyzePattern, isHighCostPattern, searchStrategy.
    intros [Hq _]%andb_prop. apply bool_decide_eq_true in Hq.
    split; [done|]. by rewrite bool_decide_eq_true_2.
  - intros c Hc Hne. unfold analyzePattern, isHighCostPattern, searchStrategy.
    rewrite bool_decide_eq_false_2; [done|]. congruence.
  - intros Hne Hall. unfold analyzePattern, isHighCostPattern.
    destruct (nonempty_first p Hne) as [c Hc].
    rewrite bool_decide_eq_true_2 by (by rewrite Hc, (Hall 0 c Hc)).
    rewrite wildcard_positions_all by done. simpl.
    apply orb_true_intro. right. apply Nat.ltb_lt.
    destruct p; [done|]. simpl. lia.
Qed.

(** ** Invariants, generically *)

Section MapFacts.

Context {V : Type}.
Implicit Types (m : JSMap.t V) (k : string) (v : V).

Lemma JSMap_get_delete_ne m k k' :
  k ≠ k' → JSMap.get (JSMap.delete m k) k' = JSMap.get m k'.
Proof.
  intros Hne. induction m as [|[k0 v0] r IH]; simpl; [done|].
  destruct (decide (k0 = k)) as [->|Hk0]; simpl.
  - by rewrite decide_False.
  - by rewrite IH.
Qed.

Lemma JSMap_get_delete_eq m k :
  NoDup (JSMap.keys m) → JSMap.get (JSMap.delete m k) k = None.
Proof.
  unfold JSMap.keys. induction m as [|[k0 v0] r IH]; csimpl; [done|].
  intros [Hfresh Hr]%NoDup_cons.
  destruct (decide (k0 = k)) as [->|Hk0]; simpl.
  - by apply JSMap_get_None.
  - rewrite decide_False by done. by apply IH.
Qed.

Lemma JSMap_get_set_ne m k k' v :
  k ≠ k' → JSMap.get (JSMap.set m k v) k' = JSMap.get m k'.
Proof.
  intros Hne. induction m as [|[k0 v0] r IH]; simpl.
  - by rewrite decide_False.
  - destruct (decide (k0 = k)) as [->|Hk0]; simpl.
    + by rewrite !decide_False.
    + by rewrite IH.
Qed.

Lemma JSMap_size_delete_in m k :
  k ∈ JSMap.keys m → S (JSMap.size (JSMap.delete m k)) = JSMap.size m.
Proof.
  unfold JSMap.keys, JSMap.size. induction m as [|[k0 v0] r IH]; csimpl.
  - by intros ?%elem_of_nil.
  - destruct (decide (k0 = k)) as [->|Hk0]; simpl; [done|].
    intros [?|Hin]%elem_of_cons; [congruence|]. by rewrite IH.
Qed.

Lemma JSMap_keys_delete_sublist m k :
  JSMap.keys (JSMap.delete m k) `sublist_of` JSMap.keys m.
Proof.
  unfold JSMap.keys. induction m as [|[k0 v0] r IH]; csimpl; [done|].
  case_decide; csimpl; [by apply sublist_cons|by apply sublist_skip].
Qed.

Lemma JSMap_NoDup_delete m k :
  NoDup (JSMap.keys m) → NoDup (JSMap.keys (JSMap.delete m k)).
Proof. intros Hm. eapply sublist_NoDup; [done|apply JSMap_keys_delete_sublist]. Qed.

Lemma JSMap_NoDup_delete_oldest m :
  NoDup (JSMap.keys m) → NoDup (JSMap.keys (JSMap.delete_oldest m)).
Proof.
  unfold JSMap.delete_oldest. destruct (JSMap.first_key m) as [k|]; [|done].
  destruct (truthy k); [|done]. apply JSMap_NoDup_delete.
Qed.

Lemma JSMap_NoDup_set m k v :
  NoDup (JSMap.keys m) → NoDup (JSMap.keys (JSMap.set m k v)).
Proof.
  intros Hm. rewrite JSMap_keys_set. case_decide as Hk; [done|].
  apply NoDup_app. split; [done|]. split; [|apply NoDup_singleton].
  intros x Hx ->%list_elem_of_singleton. done.
Qed.

Lemma JSMap_delete_oldest_elem m kv : kv ∈ JSMap.delete_oldest m → kv ∈ m.
Proof.
  unfold JSMap.delete_oldest. destruct (JSMap.first_key m) as [k|]; [|done].
  destruct (truthy k); [|done]. apply JSMap_delete_elem.
Qed.

End MapFacts.

Lemma chunkCache_store_NoDup f chunk (c : JSMap.t Chunk) :
  NoDup (JSMap.keys c) → NoDup (JSMap.keys (chunkCache_store f chunk c)).
Proof.
  intros Hc. unfold chunkCache_store.
  destruct (_ <? _); [apply JSMap_NoDup_delete_oldest|]; by apply JSMap_NoDup_set.
Qed.

(** An invariant that survives the writes the methods make survives the
    methods, whether they return or throw. The first section covers the
    methods that leave the result cache alone. *)
Section Frames.

Variable w : World.
Variable I : Loader → Prop.

Hypothesis I_manifest : ∀ m st,
  r2_manifest w = R2Body m → manifest st = None → I st → I (set_manifest m st).
Hypothesis I_chunk : ∀ f chunk st,
  r2_chunk w (chunk_key f) = R2Body chunk →
  I st → I (set_chunkCache (chunkCache_store f chunk (chunkCache st)) st).
Hypothesis I_clock : ∀ n st, I st → I (set_clock_reads n st).
Hypothesis I_random : ∀ n st, I st → I (set_random_draws n st).

Lemma frame_loadManifest : inv_spec I (loadManifest w) (λ _, True).
Proof.
  intros st Hst. split; [|done]. unfold loadManifest, bind, this.
  destruct (manifest st) eqn:Hm; [done|].
  destruct (r2_manifest w) eqn:Hw; simpl; try done. by apply I_manifest.
Qed.

Lemma frame_loadChunk f : inv_spec I (loadChunk w f) (λ _, True).
Proof.
  intros st Hst. split; [|done]. rewrite loadChunk_run.
  destruct (JSMap.get (chunkCache st) f); [done|].
  destruct (r2_chunk w (chunk_key f)) eqn:Hf; simpl; try done. by apply I_chunk.
Qed.

Lemma frame_settle files st :
  I st → I (set_chunkCache (fold_left (settle w) files (chunkCache st)) st).
Proof.
  revert st. induction files as [|f files IH]; intros st Hst; simpl.
  - by rewrite set_chunkCache_id.
  - unfold settle at 2. destruct (r2_chunk w (chunk_key f)) as [| | |chunk] eqn:Hf;
      try by apply IH.
    specialize (IH _ (I_chunk f chunk st Hf Hst)).
    by rewrite set_chunkCache_twice in IH.
Qed.

Lemma frame_loadChunksParallel files :
  inv_spec I (loadChunksParallel w files) (λ _, True).
Proof.
  intros st Hst. split; [|done]. rewrite loadChunksParallel_run. simpl.
  by apply frame_settle.
Qed.

Lemma frame_getRelevantChunks p : inv_spec I (getRelevantChunks p) (λ _, True).
Proof. intros st Hst. split; [|done]. by rewrite getRelevantChunks_state. Qed.

Lemma frame_now : inv_spec I (now w) (λ _, True).
Proof. intros st Hst. split; [|done]. by apply I_clock. Qed.

Lemma frame_random : inv_spec I (random w) (λ _, True).
Proof. intros st Hst. split; [|done]. by apply I_random. Qed.

Lemma frame_search_direct regex files found :
  inv_spec I (search_direct w regex files found) (λ _, True).
Proof.
  revert found. induction files as [|f files IH]; intros found; simpl.
  - by apply inv_ret.
  - eapply (inv_bind _ _ _ (λ _, True)); [|intros found' _; apply IH].
    apply inv_try_catch; [|intros; by apply inv_ret].
    eapply inv_bind; [apply frame_loadChunk|]. intros; by apply inv_ret.
Qed.

Lemma frame_search analysis regex maxResults files :
  inv_spec I (search w analysis regex maxResults files) (λ _, True).
Proof.
  unfold search. case_decide; [apply frame_search_direct|].
  case_decide; [|by apply inv_ret]. unfold search_parallel.
  eapply inv_bind; [apply frame_loadChunksParallel|]. intros; by apply inv_ret.
Qed.

Lemma frame_shuffle_from i l : inv_spec I (shuffle_from w i l) (λ _, True).
Proof.
  revert l. induction i as [|i IH]; intros l; simpl; [by apply inv_ret|].
  eapply inv_bind; [apply frame_random|]. intros; apply IH.
Qed.

Lemma frame_getClues a maxClues : inv_spec I (getClues w a maxClues) (λ _, True).
Proof.
  unfold getClues.
  eapply inv_bind; [apply frame_loadManifest|]. intros _ _.
  destruct (at_index _ 0); [|apply inv_throw].
  eapply inv_bind; [apply inv_this|]. intros st _.
  destruct (_ ≫= _) as [file|]; [|by apply inv_ret].
  destruct (negb (truthy file)); [by apply inv_ret|].
  apply inv_try_catch; [|intros; by apply inv_ret].
  eapply inv_bind; [apply frame_loadChunk|]. intros chunk _.
  eapply inv_bind; [apply frame_shuffle_from|]. intros; by apply inv_ret.
Qed.

(** The methods that write the result cache, for an invariant that
    survives those writes too. *)
Hypothesis I_delete : ∀ k st,
  I st → I (set_resultCache (JSMap.delete (resultCache st) k) st).
Hypothesis I_delete_oldest : ∀ st,
  I st → I (set_resultCache (JSMap.delete_oldest (resultCache st)) st).
Hypothesis I_set : ∀ k entry st,
  I st → I (set_resultCache (JSMap.set (resultCache st) k entry) st).

Lemma frame_getCachedResult p : inv_spec I (getCachedResult w p) (λ _, True).
Proof.
  intros st Hst. split; [|done]. rewrite getCachedResult_run.
  destruct (JSMap.get (resultCache st) (getCacheKey p)); [|done].
  pose proof (I_clock (S (clock_reads st)) st Hst) as Hst1.
  destruct (CACHE_TTL <? _)%Z; [|done].
  exact (I_delete _ _ Hst1).
Qed.

Lemma frame_setCachedResult p found : inv_spec I (setCachedResult w p found) (λ _, True).
Proof.
  intros st Hst. split; [|done]. rewrite setCachedResult_run.
  unfold resultCache_store.
  pose proof (I_clock (S (clock_reads st)) st Hst) as Hst1.
  destruct (MAX_RESULT_CACHE_SIZE <=? JSMap.size (resultCache st)).
  - exact (I_set _ _ _ (I_delete_oldest _ Hst1)).
  - exact (I_set _ _ _ Hst1).
Qed.

Lemma frame_findMatchingAnswers p maxResults :
  inv_spec I (findMatchingAnswers w p maxResults) (λ _, True).
Proof.
  unfold findMatchingAnswers.
  eapply inv_bind; [apply frame_loadManifest|]. intros _ _.
  eapply inv_bind; [apply frame_getCachedResult|]. intros [cached|] _.
  { by apply inv_ret. }
  eapply (inv_bind _ _ _ (λ _, True)).
  { destruct (compile_matcher _); [by apply inv_ret|apply inv_throw]. }
  intros regex _.
  eapply inv_bind; [apply frame_getRelevantChunks|]. intros files _.
  eapply (inv_bind _ _ _ (λ _, True)); [apply frame_search|]. intros found _.
  eapply inv_bind; [apply frame_setCachedResult|]. intros; by apply inv_ret.
Qed.

Lemma frame_run_calls calls st : I st → I (run_calls w calls st).
Proof.
  unfold run_calls. revert st.
  induction calls as [|c calls IH]; intros st Hst; simpl; [done|].
  apply IH. destruct c; simpl.
  - by apply frame_findMatchingAnswers.
  - by apply frame_getClues.
Qed.

End Frames.

(** ** The manifest and the caches, over time *)

Lemma findMatchingAnswers_loaded w p mr st m :
  manifest_available w st m →
  findMatchingAnswers w p mr st = findMatchingAnswers w p mr (set_manifest m st).
Proof.
  intros Hm. unfold findMatchingAnswers.
  rewrite (bind_returns _ _ _ _ _ (loadManifest_available w st m Hm)).
  by rewrite (bind_returns _ _ _ _ _
                (loadManifest_available w (set_manifest m st) m (or_introl eq_refl))).
Qed.

Lemma getClues_loaded w a mc st m :
  manifest_available w st m →
  getClues w a mc st = getClues w a mc (set_manifest m st).
Proof.
  intros Hm. unfold getClues.
  rewrite (bind_returns _ _ _ _ _ (loadManifest_available w st m Hm)).
  by rewrite (bind_returns _ _ _ _ _
                (loadManifest_available w (set_manifest m st) m (or_introl eq_refl))).
Qed.

(** X3. The manifest is loaded once: after a call has loaded it, no call
    replaces or drops it, whatever the store serves later; and on a store
    that serves a manifest, it is loaded by the first call, whatever that
    call is. *)
Theorem manifest_is_loaded_once (w : World) (calls : list Call) :
  forallb modelled_call calls = true →
  (∀ st m, manifest st = Some m → manifest (run_calls w calls st) = Some m) ∧
  (∀ m, r2_manifest w = R2Body m → calls ≠ [] →
        manifest (run_calls w calls new_loader) = Some m).
Proof.
  intros _. assert (∀ calls st m, manifest st = Some m →
                        manifest (run_calls w calls st) = Some m) as Hkept.
  { intros calls' st m Hm.
    by apply (frame_run_calls w (λ st, manifest st = Some m)); try congruence. }
  split; [apply Hkept|]. intros m Hw Hne.
  destruct calls as [|c calls]; [done|].
  change (run_calls w (c :: calls) new_loader)
    with (run_calls w calls (run_call w new_loader c)).
  apply Hkept.
  assert (manifest_available w new_loader m) as Hm by by right.
  destruct c as [p mr|a mc]; simpl.
  - rewrite (findMatchingAnswers_loaded w p mr new_loader m Hm).
    by apply (frame_findMatchingAnswers w (λ st, manifest st = Some m));
      try congruence.
  - rewrite (getClues_loaded w a mc new_loader m Hm).
    by apply (frame_getClues w (λ st, manifest st = Some m)); try congruence.
Qed.

Lemma mirrors_store_store w f chunk cache :
  r2_chunk w (chunk_key f) = R2Body chunk →
  mirrors_store w cache → mirrors_store w (chunkCache_store f chunk cache).
Proof.
  unfold mirrors_store. rewrite !Forall_forall.
  intros Hf Hcache kv [->|Hkv]%chunkCache_store_elem; [done|by apply Hcache].
Qed.

Lemma caches_coherent_new w : caches_coherent w new_loader.
Proof. repeat split; simpl; try apply NoDup_nil_2. apply Forall_nil_2. Qed.

(** X4. Cache coherence: after any sequence of calls on a new loader,
    neither cache holds a key twice, and every cached shard is the chunk
    that the store holds under the shard's file name. *)
Theorem caches_stay_coherent (w : World) (calls : list Call) :
  forallb modelled_call calls = true →
  caches_coherent w (run_calls w calls new_loader).
Proof.
  intros _. apply frame_run_calls; [..|apply caches_coherent_new].
  - by intros m st _ _ (? & ? & ?).
  - intros f chunk st Hf (? & ? & ?). split; [|split; [done|]].
    + by apply chunkCache_store_NoDup.
    + by apply mirrors_store_store.
  - by intros n st (? & ? & ?).
  - by intros n st (? & ? & ?).
  - intros k st (? & ? & ?). split; [done|]. split; [|done].
    by apply JSMap_NoDup_delete.
  - intros st (? & ? & ?). split; [done|]. split; [|done].
    by apply JSMap_NoDup_delete_oldest.
  - intros k entry st (? & ? & ?). split; [done|]. split; [|done].
    by apply JSMap_NoDup_set.
Qed.

(** X5. Result cache round trip: a list stored for a pattern is what the
    next lookup returns, for the pattern in any letter case, as long as
    the clock has advanced by no more than the TTL (exactly the TTL is
    still fresh). *)
Theorem result_cache_round_trip (w : World) (st : Loader) (p p' : string)
    (found : list AnswerMatch) :
  toUpperCase p' = toUpperCase p →
  let st1 := (setCachedResult w p found st).2 in
  (Date_now w (clock_reads st1) - Date_now w (clock_reads st) <= CACHE_TTL)%Z →
  (getCachedResult w p' st1).1 = Returns (Some found).
Proof.
  intros Hp. rewrite setCachedResult_run. cbn [snd]. intros Hfresh.
  set (entry := {| results := found; timestamp := Date_now w (clock_reads st) |}).
  rewrite (getCachedResult_hit w p' _ entry); [done|].
  split; [|done]. unfold getCacheKey. rewrite Hp. apply JSMap_get_set_eq.
Qed.

(** X6. Expiry: a lookup that finds an entry older than the TTL returns a
    miss and removes that entry and no other; the pattern then misses at
    any later time, until it is stored again. *)
Theorem result_cache_expiry (w : World) (st : Loader) (p : string)
    (cached : CachedResult) :
  NoDup (JSMap.keys (resultCache st)) →
  JSMap.get (resultCache st) (getCacheKey p) = Some cached →
  (CACHE_TTL < Date_now w (clock_reads st) - timestamp cached)%Z →
  let st' := (getCachedResult w p st).2 in
  (getCachedResult w p st).1 = Returns None ∧
  JSMap.get (resultCache st') (getCacheKey p) = None ∧
  (∀ k, k ≠ getCacheKey p →
        JSMap.get (resultCache st') k = JSMap.get (resultCache st) k) ∧
  S (JSMap.size (resultCache st')) = JSMap.size (resultCache st) ∧
  (∀ w', getCachedResult w' p st' = (Returns None, st')).
Proof.
  intros Hnd Hget Hstale. rewrite getCachedResult_run, Hget.
  apply Z.ltb_lt in Hstale. rewrite Hstale. cbn [fst snd].
  assert (JSMap.get (JSMap.delete (resultCache st) (getCacheKey p)) (getCacheKey p)
          = None) as Hgone by by apply JSMap_get_delete_eq.
  split; [done|]. split; [done|]. split; [|split].
  - intros k Hk. by apply JSMap_get_delete_ne.
  - apply JSMap_size_delete_in. apply dec_stable. intros Hnin.
    apply JSMap_get_None in Hnin. congruence.
  - intros w'. rewrite getCachedResult_run. cbn [resultCache set_resultCache].
    by rewrite Hgone.
Qed.

(** X7. A query answered from the result cache reads nothing outside the
    loader but the clock: in any other world that shows the same time,
    whatever its store holds, the call returns the same list and leaves
    the same loader. *)
Theorem cache_hit_reads_no_store (w w' : World) (st : Loader) (m : ChunkManifest)
    (p : string) (mr : option Z) (cached : CachedResult) :
  manifest st = Some m →
  fresh_entry w st (toUpperCase p) cached →
  Date_now w' (clock_reads st) = Date_now w (clock_reads st) →
  findMatchingAnswers w' p mr st = findMatchingAnswers w p mr st.
Proof.
  intros Hm Hhit Hclock.
  assert (fresh_entry w' st (toUpperCase p) cached) as Hhit'.
  { destruct Hhit as [Hget Hfresh]. split; [done|]. by rewrite Hclock. }
  rewrite (findMatchingAnswers_hit w p mr st m cached (or_introl Hm) Hhit).
  by rewrite (findMatchingAnswers_hit w' p mr st m cached (or_introl Hm) Hhit').
Qed.

Lemma chunkCache_store_get f chunk (c : JSMap.t Chunk) :
  f ∉ JSMap.keys c → JSMap.get (chunkCache_store f chunk c) f = Some chunk.
Proof.
  intros Hf. unfold chunkCache_store.
  destruct (_ <? _) eqn:Hfull; [|apply JSMap_get_set_eq].
  apply Nat.ltb_lt in Hfull.
  unfold JSMap.delete_oldest, JSMap.first_key.
  rewrite JSMap_keys_set, decide_False by done.
  rewrite JSMap_size_set, decide_False in Hfull by done.
  destruct (JSMap.keys c) as [|k ks] eqn:Hkeys.
  { rewrite <-JSMap_keys_length, Hkeys in Hfull. simpl in Hfull.
    unfold MAX_CHUNK_CACHE_SIZE in Hfull. lia. }
  simpl. destruct (truthy k); [|apply JSMap_get_set_eq].
  rewrite JSMap_get_delete_ne; [apply JSMap_get_set_eq|].
  intros ->. apply Hf. left.
Qed.

(** X8. Shard cache round trip: once a load of a shard has returned, the
    next load of the same shard returns the same chunk from the cache,
    changes nothing, and does not depend on the store any more. *)
Theorem loadChunk_then_hit (w w' : World) (f : string) (st st1 : Loader)
    (chunk : Chunk) :
  loadChunk w f st = (Returns chunk, st1) →
  loadChunk w' f st1 = (Returns chunk, st1).
Proof.
  rewrite loadChunk_run. intros Hload. apply loadChunk_hit.
  destruct (JSMap.get (chunkCache st) f) as [cached|] eqn:Hget.
  - by injection Hload as <- <-.
  - destruct (r2_chunk w (chunk_key f)) as [| | |body]; try done.
    injection Hload as <- <-. cbn [chunkCache set_chunkCache].
    apply chunkCache_store_get. by apply JSMap_get_None.
Qed.

(** ** What a query returns, after any history *)

Lemma JSMap_get_elem {V} (m : JSMap.t V) k v : JSMap.get m k = Some v → (k, v) ∈ m.
Proof.
  induction m as [|[k' v'] r IH]; simpl; [done|].
  case_decide as Hk; [intros [= ->]; subst; left|].
  intros H. right. by apply IH.
Qed.

Lemma Sorted_take {A} (R : A → A → Prop) n (l : list A) :
  Sorted R l → Sorted R (take n l).
Proof.
  revert n. induction l as [|x l IH]; intros [|n] Hl; simpl; try constructor.
  - apply IH. by apply Sorted_inv in Hl as [? _].
  - apply Sorted_inv in Hl as [_ Hx].
    destruct Hx as [|y l' Hxy]; destruct n; simpl; by constructor.
Qed.

Lemma Sorted_slice0 {A} (R : A → A → Prop) e (l : list A) :
  Sorted R l → Sorted R (slice0 e l).
Proof. unfold slice0. destruct (e <? 0)%Z; apply Sorted_take. Qed.

Lemma Forall_slice0 {A} (P : A → Prop) e (l : list A) :
  Forall P l → Forall P (slice0 e l).
Proof. unfold slice0. destruct (e <? 0)%Z; apply Forall_take. Qed.

Lemma inv_spec_value {A} (I : Loader → Prop) (m : M A) (φ : A → Prop) :
  inv_spec I m (λ _, True) → (∀ st a, (m st).1 = Returns a → φ a) →
  inv_spec I m φ.
Proof.
  intros Hm Hval st Hst. destruct (Hm st Hst) as [? _]. split; [done|].
  apply Hval.
Qed.

Section Soundness.

Variable regex : RegExp.t.

Local Abbreviation accepted := (λ a, RegExp.test regex (answer a) = true).

Lemma scan_answers_capped_accepted limit chunk_answers found :
  Forall accepted found →
  Forall accepted (scan_answers_capped regex limit chunk_answers found).
Proof.
  revert found. induction chunk_answers as [|a rest IH]; intros found Hfound; simpl;
    [done|].
  destruct (RegExp.test regex (answer a)) eqn:Ha; [|by apply IH].
  assert (Forall accepted (found ++ [a])) as Hfound'.
  { apply Forall_app. split; [done|]. by apply Forall_singleton. }
  destruct (limit <=? _)%Z; [done|by apply IH].
Qed.

Lemma scan_chunks_capped_accepted limit loaded found :
  Forall accepted found →
  Forall accepted (scan_chunks_capped regex limit loaded found).
Proof.
  revert found. induction loaded as [|chunk rest IH]; intros found Hfound; simpl;
    [done|].
  pose proof (scan_answers_capped_accepted limit (answers chunk) found Hfound).
  destruct (limit <=? _)%Z; [done|by apply IH].
Qed.

Lemma all_matches_accepted loaded : Forall accepted (all_matches regex loaded).
Proof.
  unfold all_matches. apply Forall_flat_map, Forall_forall. intros chunk _.
  apply Forall_forall. by intros a [? _]%list_elem_of_filter.
Qed.

Lemma search_accepted w analysis maxResults files st found :
  (search w analysis regex maxResults files st).1 = Returns found →
  Forall accepted found.
Proof.
  unfold search. case_decide.
  { destruct (search_direct_run w regex files [] st) as [c' ->].
    intros [= <-]. apply all_matches_accepted. }
  case_decide; [|by intros [= <-]].
  destruct (search_parallel_run w regex maxResults files st) as [c' ->].
  intros [= <-]. by apply scan_chunks_capped_accepted.
Qed.

End Soundness.

Section SoundQueries.

Variable w : World.

Lemma results_sound_lookup p :
  inv_spec results_sound (getCachedResult w (toUpperCase p))
    (λ hit, ∀ cached, hit = Some cached →
       (∃ regex, compile_matcher (toUpperCase p) = Some regex ∧
                 Forall (λ a, RegExp.test regex (answer a) = true) cached) ∧
       Sorted ranked cached).
Proof.
  intros st Hst. rewrite getCachedResult_run.
  destruct (JSMap.get (resultCache st) _) as [entry|] eqn:Hget;
    [|by split; [|intros ? [= <-] ? [=]]].
  destruct (CACHE_TTL <? _)%Z; cbn [fst snd].
  - split; [|by intros ? [= <-] ? [=]].
    unfold results_sound in *. cbn [resultCache set_resultCache set_clock_reads]. rewrite Forall_forall in Hst |- *.
    intros kv Hkv%JSMap_delete_elem. by apply Hst.
  - split; [exact Hst|]. intros hit [= <-] cached [= <-].
    apply JSMap_get_elem in Hget. unfold results_sound in Hst.
    rewrite Forall_forall in Hst.
    destruct (Hst _ Hget) as (p0 & regex & Hkey & Hregex & Hacc & Hsorted).
    simpl in *. apply getCacheKey_inj in Hkey. rewrite toUpperCase_idem in Hkey.
    rewrite Hkey. split; [by exists regex|done].
Qed.

Lemma results_sound_store p found regex :
  compile_matcher (toUpperCase p) = Some regex →
  Forall (λ a, RegExp.test regex (answer a) = true) found →
  Sorted ranked found →
  inv_spec results_sound (setCachedResult w (toUpperCase p) found) (λ _, True).
Proof.
  intros Hregex Hacc Hsorted st Hst. split; [|done].
  rewrite setCachedResult_run. cbn [snd]. unfold results_sound in *.
  cbn [resultCache set_resultCache]. rewrite Forall_forall in Hst |- *.
  unfold resultCache_store.
  intros kv [->|Hkv]%JSMap_set_elem.
  - exists (toUpperCase p), regex. simpl. by rewrite toUpperCase_idem.
  - apply Hst. destruct (_ <=? _); [by apply JSMap_delete_oldest_elem|done].
Qed.

Lemma results_sound_findMatchingAnswers p mr :
  inv_spec results_sound (findMatchingAnswers w p mr)
    (sound_result p (default default_maxResults mr)).
Proof.
  unfold findMatchingAnswers. set (maxResults := default default_maxResults mr).
  eapply inv_bind.
  { apply frame_loadManifest. by intros. } intros _ _.
  eapply inv_bind; [apply results_sound_lookup|]. intros [cached|] Hhit.
  { apply inv_ret. destruct (Hhit cached eq_refl) as [[regex [Hregex Hacc]] Hsorted].
    split; [|split].
    - exists regex. split; [done|]. by apply Forall_slice0.
    - by apply Sorted_slice0.
    - apply slice0_length. }
  destruct (compile_matcher (toUpperCase p)) as [regex|] eqn:Hregex.
  2:{ eapply (inv_bind _ _ _ (λ _, False)); [apply inv_throw|by intros ? []]. }
  eapply (inv_bind _ _ _ (λ r, r = regex)); [by apply inv_ret|]. intros _ ->.
  eapply (inv_bind _ _ _ (λ _, True)).
  { apply frame_getRelevantChunks. } intros files _.
  eapply (inv_bind _ _ _ (λ found, Forall (λ a, RegExp.test regex (answer a) = true) found)).
  { apply inv_spec_value; [|intros st found; apply search_accepted].
    apply frame_search; by intros. }
  intros found Hfound.
  set (sorted := slice0 maxResults (Array_sort by_count_desc found)).
  assert (Forall (λ a, RegExp.test regex (answer a) = true) sorted) as Hacc.
  { apply Forall_slice0. by rewrite Array_sort_perm. }
  assert (Sorted ranked sorted) as Hsorted.
  { apply Sorted_slice0, Array_sort_ranked. }
  eapply inv_bind; [by apply (results_sound_store p sorted regex)|]. intros _ _.
  apply inv_ret. split; [by exists regex|]. split; [done|]. apply slice0_length.
Qed.

(** After any sequence of calls on a new loader, the cached results are
    sound. *)
Lemma results_sound_run_calls calls : results_sound (run_calls w calls new_loader).
Proof.
  assert (∀ st, results_sound st → results_sound (run_calls w calls st)) as Hrun.
  { unfold run_calls. induction calls as [|c calls IH]; intros st Hst; simpl; [done|].
    apply IH. destruct c; simpl.
    - by apply results_sound_findMatchingAnswers.
    - apply frame_getClues; by intros. }
  apply Hrun, Forall_nil_2.
Qed.

End SoundQueries.

(** X9. After any sequence of calls, a query on a pattern of letters and
    wildcards returns only answers that match the pattern in full: the
    pattern's length, its letters at the literal positions, an upper-case
    letter at each wildcard. This holds for results served from the
    result cache as for scanned ones. *)
Theorem query_results_match_the_pattern (w : World) (calls : list Call)
    (p : string) (mr : option Z) (r : list AnswerMatch) (st' : Loader) :
  forallb modelled_call calls = true →
  query_pattern p = true →
  findMatchingAnswers w p mr (run_calls w calls new_loader) = (Returns r, st') →
  Forall (λ a, full_match (toUpperCase p) (answer a)) r.
Proof.
  intros _ Hp Hrun.
  destruct (results_sound_findMatchingAnswers w p mr _ (results_sound_run_calls w calls))
    as [_ Hsound].
  rewrite Hrun in Hsound. destruct (Hsound r eq_refl) as [(regex & Hregex & Hacc) _].
  rewrite (compile_matcher_normalized _ (toUpperCase_normalized p Hp)) in Hregex.
  injection Hregex as <-. eapply Forall_impl; [exact Hacc|]. intros a Ha.
  simpl in Ha. by rewrite test_anchored, match_here_pattern in Ha.
Qed.

(** X10. After any sequence of calls, the list a query returns is ranked:
    no answer is followed by one of a higher count, for results served
    from the result cache as for scanned ones. *)
Theorem query_results_are_ranked (w : World) (calls : list Call)
    (p : string) (mr : option Z) (r : list AnswerMatch) (st' : Loader) :
  forallb modelled_call calls = true →
  query_pattern p = true →
  findMatchingAnswers w p mr (run_calls w calls new_loader) = (Returns r, st') →
  StronglySorted ranked r.
Proof.
  intros _ _ Hrun.
  destruct (results_sound_findMatchingAnswers w p mr _ (results_sound_run_calls w calls))
    as [_ Hsound].
  rewrite Hrun in Hsound. destruct (Hsound r eq_refl) as (_ & Hsorted & _).
  apply Sorted_StronglySorted; [|done].
  intros a b c. unfold ranked. lia.
Qed.

Lemma inv_any {A} (m : M A) : inv_spec (λ _, True) m (λ _, True).
Proof. by intros st _. Qed.

(** X11. In any state of the loader, a query with a non-negative
    [maxResults] returns at most [maxResults] answers, and a query
    without the argument at most 100, whether the list is scanned or
    served from the result cache. *)
Theorem query_results_are_bounded (w : World) (st : Loader)
    (p : string) (mr : option Z) (r : list AnswerMatch) (st' : Loader) :
  (0 <= default default_maxResults mr)%Z →
  findMatchingAnswers w p mr st = (Returns r, st') →
  (Z.of_nat (length r) <= default default_maxResults mr)%Z.
Proof.
  intros Hmax Hrun.
  assert (inv_spec (λ _, True) (findMatchingAnswers w p mr)
            (λ r, (Z.of_nat (length r) <= default default_maxResults mr)%Z)) as Hspec.
  { unfold findMatchingAnswers.
    eapply inv_bind; [apply inv_any|]. intros _ _.
    eapply inv_bind; [apply inv_any|]. intros [cached|] _.
    { by apply inv_ret, slice0_length. }
    eapply inv_bind; [apply inv_any|]. intros regex _.
    eapply inv_bind; [apply inv_any|]. intros files _.
    eapply inv_bind; [apply inv_any|]. intros found _.
    eapply inv_bind; [apply inv_any|]. intros _ _.
    by apply inv_ret, slice0_length. }
  destruct (Hspec st I) as [_ Hval]. apply Hval. by rewrite Hrun.
Qed.

(** ** Completeness below the limits, and what a call reads *)

(** X12. When [maxClues] is at least the number of distinct clues stored
    for the answer, the lookup returns every stored clue, each once. *)
Theorem getClues_returns_every_clue_when_room (w : World) (st : Loader)
    (m : ChunkManifest) (a : string) (mc : option Z) (c : ascii)
    (file : string) (chunk : Chunk) :
  manifest_available w st m →
  at_index (toUpperCase a) 0 = Some c →
  let na := toUpperCase a in
  let maxClues := default default_maxClues mc in
  registered m (String.length na) (String (sanitize c) EmptyString) file →
  truthy file = true →
  fulfilled w (chunkCache st) file = Some chunk →
  let stored := default [] (clues chunk !! na) in
  (Z.of_nat (size (list_to_set stored : gset string)) <= maxClues)%Z →
  ∃ r st',
    getClues w a mc st = (Returns r, st') ∧
    NoDup r ∧ (∀ clue, clue ∈ r ↔ clue ∈ stored).
Proof.
  intros Hm Hc na maxClues Hfile%owning_shard_registered Htruthy Hload stored Hroom.
  destruct (getClues_run w a mc st m c Hm Hc) as (r & st' & Hrun & Hr).
  fold na in Hr. rewrite Hfile, Htruthy, Hload in Hr.
  destruct Hr as (shuffled & Hperm & ->). fold stored in Hperm. fold maxClues.
  exists (slice0 maxClues shuffled), st'. split; [done|].
  rewrite slice0_nonneg by lia. rewrite take_ge.
  - split; [rewrite Hperm; apply Set_from_NoDup|].
    intros clue. by rewrite Hperm, Set_from_elem.
  - rewrite Hperm, Set_from_length. lia.
Qed.

(** X13. The early stop loses nothing below the cap: when the shards that
    loaded hold at most [2 * maxResults] matches, the capped scan of the
    wildcard-first strategy accumulates every match, as the direct scan
    does, and so the query returns the [maxResults] best of all matches. *)
Theorem early_stop_is_exact_below_the_cap (w : World) (st : Loader)
    (m : ChunkManifest) (p : string) (maxResults : Z) (regex : RegExp.t)
    (files : list string) :
  manifest_available w st m →
  query_pattern p = true → at_index p 0 = Some "?"%char →
  cache_miss w st (toUpperCase p) →
  (1 <= maxResults)%Z →
  compile_matcher (toUpperCase p) = Some regex →
  getRelevantChunks (toUpperCase p) (set_manifest m st) =
    (Returns files, set_manifest m st) →
  let healthy := omap (fulfilled w (chunkCache st)) files in
  (Z.of_nat (length (all_matches regex healthy)) <= 2 * maxResults)%Z →
  scan_chunks_capped regex (maxResults * 2) healthy [] = all_matches regex healthy ∧
  ∃ st', findMatchingAnswers w p (Some maxResults) st =
         (Returns (slice0 maxResults
                     (Array_sort by_count_desc (all_matches regex healthy))), st').
Proof.
  intros Hm Hp Hc Hmiss Hmax Hregex Hfiles healthy Hfew.
  assert (scan_chunks_capped regex (maxResults * 2) healthy [] =
          all_matches regex healthy) as Hscan.
  { rewrite scan_chunks_capped_take by (simpl; lia). rewrite app_nil_l.
    apply take_ge. lia. }
  split; [done|].
  destruct (findMatchingAnswers_miss w p (Some maxResults) st m "?" Hm Hp Hc Hmiss)
    as (regex' & files' & st2 & c' & Hregex' & Hfiles' & _ & _ & _ & Hrun).
  rewrite Hregex in Hregex'. injection Hregex' as <-.
  rewrite Hfiles in Hfiles'. injection Hfiles' as <-.
  eexists. rewrite Hrun. unfold accumulated. rewrite bool_decide_eq_true_2 by done.
  simpl. fold healthy. by rewrite Hscan.
Qed.

Lemma getCachedResult_manifest w p st :
  manifest (getCachedResult w p st).2 = manifest st.
Proof.
  rewrite getCachedResult_run. destruct (JSMap.get _ _); [|done].
  by destruct (_ <? _)%Z.
Qed.

Section Agreement.

(** Two worlds that show the same clock and complete fetches in the same
    order. *)
Variables w w' : World.
Hypothesis Hclock : ∀ n, Date_now w' n = Date_now w n.
Hypothesis Horder : ∀ pending, settle_order w' pending = settle_order w pending.
Hypothesis Hfair : fetches_complete w.

Lemma loadChunk_agree f st :
  r2_chunk w' (chunk_key f) = r2_chunk w (chunk_key f) →
  loadChunk w' f st = loadChunk w f st.
Proof. intros Hf. rewrite !loadChunk_run. by rewrite Hf. Qed.

Lemma search_direct_agree regex files found st :
  (∀ f, f ∈ files → r2_chunk w' (chunk_key f) = r2_chunk w (chunk_key f)) →
  search_direct w' regex files found st = search_direct w regex files found st.
Proof.
  revert found st. induction files as [|f files IH]; intros found st Hfiles; [done|].
  simpl. unfold bind at 1 3, try_catch, bind.
  rewrite (loadChunk_agree f st) by (apply Hfiles; left).
  destruct (loadChunk w f st) as [[chunk|e] st1]; unfold ret;
    apply IH; intros f' Hf'; apply Hfiles; by right.
Qed.

Lemma settle_agree (files : list string) cache :
  (∀ f, f ∈ files → r2_chunk w' (chunk_key f) = r2_chunk w (chunk_key f)) →
  fold_left (settle w') files cache = fold_left (settle w) files cache.
Proof.
  revert cache. induction files as [|f files IH]; intros cache Hfiles; [done|].
  simpl. unfold settle at 2 4. rewrite (Hfiles f) by left.
  apply IH. intros f' Hf'. apply Hfiles. by right.
Qed.

Lemma fulfilled_agree cache (files : list string) :
  (∀ f, f ∈ files → r2_chunk w' (chunk_key f) = r2_chunk w (chunk_key f)) →
  omap (fulfilled w' cache) files = omap (fulfilled w cache) files.
Proof.
  induction files as [|f files IH]; intros Hfiles; [done|].
  csimpl. rewrite IH by (intros f' Hf'; apply Hfiles; by right).
  unfold fulfilled. by rewrite (Hfiles f) by left.
Qed.

Lemma loadChunksParallel_agree files st :
  (∀ f, f ∈ files → r2_chunk w' (chunk_key f) = r2_chunk w (chunk_key f)) →
  loadChunksParallel w' files st = loadChunksParallel w files st.
Proof.
  intros Hfiles. rewrite !loadChunksParallel_run, Horder.
  rewrite fulfilled_agree by done. rewrite settle_agree; [done|].
  intros f Hf. rewrite (Hfair _) in Hf.
  apply list_elem_of_filter in Hf as [_ Hf]. by apply Hfiles.
Qed.

Lemma search_agree analysis regex maxResults files st :
  (∀ f, f ∈ files → r2_chunk w' (chunk_key f) = r2_chunk w (chunk_key f)) →
  search w' analysis regex maxResults files st =
  search w analysis regex maxResults files st.
Proof.
  intros Hfiles. unfold search.
  case_decide; [by apply search_direct_agree|].
  case_decide; [|done]. unfold search_parallel, bind.
  by rewrite loadChunksParallel_agree.
Qed.

Lemma getCachedResult_agree p st : getCachedResult w' p st = getCachedResult w p st.
Proof. by rewrite !getCachedResult_run, Hclock. Qed.

Lemma setCachedResult_agree p found st :
  setCachedResult w' p found st = setCachedResult w p found st.
Proof. by rewrite !setCachedResult_run, Hclock. Qed.

Lemma findMatchingAnswers_agree p mr st m files :
  manifest_available w st m → manifest_available w' st m →
  (getRelevantChunks (toUpperCase p) (set_manifest m st)).1 = Returns files →
  (∀ f, f ∈ files → r2_chunk w' (chunk_key f) = r2_chunk w (chunk_key f)) →
  findMatchingAnswers w' p mr st = findMatchingAnswers w p mr st.
Proof.
  intros Hm Hm' Hfiles Hagree. unfold findMatchingAnswers.
  rewrite (bind_returns _ _ _ _ _ (loadManifest_available w st m Hm)).
  rewrite (bind_returns _ _ _ _ _ (loadManifest_available w' st m Hm')).
  unfold bind at 1 6. rewrite getCachedResult_agree.
  destruct (getCachedResult w (toUpperCase p) (set_manifest m st))
    as [[[cached|]|e] st2] eqn:Hlookup; [done| |done].
  assert (manifest st2 = manifest (set_manifest m st)) as Hm2.
  { pose proof (getCachedResult_manifest w (toUpperCase p) (set_manifest m st)) as H.
    by rewrite Hlookup in H. }
  destruct (compile_matcher (toUpperCase p)) as [regex|]; [|done].
  unfold bind at 1 5, ret at 1 3. unfold bind at 1 4.
  pose proof (getRelevantChunks_frame (toUpperCase p) st2 _ Hm2) as Hframe.
  pose proof (getRelevantChunks_state (toUpperCase p) st2) as Hstate.
  destruct (getRelevantChunks (toUpperCase p) st2) as [[files'|e] st3]; [|done].
  simpl in Hframe, Hstate. subst st3. rewrite Hfiles in Hframe.
  injection Hframe as ->.
  unfold bind at 1 3. rewrite search_agree by done.
  destruct (search w _ regex _ files st2) as [[found|e] st4]; [|done].
  unfold bind. rewrite setCachedResult_agree. done.
Qed.

End Agreement.

(** X14. A query reads only the shards that the manifest selects for its
    pattern: in another world that serves the same manifest, shows the
    same clock, completes fetches in the same order and holds the same
    objects under the selected file names, whatever else its store holds,
    the query returns the same answers and leaves the same loader. *)
Theorem query_reads_only_the_selected_shards (w w' : World) (st : Loader)
    (m : ChunkManifest) (p : string) (mr : option Z) (files : list string) :
  manifest_available w st m → manifest_available w' st m →
  (∀ n, Date_now w' n = Date_now w n) →
  (∀ pending, settle_order w' pending = settle_order w pending) →
  fetches_complete w →
  (getRelevantChunks (toUpperCase p) (set_manifest m st)).1 = Returns files →
  (∀ f, f ∈ files → r2_chunk w' (chunk_key f) = r2_chunk w (chunk_key f)) →
  findMatchingAnswers w' p mr st = findMatchingAnswers w p mr st.
Proof. intros ?? Hclock Horder Hfair. by apply findMatchingAnswers_agree. Qed.

(** * The HTTP layer *)

Lemma all_in_class_query p : all_in_class query_char p = query_pattern p.
Proof. induction p as [|c r IH]; simpl; [done|]. by rewrite IH. Qed.

Lemma truthy_nonempty s : truthy s = true ↔ s ≠ "".
Proof. by destruct s. Qed.

Lemma valid_pattern_text p :
  negb (truthy p) || negb (matches_one_or_more query_char p) = false ↔
  p ≠ "" ∧ query_pattern p = true.
Proof.
  unfold matches_one_or_more. rewrite all_in_class_query, <-truthy_nonempty.
  destruct (truthy p), (query_pattern p); simpl; split; try done; by intros [? ?].
Qed.

Lemma letters_query a : all_in_class letter_char a = true → query_pattern a = true.
Proof.
  induction a as [|c r IH]; simpl; [done|].
  intros [Hc Hr]%andb_prop. rewrite IH by done. unfold query_char.
  unfold letter_char in Hc. by rewrite Hc.
Qed.

Section NumberEngine.

Variable w : World.

Lemma scan_answers_capped_number_Num regex z chunk_answers found :
  scan_answers_capped_number regex (Num z) chunk_answers found =
  scan_answers_capped regex z chunk_answers found.
Proof.
  revert found. induction chunk_answers as [|a rest IH]; intros found; simpl; [done|].
  destruct (RegExp.test regex (answer a)); [|done].
  by destruct (z <=? _)%Z.
Qed.

Lemma scan_chunks_capped_number_Num regex z loaded found :
  scan_chunks_capped_number regex (Num z) loaded found =
  scan_chunks_capped regex z loaded found.
Proof.
  revert found. induction loaded as [|chunk rest IH]; intros found; simpl; [done|].
  rewrite scan_answers_capped_number_Num. by destruct (z <=? _)%Z.
Qed.

Lemma search_number_Num analysis regex z files st :
  search_number w analysis regex (Num z) files st =
  search w analysis regex z files st.
Proof.
  unfold search_number, search. case_decide; [done|]. case_decide; [|done].
  unfold search_parallel, bind, ret.
  destruct (loadChunksParallel w files st) as [[loaded|e] st']; [|done].
  cbn [times_two]. by rewrite scan_chunks_capped_number_Num.
Qed.

(** At an integer the engine at any number is the engine. *)
Lemma findMatchingAnswers_number_Num p z st :
  findMatchingAnswers_number w p (Num z) st = findMatchingAnswers w p (Some z) st.
Proof.
  unfold findMatchingAnswers_number, findMatchingAnswers, bind.
  destruct (loadManifest w st) as [[[]|e] st1]; [|done].
  destruct (getCachedResult w (toUpperCase p) st1) as [[[cached|]|e] st2];
    [done| |done].
  destruct (compile_matcher (toUpperCase p)) as [regex|]; [|done].
  unfold ret. cbv beta iota.
  destruct (getRelevantChunks (toUpperCase p) st2) as [[files|e] st3]; [|done].
  by rewrite search_number_Num.
Qed.

Lemma search_number_state analysis regex n z files st :
  ∃ found found' st',
    search_number w analysis regex n files st = (Returns found, st') ∧
    search w analysis regex z files st = (Returns found', st').
Proof.
  unfold search_number, search. case_decide.
  { destruct (search_direct_run w regex files [] st) as [c' ->]. by eexists _, _, _. }
  case_decide; [|by eexists _, _, _].
  unfold search_parallel, bind. rewrite loadChunksParallel_run. by eexists _, _, _.
Qed.

(** At NaN the engine returns and leaves what it does at 0: an empty list,
    which it also caches. *)
Lemma findMatchingAnswers_number_NaN p st :
  findMatchingAnswers_number w p NaN st = findMatchingAnswers w p (Some 0%Z) st.
Proof.
  unfold findMatchingAnswers_number, findMatchingAnswers, bind.
  destruct (loadManifest w st) as [[[]|e] st1]; [|done].
  destruct (getCachedResult w (toUpperCase p) st1) as [[[cached|]|e] st2];
    [done| |done].
  destruct (compile_matcher (toUpperCase p)) as [regex|]; [|done].
  unfold ret. cbv beta iota.
  destruct (getRelevantChunks (toUpperCase p) st2) as [[files|e] st3]; [|done].
  destruct (search_number_state (analyzePattern (toUpperCase p)) regex NaN
              (default default_maxResults (Some 0%Z)) files st3)
    as (found & found' & st4 & -> & ->).
  done.
Qed.

End NumberEngine.

Lemma findMatchingAnswers_number_argument w p n st :
  findMatchingAnswers_number w p n st =
  findMatchingAnswers w p (Some (as_argument n)) st.
Proof.
  destruct n; [apply findMatchingAnswers_number_NaN|apply findMatchingAnswers_number_Num].
Qed.

Lemma accepted_maxResults_passes n :
  number_lt n 1 || number_gt n 500 = false ↔ accepted_maxResults n.
Proof.
  destruct n as [|z]; simpl; [done|].
  rewrite orb_false_iff, Z.ltb_ge, Z.ltb_ge. lia.
Qed.

Lemma slice0_zero {A} (l : list A) : slice0 0 l = [].
Proof. done. Qed.

Lemma slice0_nil {A} (e : Z) : slice0 e (@nil A) = [].
Proof. unfold slice0. destruct (e <? 0)%Z; apply take_nil. Qed.

Section AnswersRoute.

Variable w : World.

(** What the answers route does with a request it lets through. *)
Lemma answers_route_run pp mp st :
  let pattern := query_or pp "" in
  let n := parseInt (query_or mp "50") in
  valid_answers_request pattern n →
  answers_route w pp mp st =
  match findMatchingAnswers w pattern (Some (as_argument n)) (tick st) with
  | (Returns answers, st1) =>
      (Returns (json (AnswersBody answers) 200
                  (answers_headers pattern
                     (Date_now w (clock_reads st1) - Date_now w (clock_reads st))
                     answers)),
       tick st1)
  | (Throws _, st1) => (Returns (json (AnswersBody []) 500 []), st1)
  end.
Proof.
  intros pattern n (Hne & Hp & Hn). unfold answers_route. fold pattern n.
  rewrite (proj2 (valid_pattern_text pattern)) by done.
  rewrite (proj2 (accepted_maxResults_passes n)) by done.
  unfold bind at 1, now at 1, try_catch, bind at 1.
  rewrite findMatchingAnswers_number_argument. fold (tick st).
  by destruct (findMatchingAnswers w pattern _ (tick st)) as [[answers|e] st1].
Qed.

End AnswersRoute.

(** X15. The answers route answers every request and never throws. It
    answers 400, with no answers and without touching the loader, exactly
    when the pattern is missing, empty or has a character that is neither
    a letter nor the wildcard, or when [maxResults] parses to an integer
    outside 1..500; any other request gets 200 or 500. A [maxResults]
    that does not parse to a number is let through. *)
Theorem answers_route_rejects_exactly_the_invalid (w : World)
    (pp mp : option string) (st : Loader) :
  let pattern := query_or pp "" in
  let n := parseInt (query_or mp "50") in
  (¬ valid_answers_request pattern n →
     answers_route w pp mp st = (Returns (json (AnswersBody []) 400 []), st)) ∧
  (valid_answers_request pattern n →
     ∃ resp st', answers_route w pp mp st = (Returns resp, st') ∧
                 (status resp = 200 ∨ status resp = 500)).
Proof.
  intros pattern n. split.
  - intros Hbad. unfold answers_route. fold pattern n.
    destruct (negb (truthy pattern) || negb (matches_one_or_more query_char pattern))
      eqn:Hp; [done|].
    destruct (number_lt n 1 || number_gt n 500) eqn:Hn; [done|].
    destruct Hbad. apply valid_pattern_text in Hp as [? ?].
    by apply accepted_maxResults_passes in Hn.
  - intros Hvalid. rewrite (answers_route_run w pp mp st Hvalid).
    destruct (findMatchingAnswers w _ _ (tick st)) as [[answers|e] st1];
      eexists _, _; split; try reflexivity; simpl; auto.
Qed.

(** X16. A valid request reaches the engine with its pattern and its
    [maxResults]: when the manifest is or can be loaded the route answers
    200 with the list the engine returns, and says its length in
    [X-Result-Count]; when it cannot, the route answers 500 with no
    answers. The engine's failure on the empty pattern cannot be reached
    through the route. *)
Theorem answers_route_serves_the_engine (w : World) (pp mp : option string)
    (st : Loader) (z : Z) :
  let pattern := query_or pp "" in
  pattern ≠ "" → query_pattern pattern = true →
  parseInt (query_or mp "50") = Num z → (1 <= z <= 500)%Z →
  (∀ m, manifest_available w st m →
     ∃ answers st1,
       findMatchingAnswers w pattern (Some z) (tick st) = (Returns answers, st1) ∧
       answers_route w pp mp st =
         (Returns (json (AnswersBody answers) 200
                     (answers_headers pattern
                        (Date_now w (clock_reads st1) - Date_now w (clock_reads st))
                        answers)),
          tick st1)) ∧
  (manifest_unavailable w st →
     answers_route w pp mp st = (Returns (json (AnswersBody []) 500 []), tick st)).
Proof.
  intros pattern Hne Hp Hn Hz.
  assert (valid_answers_request pattern (parseInt (query_or mp "50"))) as Hvalid.
  { split; [done|]. split; [done|]. by rewrite Hn. }
  pose proof (answers_route_run w pp mp st Hvalid) as Hrun.
  fold pattern in Hrun. rewrite Hn in Hrun. simpl as_argument in Hrun. split.
  - intros m Hm.
    destruct (findMatchingAnswers_returns w pattern (Some z) (tick st) m)
      as (answers & st1 & Heng); [done..|].
    rewrite Heng in Hrun. by exists answers, st1.
  - intros Hm.
    destruct (findMatchingAnswers_no_manifest w pattern (Some z) (tick st))
      as [e He]; [done|].
    by rewrite He in Hrun.
Qed.

(** X17. A [maxResults] without digits (as in [maxResults=abc]) is not
    rejected: parsed, it is NaN, and both comparisons of the range check
    are false. The engine then cuts its result at NaN: on a cache miss the
    route answers 200 with no answers, and the empty list is cached under
    the pattern, so that every valid request for the pattern, in any
    letter case and with any [maxResults], gets 200 with no answers until
    the entry expires. *)
Theorem unparsable_maxResults_caches_an_empty_result (w : World) (st : Loader)
    (m : ChunkManifest) (p p' : string) (mp mp' : option string) :
  p ≠ "" → query_pattern p = true →
  p' ≠ "" → query_pattern p' = true → toUpperCase p' = toUpperCase p →
  parseInt (query_or mp "50") = NaN →
  accepted_maxResults (parseInt (query_or mp' "50")) →
  manifest_available w st m →
  cache_miss w (tick st) (toUpperCase p) →
  ∃ headers1 st1,
    answers_route w (Some p) mp st =
      (Returns (json (AnswersBody []) 200 headers1), st1) ∧
    (within_ttl w (tick st1) (toUpperCase p) →
     ∃ headers2 st2,
       answers_route w (Some p') mp' st1 =
         (Returns (json (AnswersBody []) 200 headers2), st2)).
Proof.
  intros Hne Hp Hne' Hp' Hcase Hnan Hmp' Hm Hmiss.
  assert (query_or (Some p) "" = p) as Hq by (by destruct p).
  assert (query_or (Some p') "" = p') as Hq' by (by destruct p').
  assert (valid_answers_request (query_or (Some p) "") (parseInt (query_or mp "50")))
    as Hvalid by (rewrite Hq, Hnan; by repeat split).
  assert (valid_answers_request (query_or (Some p') "") (parseInt (query_or mp' "50")))
    as Hvalid' by (rewrite Hq'; by repeat split).
  rewrite (answers_route_run w (Some p) mp st Hvalid), Hq, Hnan. simpl as_argument.
  destruct (nonempty_first p Hne) as [c Hc].
  destruct (findMatchingAnswers_miss w p (Some 0%Z) (tick st) m c Hm Hp Hc Hmiss)
    as (regex & files & st2 & c' & _ & _ & _ & _ & Hm2 & ->).
  set (entry := {| results := slice0 _ _; timestamp := _ |}).
  set (st1 := set_resultCache _ _).
  eexists _, (tick st1). split; [reflexivity|]. intros Hfresh.
  rewrite (answers_route_run w (Some p') mp' (tick st1) Hvalid'), Hq'.
  assert (fresh_entry w (tick (tick st1)) (toUpperCase p') entry) as Hhit.
  { rewrite Hcase. split; [apply JSMap_get_set_eq|].
    apply Hfresh. apply JSMap_get_set_eq. }
  rewrite (findMatchingAnswers_hit w p' _ (tick (tick st1)) m entry);
    [|left; exact Hm2|done].
  assert (results entry = []) as -> by apply slice0_zero.
  rewrite slice0_nil. by eexists _, _.
Qed.

(** X18. The clues route answers 400, with no clues and without touching
    the loader, exactly when the answer is missing, empty or has a
    character that is not a letter. For any other answer it answers 200
    with the clues the engine returns for [maxClues = 10], at most ten of
    them, when the manifest is or can be loaded, and 500 with no clues
    when it cannot; the engine's failure on the empty answer cannot be
    reached through the route. *)
Theorem clues_route_statuses (w : World) (ap : option string) (st : Loader) :
  let answer := query_or ap "" in
  (answer = "" ∨ all_in_class letter_char answer = false →
     clues_route w ap st = (Returns (json (CluesBody []) 400 []), st)) ∧
  (answer ≠ "" → all_in_class letter_char answer = true →
     (∀ m, manifest_available w st m →
        ∃ found st',
          getClues w answer (Some 10%Z) st = (Returns found, st') ∧
          clues_route w ap st = (Returns (json (CluesBody found) 200 []), st') ∧
          length found ≤ 10) ∧
     (manifest_unavailable w st →
        clues_route w ap st = (Returns (json (CluesBody []) 500 []), st))).
Proof.
  intros answer. unfold clues_route. fold answer. unfold matches_one_or_more. split.
  - intros [->|Hbad]; [done|]. rewrite Hbad. by destruct (truthy answer).
  - intros Hne%truthy_nonempty Hletters. rewrite Hne, Hletters. simpl.
    unfold try_catch, bind. split.
    + intros m Hm.
      destruct (nonempty_first (toUpperCase answer)) as [c Hc].
      { destruct answer; [done|]. done. }
      destruct (getClues_run w answer (Some 10%Z) st m c Hm Hc)
        as (found & st' & Hrun & Hfound).
      rewrite Hrun. exists found, st'. split; [done|]. split; [done|].
      assert (∀ l : list string, length (slice0 10 l) ≤ 10) as Hten.
      { intros l. pose proof (slice0_length 10 l). lia. }
      destruct (owning_shard m _ c) as [file|]; [|subst; simpl; lia].
      destruct (truthy file); [|subst; simpl; lia].
      destruct (fulfilled w _ file); [|subst; simpl; lia].
      destruct Hfound as (shuffled & _ & ->). apply Hten.
    + intros Hm. destruct (getClues_no_manifest w answer (Some 10%Z) st Hm) as [e ->].
      done.
Qed.
(** ** The optimized loader against the first version *)

Section StableSort.

Context {A : Type} (cmp : A → A → Z).
Hypothesis cmp_trans : ∀ a b c, (cmp a b <= 0 → cmp b c <= 0 → cmp a c <= 0)%Z.

Local Abbreviation before := (λ a b, (cmp a b <= 0)%Z).

Lemma filter_all (P : A → Prop) `{∀ x, Decision (P x)} (l : list A) :
  Forall P l → filter P l = l.
Proof.
  induction 1 as [|x l Hx _ IH]; [done|].
  rewrite filter_cons, decide_True by done. by rewrite IH.
Qed.

Lemma filter_none (P : A → Prop) `{∀ x, Decision (P x)} (l : list A) :
  Forall (λ x, ¬ P x) l → filter P l = [].
Proof.
  induction 1 as [|x l Hx _ IH]; [done|].
  by rewrite filter_cons, decide_False by done.
Qed.

Lemma Forall_filter_keep (P Q : A → Prop) `{∀ x, Decision (Q x)} (l : list A) :
  Forall P l → Forall P (filter Q l).
Proof.
  induction 1 as [|x l Hx _ IH]; [done|]. rewrite filter_cons.
  destruct (decide (Q x)); [by constructor|done].
Qed.

Lemma sort_insert_sublist x l : l `sublist_of` sort_insert cmp x l.
Proof.
  induction l as [|y r IH]; simpl; [by apply sublist_cons|].
  destruct (cmp x y <=? 0)%Z; [by apply sublist_cons|by apply sublist_skip].
Qed.

Lemma sort_insert_split x l :
  StronglySorted before l →
  sort_insert cmp x l =
  filter (λ y, ¬ (cmp x y <= 0)%Z) l ++ x :: filter (λ y, (cmp x y <= 0)%Z) l.
Proof.
  induction l as [|y r IH]; [done|]. intros [Hr Hy]%StronglySorted_inv. simpl.
  destruct (cmp x y <=? 0)%Z eqn:Hxy.
  - apply Z.leb_le in Hxy.
    assert (Forall (λ z, (cmp x z <= 0)%Z) (y :: r)) as Hall.
    { constructor; [done|]. eapply Forall_impl; [exact Hy|].
      intros z Hz. by eapply cmp_trans. }
    rewrite filter_none.
    + simpl. f_equal. symmetry. by apply filter_all.
    + eapply Forall_impl; [exact Hall|]. intros z Hz Hn. by apply Hn.
  - apply Z.leb_gt in Hxy. rewrite !filter_cons.
    rewrite decide_True by lia. rewrite decide_False by lia.
    simpl. f_equal. by apply IH.
Qed.

Lemma sort_insert_sorted x l :
  (∀ a b, (cmp a b <= 0)%Z ∨ (cmp b a <= 0)%Z) →
  StronglySorted before l → StronglySorted before (sort_insert cmp x l).
Proof.
  intros Htotal. induction l as [|y r IH]; simpl; intros Hl.
  - by repeat constructor.
  - destruct (cmp x y <=? 0)%Z eqn:Hxy.
    + apply Z.leb_le in Hxy. constructor; [done|].
      constructor; [done|]. apply StronglySorted_inv in Hl as [_ Hy].
      eapply Forall_impl; [exact Hy|]. intros z Hz. by eapply cmp_trans.
    + apply Z.leb_gt in Hxy. apply StronglySorted_inv in Hl as [Hr Hy].
      constructor; [by apply IH|].
      rewrite sort_insert_split by done.
      apply Forall_app. split; [by apply Forall_filter_keep|].
      constructor; [|by apply Forall_filter_keep].
      destruct (Htotal x y); [lia|done].
Qed.

Lemma Array_sort_sorted l :
  (∀ a b, (cmp a b <= 0)%Z ∨ (cmp b a <= 0)%Z) →
  StronglySorted before (Array_sort cmp l).
Proof.
  intros Htotal. induction l as [|x r IH]; simpl; [constructor|].
  by apply sort_insert_sorted.
Qed.

Lemma filter_sublist_mono (P : A → Prop) `{∀ x, Decision (P x)} (l1 l2 : list A) :
  l1 `sublist_of` l2 → filter P l1 `sublist_of` filter P l2.
Proof.
  induction 1 as [|x l1 l2 _ IH|x l1 l2 _ IH]; [done| |]; rewrite !filter_cons.
  - destruct (decide (P x)); [by apply sublist_skip|done].
  - destruct (decide (P x)); [by apply sublist_cons|done].
Qed.

(** A stable sort keeps sublists: the sort of a part of an array is the
    sort of the array without the other elements. *)
Lemma Array_sort_sublist l1 l2 :
  (∀ a b, (cmp a b <= 0)%Z ∨ (cmp b a <= 0)%Z) →
  l1 `sublist_of` l2 → Array_sort cmp l1 `sublist_of` Array_sort cmp l2.
Proof.
  intros Htotal. induction 1 as [|x l1 l2 _ IH|x l1 l2 _ IH]; simpl; [done| |].
  - rewrite !sort_insert_split by by apply Array_sort_sorted.
    apply sublist_app; [by apply filter_sublist_mono|].
    apply sublist_skip. by apply filter_sublist_mono.
  - etrans; [exact IH|apply sort_insert_sublist].
Qed.

End StableSort.

Lemma by_count_desc_trans a b c :
  (by_count_desc a b <= 0 → by_count_desc b c <= 0 → by_count_desc a c <= 0)%Z.
Proof. unfold by_count_desc. lia. Qed.

Lemma by_count_desc_total a b :
  (by_count_desc a b <= 0)%Z ∨ (by_count_desc b a <= 0)%Z.
Proof. unfold by_count_desc. lia. Qed.

Lemma ranking_keeps_sublists l1 l2 :
  l1 `sublist_of` l2 →
  Array_sort by_count_desc l1 `sublist_of` Array_sort by_count_desc l2.
Proof.
  apply Array_sort_sublist; [apply by_count_desc_trans|apply by_count_desc_total].
Qed.

Lemma prefix_is_sublist {A} (l1 l2 : list A) :
  l1 `prefix_of` l2 → l1 `sublist_of` l2.
Proof. intros [k ->]. by apply sublist_inserts_r. Qed.

(** The capped scans keep a prefix of the matches, whatever the cap. *)
Lemma scan_answers_capped_prefix regex (limit : Z) chunk_answers found :
  let here := filter (λ a, RegExp.test regex (answer a) = true) chunk_answers in
  let scanned := scan_answers_capped regex limit chunk_answers found in
  scanned = found ++ here ∨
  ((limit <= Z.of_nat (length scanned))%Z ∧ ∃ k, scanned = found ++ take k here).
Proof.
  revert found. induction chunk_answers as [|a rest IH]; intros found; simpl.
  - left. by rewrite ?filter_nil, app_nil_r.
  - rewrite filter_cons. destruct (RegExp.test regex (answer a)) eqn:Ha.
    + rewrite decide_True by done.
      destruct (limit <=? Z.of_nat (length (found ++ [a])))%Z eqn:Hfull.
      * apply Z.leb_le in Hfull. right. split; [done|]. by exists 1.
      * destruct (IH (found ++ [a])) as [->|[Hlen [k Hk]]].
        -- left. by rewrite <-app_assoc.
        -- right. split; [done|]. exists (S k). by rewrite Hk, <-app_assoc.
    + rewrite decide_False by done. apply IH.
Qed.

Lemma scan_chunks_capped_prefix regex (limit : Z) loaded found :
  ∃ k, scan_chunks_capped regex limit loaded found =
       found ++ take k (all_matches regex loaded).
Proof.
  revert found. induction loaded as [|chunk rest IH]; intros found; simpl.
  - exists 0. by rewrite app_nil_r.
  - unfold all_matches. simpl. fold (all_matches regex rest).
    set (here := filter _ (answers chunk)).
    destruct (scan_answers_capped_prefix regex limit (answers chunk) found)
      as [Hall|[Hlen [k Hk]]]; fold here in Hall || fold here in Hk.
    + rewrite Hall. destruct (limit <=? _)%Z.
      * exists (length here). by rewrite take_app_length.
      * destruct (IH (found ++ here)) as [k ->]. exists (length here + k).
        by rewrite take_app_add, <-app_assoc.
    + apply Z.leb_le in Hlen. rewrite Hlen. rewrite Hk.
      exists (k `min` length here). rewrite take_app_le by lia.
      f_equal. destruct (decide (k ≤ length here)).
      * by rewrite Nat.min_l.
      * rewrite Nat.min_r by lia. by rewrite !take_ge by lia.
Qed.

(** A coherent cache shows what the store holds. *)
Lemma mirrors_store_get w cache f chunk :
  mirrors_store w cache → JSMap.get cache f = Some chunk →
  r2_chunk w (chunk_key f) = R2Body chunk.
Proof.
  unfold mirrors_store. rewrite Forall_forall.
  intros Hcache Hget%JSMap_get_elem. by apply (Hcache _ Hget).
Qed.

Lemma fulfilled_coherent w cache f :
  mirrors_store w cache → fulfilled w cache f = store_chunk w f.
Proof.
  intros Hcache. unfold fulfilled, store_chunk.
  destruct (JSMap.get cache f) as [chunk|] eqn:Hget; [|done].
  by rewrite (mirrors_store_get w cache f chunk).
Qed.

Lemma fulfilled_all_coherent w cache (files : list string) :
  mirrors_store w cache →
  omap (fulfilled w cache) files = omap (store_chunk w) files.
Proof.
  intros Hcache. induction files as [|f files IH]; [done|]. csimpl.
  by rewrite IH, fulfilled_coherent.
Qed.

Lemma load_in_turn_coherent w cache files :
  mirrors_store w cache →
  load_in_turn w cache files = omap (store_chunk w) files.
Proof.
  revert cache. induction files as [|f files IH]; intros cache Hcache; [done|].
  csimpl. unfold store_chunk at 1.
  destruct (JSMap.get cache f) as [chunk|] eqn:Hget.
  - rewrite (mirrors_store_get w cache f chunk) by done. csimpl. by rewrite IH.
  - destruct (r2_chunk w (chunk_key f)) as [| | |chunk] eqn:Hr; csimpl;
      try by apply IH.
    rewrite IH; [done|]. by apply mirrors_store_store.
Qed.

(** The first version, run: every match of every relevant shard that
    loads, ranked. *)
Lemma Baseline_findMatchingAnswers_run w p st m regex files :
  manifest_available w st m →
  compile_matcher (toUpperCase p) = Some regex →
  (getRelevantChunks (toUpperCase p) (set_manifest m st)).1 = Returns files →
  ∃ c', Baseline.findMatchingAnswers w p st =
        (Returns (Array_sort by_count_desc
                    (all_matches regex (load_in_turn w (chunkCache st) files))),
         set_chunkCache c' (set_manifest m st)).
Proof.
  intros Hm Hregex Hfiles. unfold Baseline.findMatchingAnswers.
  rewrite (bind_returns _ _ _ _ _ (loadManifest_available w st m Hm)).
  rewrite Hregex. unfold bind at 1, ret at 1.
  assert (getRelevantChunks (toUpperCase p) (set_manifest m st) =
          (Returns files, set_manifest m st)) as Hrel.
  { apply injective_projections; [done|apply getRelevantChunks_state]. }
  rewrite (bind_returns _ _ _ _ _ Hrel).
  destruct (search_direct_run w regex files [] (set_manifest m st)) as [c' Hrun].
  rewrite (bind_returns _ _ _ _ _ Hrun). by exists c'.
Qed.

(** The first version looks at the pattern in upper case only. *)
Lemma refines_baseline_case w p p' r :
  toUpperCase p' = toUpperCase p →
  refines_baseline w p r → refines_baseline w p' r.
Proof.
  intros Hcase (all & st_b & Hrun & Hsub & Hpre). exists all, st_b.
  split; [|split; [done|]].
  - unfold Baseline.findMatchingAnswers in *. by rewrite Hcase.
  - intros Hlit. apply Hpre. intros Hq. apply Hlit.
    pose proof (toUpperCase_first p) as H1. pose proof (toUpperCase_first p') as H2.
    rewrite Hcase, H1, Hq in H2.
    destruct (at_index p' 0) as [c|]; csimpl in H2; [|done].
    injection H2 as H2. change (upper_char "?") with "?"%char in H2.
    symmetry in H2. apply (proj1 (upper_char_wildcard c)) in H2. by subst.
Qed.

Section Refinement.

Variable w : World.
Variable m : ChunkManifest.
Hypothesis Hserved : r2_manifest w = R2Body m.

Local Abbreviation J := (refinement_inv w m).

Lemma refinement_inv_manifest m' st :
  r2_manifest w = R2Body m' → manifest st = None → J st → J (set_manifest m' st).
Proof. intros _ Hnone [Hm _]. congruence. Qed.

Lemma refinement_inv_chunk f chunk st :
  r2_chunk w (chunk_key f) = R2Body chunk →
  J st → J (set_chunkCache (chunkCache_store f chunk (chunkCache st)) st).
Proof.
  intros Hf (Hm & Hcache & Hentries). split; [done|]. split; [|done].
  by apply mirrors_store_store.
Qed.

Lemma refinement_inv_clock n st : J st → J (set_clock_reads n st).
Proof. by intros (Hm & Hcache & Hentries). Qed.

Lemma refinement_inv_delete k st :
  J st → J (set_resultCache (JSMap.delete (resultCache st) k) st).
Proof.
  intros (Hm & Hcache & Hentries). split; [done|]. split; [done|].
  unfold entries_refine in *. cbn [resultCache set_resultCache].
  rewrite Forall_forall in Hentries |- *.
  intros kv Hkv%JSMap_delete_elem. by apply Hentries.
Qed.

Lemma refinement_lookup p :
  inv_spec J (getCachedResult w (toUpperCase p))
    (λ hit, ∀ cached, hit = Some cached → refines_baseline w p cached).
Proof.
  intros st Hst. split.
  { apply frame_getCachedResult;
      [apply refinement_inv_clock|apply refinement_inv_delete|done]. }
  rewrite getCachedResult_run.
  destruct (JSMap.get (resultCache st) _) as [entry|] eqn:Hget;
    [|by intros ? [= <-] ? [=]].
  destruct (CACHE_TTL <? _)%Z; cbn [fst]; [by intros ? [= <-] ? [=]|].
  intros hit [= <-] cached [= <-].
  destruct Hst as (_ & _ & Hentries). unfold entries_refine in Hentries.
  rewrite Forall_forall in Hentries.
  destruct (Hentries _ (JSMap_get_elem _ _ _ Hget)) as (p0 & Hkey & Hp0).
  simpl in Hkey. apply getCacheKey_inj in Hkey.
  rewrite toUpperCase_idem in Hkey. by apply (refines_baseline_case w p0).
Qed.

Lemma refinement_store p r :
  refines_baseline w p r →
  inv_spec J (setCachedResult w (toUpperCase p) r) (λ _, True).
Proof.
  intros Hr st (Hm & Hcache & Hentries). split; [|done].
  rewrite setCachedResult_run. cbn [snd].
  split; [done|]. split; [done|].
  unfold entries_refine in *. cbn [resultCache set_resultCache set_clock_reads].
  rewrite Forall_forall in Hentries |- *. unfold resultCache_store.
  intros kv [->|Hkv]%JSMap_set_elem.
  - exists (toUpperCase p). split; [done|]. simpl.
    apply (refines_baseline_case w p); [apply toUpperCase_idem|done].
  - apply Hentries. destruct (_ <=? _); [by apply JSMap_delete_oldest_elem|done].
Qed.

Lemma refinement_files np :
  inv_spec J (getRelevantChunks np)
    (λ files, (getRelevantChunks np (set_manifest m new_loader)).1 = Returns files).
Proof.
  intros st Hst. split; [by rewrite getRelevantChunks_state|].
  intros files <-. apply getRelevantChunks_frame. by destruct Hst as [-> _].
Qed.

Lemma refinement_search np regex maxResults files :
  inv_spec J (search w (analyzePattern np) regex maxResults files)
    (λ found,
       let every := all_matches regex (omap (store_chunk w) files) in
       found `prefix_of` every ∧
       (at_index np 0 ≠ Some "?"%char → found = every)).
Proof.
  intros st Hst. split.
  { apply frame_search; [apply refinement_inv_chunk|done]. }
  destruct Hst as (_ & Hcache & _). intros found. unfold search.
  rewrite analyzePattern_strategy. case_bool_decide as Hq.
  - rewrite decide_False by done. rewrite decide_True by done.
    destruct (search_parallel_run w regex maxResults files st) as [c' ->].
    intros [= <-]. rewrite (fulfilled_all_coherent w _ files Hcache).
    split; [|done].
    destruct (scan_chunks_capped_prefix regex (maxResults * 2)
                (omap (store_chunk w) files) []) as [k ->].
    apply prefix_take.
  - rewrite decide_True by done.
    destruct (search_direct_run w regex files [] st) as [c' ->].
    intros [= <-]. by rewrite (load_in_turn_coherent w _ files Hcache).
Qed.

(** What a scan stores and returns refines the first version's answer. *)
Lemma refinement_scanned p regex files found (maxResults : Z) :
  compile_matcher (toUpperCase p) = Some regex →
  (getRelevantChunks (toUpperCase p) (set_manifest m new_loader)).1 = Returns files →
  found `prefix_of` all_matches regex (omap (store_chunk w) files) →
  (at_index (toUpperCase p) 0 ≠ Some "?"%char →
   found = all_matches regex (omap (store_chunk w) files)) →
  refines_baseline w p (slice0 maxResults (Array_sort by_count_desc found)).
Proof.
  intros Hregex Hfiles Hprefix Hall.
  destruct (Baseline_findMatchingAnswers_run w p new_loader m regex files)
    as [c' Hrun]; [by right|done|done|].
  rewrite (load_in_turn_coherent w _ files) in Hrun by apply Forall_nil_2.
  eexists _, _. split; [exact Hrun|]. split.
  - etrans; [apply prefix_is_sublist, slice0_prefix|].
    by apply ranking_keeps_sublists, prefix_is_sublist.
  - intros Hlit. rewrite Hall; [apply slice0_prefix|].
    rewrite toUpperCase_first. intros Hq. apply Hlit.
    destruct (at_index p 0) as [c|]; [|done]. csimpl in Hq.
    injection Hq as Hq. apply (proj1 (upper_char_wildcard c)) in Hq. by subst.
Qed.

Lemma refinement_findMatchingAnswers p mr :
  inv_spec J (findMatchingAnswers w p mr) (refines_baseline w p).
Proof.
  unfold findMatchingAnswers. set (maxResults := default default_maxResults mr).
  eapply inv_bind.
  { apply frame_loadManifest, refinement_inv_manifest. } intros _ _.
  eapply inv_bind; [apply refinement_lookup|]. intros [cached|] Hhit.
  { apply inv_ret. destruct (Hhit cached eq_refl) as (all & st_b & Hrun & Hsub & Hpre).
    exists all, st_b. split; [done|]. split.
    - etrans; [apply prefix_is_sublist, slice0_prefix|done].
    - intros Hlit. etrans; [apply slice0_prefix|by apply Hpre]. }
  destruct (compile_matcher (toUpperCase p)) as [regex|] eqn:Hregex.
  2:{ eapply (inv_bind _ _ _ (λ _, False)); [apply inv_throw|by intros ? []]. }
  eapply (inv_bind _ _ _ (λ r, r = regex)); [by apply inv_ret|]. intros _ ->.
  eapply inv_bind; [apply refinement_files|]. intros files Hfiles.
  eapply inv_bind; [apply refinement_search|]. intros found [Hprefix Hall].
  pose proof (refinement_scanned p regex files found maxResults
                Hregex Hfiles Hprefix Hall) as Hrefines.
  eapply inv_bind; [by apply refinement_store|]. intros _ _.
  by apply inv_ret.
Qed.

End Refinement.

Lemma refinement_state_inv w m st :
  r2_manifest w = R2Body m → refinement_inv w m st → refinement_state w st.
Proof.
  intros Hserved (Hm & Hcache & Hentries). split; [|done].
  intros m'. rewrite Hm. by intros [= <-].
Qed.

Lemma refinement_state_new w : refinement_state w new_loader.
Proof. split; [done|]. split; apply Forall_nil_2. Qed.

(** A query from a loader in a refinement state: its answer refines the
    first version's, and the loader stays in a refinement state. *)
Lemma refinement_query w p mr st :
  refinement_state w st →
  refinement_state w (findMatchingAnswers w p mr st).2 ∧
  ∀ r, (findMatchingAnswers w p mr st).1 = Returns r → refines_baseline w p r.
Proof.
  intros Hstate. pose proof Hstate as (Hm & Hcache & Hentries).
  destruct (manifest st) as [m|] eqn:Hst.
  - destruct (refinement_findMatchingAnswers w m (Hm m eq_refl) p mr st) as [Hinv Hval];
      [done|]. split; [|done]. by apply (refinement_state_inv w m), Hinv; auto.
  - destruct (r2_manifest w) as [| | |m] eqn:Hr.
    4:{ rewrite (findMatchingAnswers_loaded w p mr st m) by by right.
        destruct (refinement_findMatchingAnswers w m Hr p mr (set_manifest m st))
          as [Hinv Hval]; [done|].
        split; [|done]. by apply (refinement_state_inv w m). }
    all: destruct (findMatchingAnswers_no_manifest w p mr st) as [e ->];
      [split; [done|]; intros m; rewrite Hr; discriminate|];
      split; [|done]; exact Hstate.
Qed.

Lemma refinement_run_calls w calls st :
  refinement_state w st → refinement_state w (run_calls w calls st).
Proof.
  unfold run_calls. revert st. induction calls as [|c calls IH]; intros st Hst; [done|].
  simpl. apply IH. destruct c as [p mr|a mc]; simpl.
  - by apply refinement_query.
  - apply (frame_getClues w (refinement_state w)); [| | |done].
    + intros m st0 Hr Hnone (Hm & Hcache & Hentries). split; [|done].
      simpl. by intros m' [= <-].
    + intros f chunk st0 Hf (Hm & Hcache & Hentries). split; [done|].
      split; [|done]. by apply mirrors_store_store.
    + by intros n st0 (Hm & Hcache & Hentries).
Qed.

(** X19. The optimizations return answers of the first version only.
    After any sequence of calls on a new loader, the list a query returns
    (scanned or served from the result cache, cut or not) is a sublist of
    the list that the first version of the loader returns for the pattern
    on a new loader: the same answers with the same counts, in the same
    order, some of them left out. For a pattern that starts with a
    literal it is a prefix of it: only the tail is left out. *)
Theorem optimized_answers_refine_the_first_version (w : World)
    (calls : list Call) (p : string) (mr : option Z) (r : list AnswerMatch)
    (st' : Loader) :
  forallb modelled_call calls = true →
  query_pattern p = true →
  findMatchingAnswers w p mr (run_calls w calls new_loader) = (Returns r, st') →
  ∃ all st_b,
    Baseline.findMatchingAnswers w p new_loader = (Returns all, st_b) ∧
    r `sublist_of` all ∧
    (at_index p 0 ≠ Some "?"%char → r `prefix_of` all).
Proof.
  intros _ _ Hrun.
  destruct (refinement_query w p mr (run_calls w calls new_loader)) as [_ Hval].
  { apply refinement_run_calls, refinement_state_new. }
  apply Hval. by rewrite Hrun.
Qed.

(** X20. On a miss of the result cache the optimized query returns
    exactly the first [maxResults] answers of the first version, when the
    pattern starts with a literal, or when [maxResults] is at least 1 and
    the first version has at most [2 * maxResults] answers: there the
    early stop does not show. *)
Theorem optimized_equals_first_version_on_a_miss (w : World)
    (calls : list Call) (p : string) (mr : option Z) (all : list AnswerMatch)
    (st_b : Loader) :
  let st := run_calls w calls new_loader in
  let maxResults := default default_maxResults mr in
  forallb modelled_call calls = true →
  query_pattern p = true →
  cache_miss w st (toUpperCase p) →
  Baseline.findMatchingAnswers w p new_loader = (Returns all, st_b) →
  at_index p 0 ≠ Some "?"%char ∨
    (1 <= maxResults ∧ Z.of_nat (length all) <= 2 * maxResults)%Z →
  ∃ st', findMatchingAnswers w p mr st = (Returns (slice0 maxResults all), st').
Proof.
  intros st maxResults _ Hp Hmiss Hbase Hcond.
  destruct (r2_manifest w) as [| | |m] eqn:Hr.
  1-3: destruct (loadManifest_unavailable w new_loader) as [e He];
    [split; [done|]; intros m; rewrite Hr; discriminate|];
    unfold Baseline.findMatchingAnswers in Hbase;
    by rewrite (bind_throws _ _ _ _ _ He) in Hbase.
  destruct (at_index p 0) as [c|] eqn:Hc.
  2:{ destruct p; [|done]. unfold Baseline.findMatchingAnswers in Hbase.
      rewrite (bind_returns _ _ _ _ _
                 (loadManifest_available w new_loader m (or_intror (conj eq_refl Hr))))
        in Hbase.
      discriminate Hbase. }
  assert (refinement_state w st) as (Hm & Hcache & _).
  { apply refinement_run_calls, refinement_state_new. }
  assert (manifest_available w st m) as Hav.
  { destruct (manifest st) as [m'|] eqn:Hst; [|by right].
    left. specialize (Hm m' eq_refl). rewrite Hr in Hm. by injection Hm as ->. }
  destruct (findMatchingAnswers_miss w p mr st m c Hav Hp Hc Hmiss)
    as (regex & files & st2 & c' & Hregex & Hfiles & _ & _ & _ & Hrun).
  destruct (Baseline_findMatchingAnswers_run w p new_loader m regex files)
    as [cb Hrun_b]; [by right|done| |].
  { rewrite <-(getRelevantChunks_frame (toUpperCase p) (set_manifest m st)) by done.
    by rewrite Hfiles. }
  rewrite Hbase in Hrun_b. injection Hrun_b as -> _.
  rewrite (load_in_turn_coherent w _ files) by apply Forall_nil_2.
  rewrite (load_in_turn_coherent w _ files) in Hcond by apply Forall_nil_2.
  rewrite Array_sort_perm in Hcond.
  eexists. rewrite Hrun. f_equal. f_equal. f_equal. fold maxResults.
  rewrite (fulfilled_all_coherent w _ files Hcache). unfold accumulated.
  case_bool_decide as Hq; [|done]. subst c.
  destruct Hcond as [?|[Hone Hfew]]; [done|].
  rewrite scan_chunks_capped_take by (simpl; lia).
  rewrite app_nil_l. by rewrite take_ge by lia.
Qed.
(** ** The worker, request after request *)

Section Server.

Variable w : World.
Variable I : Loader → Prop.
Variable φ : string → Z → list AnswerMatch → Prop.

Hypothesis I_clock : ∀ n st, I st → I (set_clock_reads n st).
Hypothesis I_find : ∀ p k,
  p ≠ "" → query_pattern p = true →
  inv_spec I (findMatchingAnswers w p (Some k)) (φ p k).
Hypothesis I_clues : ∀ a mc, inv_spec I (getClues w a mc) (λ _, True).

(** The three kinds of answers responses. *)
Lemma answers_route_spec pp mp :
  let pattern := query_or pp "" in
  let n := parseInt (query_or mp "50") in
  inv_spec I (answers_route w pp mp)
    (λ resp,
       (¬ valid_answers_request pattern n ∧ resp = json (AnswersBody []) 400 []) ∨
       (valid_answers_request pattern n ∧ resp = json (AnswersBody []) 500 []) ∨
       (valid_answers_request pattern n ∧
        ∃ answers headers,
          resp = json (AnswersBody answers) 200 headers ∧
          φ pattern (as_argument n) answers)).
Proof.
  intros pattern n st Hst.
  destruct (negb (truthy pattern) || negb (matches_one_or_more query_char pattern))
    eqn:Hp.
  { unfold answers_route. fold pattern n. rewrite Hp. split; [done|].
    intros resp [= <-]. left. split; [|done]. intros (Hne & Hq & _).
    by rewrite (proj2 (valid_pattern_text pattern)) in Hp. }
  destruct (number_lt n 1 || number_gt n 500) eqn:Hn.
  { unfold answers_route. fold pattern n. rewrite Hp, Hn. split; [done|].
    intros resp [= <-]. left. split; [|done]. intros (_ & _ & Hacc).
    by rewrite (proj2 (accepted_maxResults_passes n)) in Hn. }
  assert (valid_answers_request pattern n) as Hvalid.
  { apply valid_pattern_text in Hp as [Hne Hq].
    by apply accepted_maxResults_passes in Hn. }
  rewrite (answers_route_run w pp mp st Hvalid). fold pattern n.
  destruct Hvalid as (Hne & Hq & Hacc).
  destruct (I_find pattern (as_argument n) Hne Hq (tick st)) as [Hinv Hval].
  { by apply I_clock. }
  destruct (findMatchingAnswers w pattern _ (tick st)) as [[answers|e] st1];
    cbn [fst snd] in *.
  - split; [by apply I_clock|]. intros resp [= <-]. right. right.
    split; [done|]. eexists _, _. split; [done|]. by apply Hval.
  - split; [done|]. intros resp [= <-]. right. by left.
Qed.

Lemma clues_route_inv ap : inv_spec I (clues_route w ap) (λ _, True).
Proof.
  unfold clues_route. destruct (_ || _); [by apply inv_ret|].
  apply inv_try_catch; [|intros; by apply inv_ret].
  eapply inv_bind; [apply I_clues|]. intros; by apply inv_ret.
Qed.

Lemma handle_inv req st : I st → I (handle w req st).2.
Proof.
  intros Hst. destruct req as [|pp mp|ap|pp]; simpl.
  - done.
  - by apply answers_route_spec.
  - by apply clues_route_inv.
  - unfold debug_pattern_route. by destruct (_ || _).
Qed.

Lemma serve_inv reqs st : I st → I (serve w reqs st).
Proof.
  unfold serve. revert st. induction reqs as [|req reqs IH]; intros st Hst; [done|].
  simpl. by apply IH, handle_inv.
Qed.

End Server.

Lemma refinement_getClues w a mc :
  inv_spec (refinement_state w) (getClues w a mc) (λ _, True).
Proof.
  apply frame_getClues.
  - intros m st0 Hr Hnone (Hm & Hcache & Hentries). split; [|done].
    simpl. by intros m' [= <-].
  - intros f chunk st0 Hf (Hm & Hcache & Hentries). split; [done|].
    split; [|done]. by apply mirrors_store_store.
  - by intros n st0 (Hm & Hcache & Hentries).
Qed.

Lemma Baseline_returns w p st m :
  manifest_available w st m → p ≠ "" → query_pattern p = true →
  ∃ all st', Baseline.findMatchingAnswers w p st = (Returns all, st').
Proof.
  intros Hm [c Hc]%nonempty_first Hp.
  assert (at_index (toUpperCase p) 0 = Some (upper_char c)) as Hnc.
  { by rewrite toUpperCase_first, Hc. }
  destruct (getRelevantChunks_returns (toUpperCase p) (set_manifest m st) m
              (upper_char c) eq_refl Hnc) as (files & Hfiles & _).
  destruct (Baseline_findMatchingAnswers_run w p st m _ files Hm
              (compile_matcher_normalized _ (toUpperCase_normalized p Hp)))
    as [c' Hrun]; [by rewrite Hfiles|].
  by eexists _, _.
Qed.

Lemma answers_route_returns w pp mp st :
  ∃ resp st', answers_route w pp mp st = (Returns resp, st').
Proof.
  destruct (negb (truthy (query_or pp "")) ||
            negb (matches_one_or_more query_char (query_or pp ""))) eqn:Hp.
  { unfold answers_route. rewrite Hp. by eexists _, _. }
  destruct (number_lt (parseInt (query_or mp "50")) 1 ||
            number_gt (parseInt (query_or mp "50")) 500) eqn:Hn.
  { unfold answers_route. rewrite Hp, Hn. by eexists _, _. }
  rewrite answers_route_run.
  - destruct (findMatchingAnswers w _ _ (tick st)) as [[answers|e] st1];
      by eexists _, _.
  - apply valid_pattern_text in Hp as [Hne Hq].
    by apply accepted_maxResults_passes in Hn.
Qed.

(** X21. Every answers response is sound, whatever was requested before:
    the route always answers, with a list whose answers all match the
    requested pattern in full, ranked by count, of at most 500 answers,
    and of at most [maxResults] answers when it answers 200 to a
    [maxResults] that is a number. *)
Theorem answers_responses_are_sound (w : World) (reqs : list Request)
    (pp mp : option string) :
  ∃ resp st' answers,
    answers_route w pp mp (serve w reqs new_loader) = (Returns resp, st') ∧
    body resp = AnswersBody answers ∧
    Forall (λ a, full_match (toUpperCase (query_or pp "")) (answer a)) answers ∧
    StronglySorted ranked answers ∧
    (Z.of_nat (length answers) <= 500)%Z ∧
    (∀ z, parseInt (query_or mp "50") = Num z → status resp = 200 →
          (Z.of_nat (length answers) <= z)%Z).
Proof.
  set (φ := λ p k r, sound_result p k r).
  assert (∀ p k, p ≠ "" → query_pattern p = true →
                 inv_spec results_sound (findMatchingAnswers w p (Some k)) (φ p k))
    as Hfind.
  { intros p k _ _. apply results_sound_findMatchingAnswers. }
  assert (results_sound (serve w reqs new_loader)) as Hst.
  { apply (serve_inv w results_sound φ); [done|done| |apply Forall_nil_2].
    intros a mc. apply frame_getClues; by intros. }
  destruct (answers_route_spec w results_sound φ (λ _ _ H, H) Hfind pp mp _ Hst)
    as [_ Hval].
  destruct (answers_route_returns w pp mp (serve w reqs new_loader))
    as (resp & st' & Hrun).
  rewrite Hrun in Hval |- *.
  destruct (Hval resp eq_refl) as [[_ ->]|[[_ ->]|[Hvalid (answers & headers & -> & Hsound)]]].
  1-2: eexists _, _, _; split; [reflexivity|]; simpl;
    split; [reflexivity|]; split; [apply Forall_nil_2|];
    split; [apply SSorted_nil|]; split; [simpl; lia|]; by intros z _ [=].
  eexists _, _, _. split; [reflexivity|]. simpl. split; [reflexivity|].
  destruct Hvalid as (Hne & Hq & Hacc).
  destruct Hsound as ((regex & Hregex & Htest) & Hsorted & Hbound).
  split; [|split; [|split]].
  - rewrite (compile_matcher_normalized _ (toUpperCase_normalized _ Hq)) in Hregex.
    injection Hregex as <-. eapply Forall_impl; [exact Htest|]. intros a Ha.
    simpl in Ha. by rewrite test_anchored, match_here_pattern in Ha.
  - apply Sorted_StronglySorted; [|done]. intros a b c. unfold ranked. lia.
  - destruct (parseInt (query_or mp "50")) as [|z]; simpl in *; lia.
  - intros z Hz _. rewrite Hz in Hbound, Hacc. simpl in *. lia.
Qed.

(** X22. The upgrade of the worker keeps the answers. Whatever was
    requested before, a request with a [maxResults] that the new route
    accepts gets the status that the first version of the route gives on
    a worker just started, and its answers are a sublist of the first
    version's: a prefix of it when the pattern starts with a letter. *)
Theorem upgrade_keeps_the_answers (w : World) (reqs : list Request)
    (pp mp : option string) :
  accepted_maxResults (parseInt (query_or mp "50")) →
  ∃ code old st_old new headers st_new,
    Baseline.answers_route w pp new_loader =
      (Returns (json (AnswersBody old) code []), st_old) ∧
    answers_route w pp mp (serve w reqs new_loader) =
      (Returns (json (AnswersBody new) code headers), st_new) ∧
    new `sublist_of` old ∧
    (at_index (query_or pp "") 0 ≠ Some "?"%char → new `prefix_of` old).
Proof.
  intros Hacc. set (pattern := query_or pp ""). set (st := serve w reqs new_loader).
  assert (refinement_state w st) as Hst.
  { apply (serve_inv w (refinement_state w) (λ p _, refines_baseline w p)).
    - by intros n st0 (? & ? & ?).
    - intros p k _ _ st0 Hst0. by apply refinement_query.
    - apply refinement_getClues.
    - apply refinement_state_new. }
  destruct (negb (truthy pattern) || negb (matches_one_or_more query_char pattern))
    eqn:Hp.
  { exists 400, [], new_loader, [], [], st.
    unfold Baseline.answers_route, answers_route. fold pattern. by rewrite Hp. }
  pose proof Hp as [Hne Hq]%valid_pattern_text.
  assert (valid_answers_request pattern (parseInt (query_or mp "50"))) as Hvalid
    by done.
  rewrite (answers_route_run w pp mp st Hvalid). fold pattern.
  unfold Baseline.answers_route. fold pattern. rewrite Hp.
  unfold try_catch, bind at 1.
  destruct (r2_manifest w) as [| | |m] eqn:Hr.
  4:{ destruct (Baseline_returns w pattern new_loader m) as (old & st_old & Hold);
        [by right|done..|].
      assert (manifest_available w (tick st) m) as Hav.
      { destruct Hst as (Hm & _ & _). simpl.
        destruct (manifest st) as [m'|] eqn:Hms; [|by right].
        left. specialize (Hm m' eq_refl). rewrite Hr in Hm. by injection Hm as ->. }
      destruct (findMatchingAnswers_returns w pattern
                  (Some (as_argument (parseInt (query_or mp "50")))) (tick st) m)
        as (new & st1 & Hnew); [done..|].
      destruct (refinement_query w pattern
                  (Some (as_argument (parseInt (query_or mp "50")))) (tick st))
        as [_ Hval].
      { by destruct Hst as (? & ? & ?). }
      rewrite Hnew in Hval.
      destruct (Hval new eq_refl) as (old' & st_b & Hold' & Hsub & Hpre).
      rewrite Hold in Hold'. injection Hold' as <- <-.
      rewrite Hold, Hnew. by eexists 200, old, _, new, _, _. }
  all: assert (manifest_unavailable w new_loader) as Hnone
      by (split; [done|]; intros m; rewrite Hr; discriminate);
    assert (manifest_unavailable w (tick st)) as Hnone'
      by (destruct Hst as (Hm & _ & _); split;
          [simpl; destruct (manifest st) as [m'|]; [|done];
           specialize (Hm m' eq_refl); by rewrite Hr in Hm
          |intros m; rewrite Hr; discriminate]);
    destruct (loadManifest_unavailable w new_loader Hnone) as [e He];
    destruct (findMatchingAnswers_no_manifest w pattern
                (Some (as_argument (parseInt (query_or mp "50")))) (tick st) Hnone')
      as [e' ->];
    unfold Baseline.findMatchingAnswers; rewrite (bind_throws _ _ _ _ _ He);
    by eexists 500, [], _, [], [], _.
Qed.

(** X23. The worker's memory stays bounded: whatever is requested, in
    any order, the shard cache never holds more than 10 shards and the
    result cache never more than 100 result lists, on a store whose
    manifest has no empty shard file name and whose concurrent fetches
    each complete once. *)
Theorem worker_caches_stay_bounded (w : World) (reqs : list Request) :
  served_manifest_ok w → fetches_complete w →
  caches_bounded (serve w reqs new_loader).
Proof.
  intros Hserved Hfair.
  assert (loader_ok (serve w reqs new_loader)) as [Hbounded _]; [|done].
  apply (serve_inv w loader_ok (λ _ _ _, True)).
  - intros n st Hst. exact Hst.
  - intros p k _ _. by apply inv_findMatchingAnswers.
  - intros a mc. by apply inv_getClues.
  - apply loader_ok_new.
Qed.

Lemma wildcard_positions_from_upper n p :
  wildcard_positions_from n (toUpperCase p) = wildcard_positions_from n p.
Proof.
  revert n. induction p as [|c p IH]; intros n; [done|]. simpl.
  rewrite IH. destruct (Ascii.eqb c "?") eqn:Hc.
  - apply Ascii.eqb_eq in Hc as ->. done.
  - destruct (Ascii.eqb (upper_char c) "?") eqn:Hu; [|done].
    apply Ascii.eqb_eq, upper_char_wildcard in Hu as ->. done.
Qed.

Lemma analyzePattern_upper p : analyzePattern (toUpperCase p) = analyzePattern p.
Proof.
  unfold analyzePattern.
  rewrite wildcard_positions_from_upper, toUpperCase_length.
  assert (bool_decide (at_index (toUpperCase p) 0 = Some "?"%char) =
          bool_decide (at_index p 0 = Some "?"%char)) as ->; [|done].
  apply bool_decide_ext. rewrite toUpperCase_first.
  destruct (at_index p 0) as [c|]; csimpl; [|done].
  split; intros [= Hc]; f_equal.
  - by apply upper_char_wildcard.
  - by apply upper_char_wildcard.
Qed.

(** X24. The debug route answers from the pattern alone: it reads no
    store and leaves the loader as it is, answers 400 exactly when the
    pattern is missing, empty or has a character that is neither a letter
    nor the wildcard, and never 500. Otherwise it answers 200 with the
    pattern in upper case and the analysis of the pattern as typed (the
    letter case changes nothing in it), which is the analysis by which
    the engine chooses its strategy; the tips are the fast ones exactly
    when the pattern is not high-cost, as for every pattern that starts
    with a letter. *)
Theorem debug_route_reports_the_analysis (pp : option string) (st : Loader) :
  let pattern := query_or pp "" in
  (pattern = "" ∨ query_pattern pattern = false →
     debug_pattern_route pp st =
       (Returns (json (ErrorBody "Invalid pattern") 400 []), st)) ∧
  (pattern ≠ "" → query_pattern pattern = true →
     ∃ tips,
       debug_pattern_route pp st =
         (Returns (json (AnalysisBody (toUpperCase pattern) (analyzePattern pattern) tips)
                        200 []), st) ∧
       (tips = tips_fast ↔ isHighCostPattern (analyzePattern pattern) = false) ∧
       (tips = tips_slow ↔ isHighCostPattern (analyzePattern pattern) = true) ∧
       (at_index pattern 0 ≠ Some "?"%char → tips = tips_fast)).
Proof.
  intros pattern. unfold debug_pattern_route. fold pattern.
  unfold matches_one_or_more. rewrite all_in_class_query. split.
  - intros [->|Hbad]; [done|]. rewrite Hbad. by destruct (truthy pattern).
  - intros Hne%truthy_nonempty Hq. rewrite Hne, Hq. cbn [negb orb].
    unfold try_catch, ret. rewrite analyzePattern_upper.
    eexists. split; [reflexivity|]. cbv beta.
    destruct (isHighCostPattern (analyzePattern pattern)) eqn:Hcost.
    + split; [split; [intros Htips; vm_compute in Htips; discriminate Htips|done]|].
      split; [done|]. intros Hlit.
      unfold analyzePattern in Hcost. simpl in Hcost.
      apply andb_prop in Hcost as [Hstart _]. by apply bool_decide_eq_true in Hstart.
    + split; [done|]. split; [|done].
      split; [intros Htips; vm_compute in Htips; discriminate Htips|done].
Qed.
(** ** The build script and the store it fills *)

Section MapsOfTheBuild.

Context {V : Type}.

Lemma JSMap_set_set (m : JSMap.t V) k x y :
  JSMap.set (JSMap.set m k x) k y = JSMap.set m k y.
Proof.
  induction m as [|[k' v'] r IH]; simpl.
  - by rewrite decide_True.
  - destruct (decide (k' = k)) as [->|Hne]; simpl.
    + by rewrite decide_True.
    + rewrite decide_False by done. by rewrite IH.
Qed.

Lemma JSMap_elem_get (m : JSMap.t V) k v :
  NoDup (JSMap.keys m) → (k, v) ∈ m → JSMap.get m k = Some v.
Proof.
  unfold JSMap.keys. induction m as [|[k' v'] r IH]; csimpl.
  - by intros _ ?%elem_of_nil.
  - intros [Hk' Hr]%NoDup_cons [[= -> ->]|Hin]%elem_of_cons.
    + by rewrite decide_True.
    + rewrite decide_False; [by apply IH|]. intros ->. apply Hk'.
      apply list_elem_of_fmap. by exists (k, v).
Qed.

Lemma NumMap_get_set_eq (m : NumMap.t V) k v :
  NumMap.get (NumMap.set m k v) k = Some v.
Proof.
  induction m as [|[k' v'] r IH]; simpl.
  - by rewrite decide_True.
  - destruct (decide (k' = k)) as [->|Hne]; simpl.
    + by rewrite decide_True.
    + by rewrite decide_False.
Qed.

Lemma NumMap_get_set_ne (m : NumMap.t V) k k' v :
  k ≠ k' → NumMap.get (NumMap.set m k v) k' = NumMap.get m k'.
Proof.
  intros Hne. induction m as [|[k0 v0] r IH]; simpl.
  - by rewrite decide_False.
  - destruct (decide (k0 = k)) as [->|Hk0]; simpl.
    + by rewrite !decide_False.
    + by rewrite IH.
Qed.

Lemma NumMap_set_set (m : NumMap.t V) k x y :
  NumMap.set (NumMap.set m k x) k y = NumMap.set m k y.
Proof.
  induction m as [|[k' v'] r IH]; simpl.
  - by rewrite decide_True.
  - destruct (decide (k' = k)) as [->|Hne]; simpl.
    + by rewrite decide_True.
    + rewrite decide_False by done. by rewrite IH.
Qed.

Lemma NumMap_set_elem (m : NumMap.t V) k v kv :
  kv ∈ NumMap.set m k v → kv = (k, v) ∨ kv ∈ m.
Proof.
  induction m as [|[k' v'] r IH]; simpl.
  - intros ->%list_elem_of_singleton. by left.
  - destruct (decide (k' = k)) as [->|Hne].
    + intros [->|Hin]%elem_of_cons; [by left|right; by right].
    + intros [->|Hin]%elem_of_cons; [right; by left|].
      destruct (IH Hin); [by left|right; by right].
Qed.

Lemma NumMap_keys_set (m : NumMap.t V) k v :
  (NumMap.set m k v).*1 = if decide (k ∈ m.*1) then m.*1 else m.*1 ++ [k].
Proof.
  induction m as [|[k' v'] r IH]; csimpl; [done|].
  destruct (decide (k' = k)) as [->|Hk']; csimpl.
  - rewrite decide_True; [done|left].
  - rewrite IH. destruct (decide (k ∈ r.*1)) as [Hin|Hout].
    + rewrite decide_True; [done|by right].
    + rewrite decide_False; [done|].
      intros [->|?]%elem_of_cons; done.
Qed.

Lemma NumMap_NoDup_set (m : NumMap.t V) k v :
  NoDup m.*1 → NoDup (NumMap.set m k v).*1.
Proof.
  intros Hm. rewrite NumMap_keys_set. case_decide as Hk; [done|].
  apply NoDup_app. split; [done|]. split; [|apply NoDup_singleton].
  by intros x Hx ->%list_elem_of_singleton.
Qed.

Lemma NumMap_get_elem (m : NumMap.t V) k v : NumMap.get m k = Some v → (k, v) ∈ m.
Proof.
  induction m as [|[k' v'] r IH]; simpl; [done|].
  case_decide as Hk; [intros [= ->]; subst; left|].
  intros H. right. by apply IH.
Qed.

Lemma NumMap_elem_get (m : NumMap.t V) k v :
  NoDup m.*1 → (k, v) ∈ m → NumMap.get m k = Some v.
Proof.
  induction m as [|[k' v'] r IH]; csimpl.
  - by intros _ ?%elem_of_nil.
  - intros [Hk' Hr]%NoDup_cons [[= -> ->]|Hin]%elem_of_cons.
    + by rewrite decide_True.
    + rewrite decide_False; [by apply IH|]. intros ->. apply Hk'.
      apply list_elem_of_fmap. by exists (k, v).
Qed.

Lemma NumMap_get_None (m : NumMap.t V) k : NumMap.get m k = None ↔ k ∉ m.*1.
Proof.
  induction m as [|[k' v'] r IH]; csimpl.
  - split; [intros _ ?%elem_of_nil; done|done].
  - case_decide as Hk'.
    + subst. split; [done|]. intros []. left.
    + rewrite IH. split.
      * intros Hr [->|?]%elem_of_cons; done.
      * intros Hr ?. apply Hr. by right.
Qed.

End MapsOfTheBuild.

(** The statements that record an entry, without the tests for a key:
    the three levels are set from what they held. *)
Lemma record_sets ix A clue :
  let byLength := Build.answersByLengthAndLetter ix in
  let lengthMap := default [] (NumMap.get byLength (String.length A)) in
  let letterMap := default [] (JSMap.get lengthMap (String.substring 0 1 A)) in
  let kept := default [] (JSMap.get (Build.cluesByAnswer ix) A) in
  Build.record ix A clue =
  {| Build.answersByLengthAndLetter :=
       NumMap.set byLength (String.length A)
         (JSMap.set lengthMap (String.substring 0 1 A)
            (JSMap.set letterMap A (default 0 (JSMap.get letterMap A) + 1)%Z));
     Build.cluesByAnswer :=
       JSMap.set (Build.cluesByAnswer ix) A
         (if length kept <? 10 then kept ++ [clue] else kept);
     Build.entries := (Build.entries ix + 1)%Z |}.
Proof.
  intros byLength lengthMap letterMap kept. unfold Build.record.
  fold byLength. unfold NumMap.has, JSMap.has. f_equal.
  - subst lengthMap letterMap.
    destruct (NumMap.get byLength (String.length A)) as [lm|] eqn:Hlm;
      cbn [default from_option id].
    + rewrite Hlm. cbn [default from_option id].
      destruct (JSMap.get lm (String.substring 0 1 A)) as [m|] eqn:Hm;
        cbn [default from_option id].
      * rewrite Hm. cbn [default from_option id].
        destruct (JSMap.get m A) as [c|] eqn:Hc; cbn [default from_option id].
        -- by rewrite Hc.
        -- by rewrite JSMap_get_set_eq, JSMap_set_set.
      * repeat first [rewrite JSMap_get_set_eq | rewrite JSMap_set_set
                     | progress cbn [default from_option id JSMap.get]].
        done.
    + repeat first [rewrite JSMap_get_set_eq | rewrite NumMap_get_set_eq
                   | rewrite JSMap_set_set | rewrite NumMap_set_set
                   | progress cbn [default from_option id JSMap.get]].
      done.
  - subst kept.
    destruct (JSMap.get (Build.cluesByAnswer ix) A) as [cl|] eqn:Hcl;
      cbn [default from_option id].
    + by rewrite Hcl.
    + by rewrite JSMap_get_set_eq, JSMap_set_set.
Qed.

Lemma clues_of_snoc B es A clue :
  clues_of B (es ++ [(A, clue)]) =
  clues_of B es ++ (if decide (A = B) then [clue] else []).
Proof.
  unfold clues_of. rewrite filter_app, fmap_app. f_equal.
  rewrite filter_cons, filter_nil. simpl. by destruct (decide (A = B)).
Qed.

Lemma occurrences_snoc B es A clue :
  occurrences B (es ++ [(A, clue)]) =
  (occurrences B es + (if decide (A = B) then 1 else 0))%Z.
Proof.
  unfold occurrences. rewrite filter_app, length_app.
  rewrite filter_cons, filter_nil. simpl.
  destruct (decide (A = B)); simpl; lia.
Qed.

Lemma answers_snoc (B : string) (es : list (string * string)) A (clue : string) :
  B ∈ (es ++ [(A, clue)]).*1 ↔ B ∈ es.*1 ∨ B = A.
Proof.
  rewrite fmap_app, elem_of_app. simpl. by rewrite list_elem_of_singleton.
Qed.

Lemma clues_of_absent B (es : list (string * string)) : B ∉ es.*1 → clues_of B es = [].
Proof.
  intros Hout. unfold clues_of.
  induction es as [|[A clue] es IH]; [done|]. rewrite filter_cons. simpl.
  rewrite decide_False.
  - apply IH. intros Hin. apply Hout. by right.
  - intros ->. apply Hout. left.
Qed.

Lemma occurrences_absent B (es : list (string * string)) : B ∉ es.*1 → occurrences B es = 0%Z.
Proof.
  intros Hout. unfold occurrences.
  induction es as [|[A clue] es IH]; [done|]. rewrite filter_cons. simpl.
  rewrite decide_False.
  - apply IH. intros Hin. apply Hout. by right.
  - intros ->. apply Hout. left.
Qed.

Lemma occurrences_present B (es : list (string * string)) : B ∈ es.*1 → (1 <= occurrences B es)%Z.
Proof.
  unfold occurrences. induction es as [|[A clue] es IH]; csimpl.
  - by intros ?%elem_of_nil.
  - rewrite filter_cons. simpl. destruct (decide (A = B)) as [->|Hne].
    + intros _. simpl. lia.
    + intros [->|Hin]%elem_of_cons; [done|]. by apply IH.
Qed.

Lemma kept_clues_push (K : list string) clue :
  (if length (take 10 K) <? 10 then take 10 K ++ [clue] else take 10 K) =
  take 10 (K ++ [clue]).
Proof.
  destruct (decide (length K < 10)) as [Hshort|Hlong].
  - rewrite (take_ge K) by lia.
    rewrite (proj2 (Nat.ltb_lt _ _)) by done.
    rewrite take_ge; [done|]. rewrite length_app. simpl. lia.
  - rewrite (proj2 (Nat.ltb_ge _ _)) by (rewrite length_take; lia).
    by rewrite take_app_le by lia.
Qed.

Lemma count_lookup_defaults ix B :
  count_lookup ix B =
  JSMap.get
    (default []
       (JSMap.get
          (default [] (NumMap.get (Build.answersByLengthAndLetter ix) (String.length B)))
          (String.substring 0 1 B))) B.
Proof.
  unfold count_lookup.
  destruct (NumMap.get _ (String.length B)) as [lm|]; [|done]. csimpl.
  by destruct (JSMap.get lm _) as [m|].
Qed.

Lemma substring_first_length A : A ≠ "" → String.length (String.substring 0 1 A) = 1.
Proof. destruct A as [|c [|d r]]; [done|done|done]. Qed.

(** The first loop keeps the index of the lines accepted so far. *)
Lemma index_of_record es ix A clue :
  A ≠ "" → index_of es ix → index_of (es ++ [(A, clue)]) (Build.record ix A clue).
Proof.
  intros Hne (Hentries & Hclues & Hcounts & Hkeys & Hlevels).
  rewrite record_sets. cbv zeta.
  set (byLength := Build.answersByLengthAndLetter ix) in *.
  set (n := String.length A). set (l := String.substring 0 1 A).
  set (lm := default [] (NumMap.get byLength n)).
  set (m := default [] (JSMap.get lm l)).
  assert (NoDup (JSMap.keys lm) ∧
          ∀ l' m', (l', m') ∈ lm →
            String.length l' = 1 ∧ NoDup (JSMap.keys m') ∧
            ∀ A' c', (A', c') ∈ m' →
              String.length A' = n ∧ String.substring 0 1 A' = l') as [Hlm_keys Hlm].
  { subst lm. destruct (NumMap.get byLength n) as [lm0|] eqn:Hget; simpl.
    - by apply Hlevels, NumMap_get_elem.
    - split; [apply NoDup_nil_2|]. by intros ? ? ?%elem_of_nil. }
  assert (NoDup (JSMap.keys m) ∧
          ∀ A' c', (A', c') ∈ m →
            String.length A' = n ∧ String.substring 0 1 A' = l) as [Hm_keys Hm].
  { subst m. destruct (JSMap.get lm l) as [m0|] eqn:Hget; simpl.
    - apply JSMap_get_elem in Hget. by destruct (Hlm _ _ Hget) as (_ & ? & ?).
    - split; [apply NoDup_nil_2|]. by intros ? ? ?%elem_of_nil. }
  split; [|split; [|split; [|split]]]; cbn [Build.entries Build.cluesByAnswer
                                              Build.answersByLengthAndLetter].
  - rewrite Hentries, length_app. simpl. lia.
  - intros B. destruct (decide (A = B)) as [<-|Hdiff].
    + rewrite JSMap_get_set_eq. rewrite decide_True by (apply answers_snoc; by right).
      f_equal. rewrite clues_of_snoc, decide_True by done.
      rewrite Hclues. destruct (decide (A ∈ es.*1)) as [Hin|Hout]; simpl.
      * apply kept_clues_push.
      * rewrite (clues_of_absent A es Hout). done.
    + rewrite JSMap_get_set_ne by done. rewrite Hclues.
      rewrite clues_of_snoc. rewrite (decide_False (P := A = B)) by done.
      rewrite app_nil_r.
      apply option_eq. intros x. repeat case_decide; try done.
      * exfalso. rewrite answers_snoc in *. tauto.
      * exfalso. rewrite answers_snoc in *. destruct H0 as [?|?]; [done|congruence].
  - intros B. rewrite count_lookup_defaults.
    cbn [Build.answersByLengthAndLetter]. rewrite occurrences_snoc.
    destruct (decide (A = B)) as [<-|Hdiff].
    + fold n l. rewrite NumMap_get_set_eq. simpl.
      rewrite JSMap_get_set_eq. simpl. rewrite JSMap_get_set_eq.
      rewrite decide_True by (apply answers_snoc; by right). f_equal.
      assert (JSMap.get m A = count_lookup ix A) as ->.
      { by rewrite count_lookup_defaults. }
      rewrite Hcounts. destruct (decide (A ∈ es.*1)) as [Hin|Hout]; simpl; [done|].
      by rewrite (occurrences_absent A es Hout).
    + rewrite Z.add_0_r.
      assert (JSMap.get
                (default []
                   (JSMap.get
                      (default []
                         (NumMap.get
                            (NumMap.set byLength n
                               (JSMap.set lm l
                                  (JSMap.set m A (default 0 (JSMap.get m A) + 1)%Z)))
                            (String.length B)))
                      (String.substring 0 1 B))) B = count_lookup ix B) as ->.
      { rewrite count_lookup_defaults. fold byLength.
        destruct (decide (n = String.length B)) as [Hn|Hn].
        - rewrite <-Hn, NumMap_get_set_eq. simpl. fold lm.
          destruct (decide (l = String.substring 0 1 B)) as [Hl|Hl].
          + rewrite <-Hl, JSMap_get_set_eq. simpl. fold m.
            by rewrite JSMap_get_set_ne.
          + by rewrite JSMap_get_set_ne.
        - by rewrite NumMap_get_set_ne. }
      rewrite Hcounts. apply option_eq. intros x. repeat case_decide; try done.
      * exfalso. rewrite answers_snoc in *. tauto.
      * exfalso. rewrite answers_snoc in *. destruct H0 as [?|?]; [done|congruence].
  - by apply NumMap_NoDup_set.
  - intros n' lm' [[= -> ->]|Hin]%NumMap_set_elem; [|exact (Hlevels _ _ Hin)].
    split; [by apply JSMap_NoDup_set|].
    intros l' m' [[= -> ->]|Hin]%JSMap_set_elem; [|exact (Hlm _ _ Hin)].
    split; [by apply substring_first_length|].
    split; [by apply JSMap_NoDup_set|].
    intros A' c' [[= -> ->]|Hin]%JSMap_set_elem; [done|exact (Hm _ _ Hin)].
Qed.

Lemma toUpperCase_nonempty s : s ≠ "" → toUpperCase s ≠ "".
Proof. by destruct s. Qed.

Lemma accepted_line_entry raw A clue :
  accepted_line raw = Some (A, clue) →
  A ≠ "" ∧ String.length A ≤ 20 ∧ toUpperCase A = A ∧ clue ≠ "".
Proof.
  unfold accepted_line.
  destruct (split Build.TAB (trim raw)) as [|answer [|clue' rest]]; [done..|].
  destruct (truthy answer) eqn:Ha; [|done].
  destruct (truthy clue') eqn:Hc; [|done].
  destruct (String.length (toUpperCase answer) <=? 20) eqn:Hlen; [|done].
  simpl. intros [= <- <-]. apply Nat.leb_le in Hlen.
  apply truthy_nonempty in Ha, Hc.
  split; [by apply toUpperCase_nonempty|]. split; [done|].
  split; [apply toUpperCase_idem|done].
Qed.

(** The body of the first loop records the accepted lines, and no
    other. *)
Lemma process_line_accepted ix raw :
  Build.process_line ix raw =
  match accepted_line raw with
  | Some e => Build.record ix e.1 e.2
  | None => ix
  end.
Proof.
  unfold Build.process_line, accepted_line.
  destruct (trim raw) as [|c line] eqn:Hline; [done|].
  cbn [truthy negb].
  destruct (split Build.TAB (String c line)) as [|answer [|clue rest]]; [done..|].
  destruct (truthy answer && truthy clue); [|done]. cbn [andb].
  destruct (20 <? String.length (toUpperCase answer)) eqn:Hlong.
  - apply Nat.ltb_lt in Hlong. by rewrite (proj2 (Nat.leb_gt _ _)) by lia.
  - apply Nat.ltb_ge in Hlong. by rewrite (proj2 (Nat.leb_le _ _)) by lia.
Qed.

Lemma index_of_empty : index_of [] Build.empty_index.
Proof.
  split; [done|]. split; [done|]. split; [done|]. split; [apply NoDup_nil_2|].
  by intros ? ? ?%elem_of_nil.
Qed.

Lemma index_of_lines lines es ix :
  index_of es ix →
  index_of (es ++ omap accepted_line lines) (fold_left Build.process_line lines ix).
Proof.
  revert es ix. induction lines as [|raw lines IH]; intros es ix Hix; csimpl.
  - by rewrite app_nil_r.
  - rewrite process_line_accepted.
    destruct (accepted_line raw) as [[A clue]|] eqn:Hraw; csimpl.
    + rewrite cons_middle, app_assoc. apply IH.
      apply index_of_record; [|done].
      by destruct (accepted_line_entry raw A clue Hraw).
    + by apply IH.
Qed.

(** The index that the first loop reads from a TSV. *)
Lemma read_index_spec tsv : index_of (tsv_entries tsv) (Build.read_index tsv).
Proof. apply (index_of_lines _ []), index_of_empty. Qed.

Lemma tsv_entries_entry tsv A :
  A ∈ (tsv_entries tsv).*1 →
  A ≠ "" ∧ String.length A ≤ 20 ∧ toUpperCase A = A.
Proof.
  intros ([A' clue] & -> & Hin)%list_elem_of_fmap.
  apply list_elem_of_omap in Hin as (raw & _ & Hraw).
  by destruct (accepted_line_entry raw A' clue Hraw) as (? & ? & ? & _).
Qed.

Section ObjectsOfTheBuild.

Context {V : Type}.
Implicit Types (obj : JSObject.t V) (k : string) (v : V).

Lemma JSObject_get_JSMap obj k : JSObject.get obj k = JSMap.get obj k.
Proof. done. Qed.

Lemma insert_index_get n obj k v k' :
  JSObject.get obj k = None →
  JSObject.get (insert_index n k v obj) k' =
  if decide (k = k') then Some v else JSObject.get obj k'.
Proof.
  induction obj as [|[k0 v0] r IH]; simpl; [done|].
  destruct (decide (k0 = k)) as [->|Hk0]; [done|]. intros Hr.
  destruct (array_index k0) as [n0|]; [destruct (n0 <? n)%N|]; simpl.
  - rewrite IH by done. destruct (decide (k0 = k')) as [->|?]; [|done].
    by rewrite decide_False by done.
  - destruct (decide (k = k')); [done|]. done.
  - destruct (decide (k = k')); [done|]. done.
Qed.

Lemma insert_index_set n obj k x y :
  JSObject.get obj k = None →
  JSMap.set (insert_index n k x obj) k y = insert_index n k y obj.
Proof.
  induction obj as [|[k0 v0] r IH]; simpl.
  - by rewrite decide_True.
  - destruct (decide (k0 = k)) as [->|Hk0]; [done|]. intros Hr.
    destruct (array_index k0) as [n0|]; [destruct (n0 <? n)%N|]; simpl.
    + rewrite decide_False by done. by rewrite IH.
    + by rewrite decide_True.
    + by rewrite decide_True.
Qed.

Lemma insert_index_elem n obj k v kv :
  kv ∈ insert_index n k v obj → kv = (k, v) ∨ kv ∈ obj.
Proof.
  induction obj as [|[k0 v0] r IH]; simpl.
  - intros ->%list_elem_of_singleton. by left.
  - destruct (array_index k0) as [n0|]; [destruct (n0 <? n)%N|].
    + intros [->|Hin]%elem_of_cons; [right; left|].
      destruct (IH Hin); [by left|right; by right].
    + intros [->|Hin]%elem_of_cons; [by left|by right].
    + intros [->|Hin]%elem_of_cons; [by left|by right].
Qed.

Lemma insert_index_keys n obj k v :
  JSObject.keys (insert_index n k v obj) ≡ₚ k :: JSObject.keys obj.
Proof.
  unfold JSObject.keys. induction obj as [|[k0 v0] r IH]; csimpl; [done|].
  destruct (array_index k0) as [n0|]; [destruct (n0 <? n)%N|]; csimpl; try done.
  rewrite IH. apply Permutation_swap.
Qed.

Lemma JSObject_get_set_eq obj k v : JSObject.get (JSObject_set obj k v) k = Some v.
Proof.
  unfold JSObject_set. destruct (JSObject.get obj k) eqn:Hget.
  - apply JSMap_get_set_eq.
  - destruct (array_index k); [|apply JSMap_get_set_eq].
    rewrite insert_index_get by done. by rewrite decide_True.
Qed.

Lemma JSObject_get_set_ne obj k k' v :
  k ≠ k' → JSObject.get (JSObject_set obj k v) k' = JSObject.get obj k'.
Proof.
  intros Hne. unfold JSObject_set. destruct (JSObject.get obj k) eqn:Hget.
  - by apply JSMap_get_set_ne.
  - destruct (array_index k); [|by apply JSMap_get_set_ne].
    rewrite insert_index_get by done. by rewrite decide_False.
Qed.

Lemma JSObject_set_set obj k x y :
  JSObject_set (JSObject_set obj k x) k y = JSObject_set obj k y.
Proof.
  unfold JSObject_set at 1. rewrite JSObject_get_set_eq.
  unfold JSObject_set. destruct (JSObject.get obj k) eqn:Hget.
  - apply JSMap_set_set.
  - destruct (array_index k); [|apply JSMap_set_set].
    by apply insert_index_set.
Qed.

Lemma JSObject_set_elem obj k v kv :
  kv ∈ JSObject_set obj k v → kv = (k, v) ∨ kv ∈ obj.
Proof.
  unfold JSObject_set. destruct (JSObject.get obj k) eqn:Hget.
  - apply JSMap_set_elem.
  - destruct (array_index k); [apply insert_index_elem|apply JSMap_set_elem].
Qed.

Lemma JSObject_NoDup_set obj k v :
  NoDup (JSObject.keys obj) → NoDup (JSObject.keys (JSObject_set obj k v)).
Proof.
  intros Hobj. unfold JSObject_set. destruct (JSObject.get obj k) eqn:Hget.
  - by apply (JSMap_NoDup_set obj).
  - destruct (array_index k); [|by apply (JSMap_NoDup_set obj)].
    rewrite insert_index_keys. apply NoDup_cons. split; [|done].
    by apply (JSMap_get_None obj).
Qed.

(** The object after a sequence of assignments: a property holds the
    value that was assigned to it last. *)
Lemma JSObject_get_assigned {E} (key : E → string) (val : E → V) (es : list E) obj k :
  JSObject.get (fold_left (λ o e, JSObject_set o (key e) (val e)) es obj) k =
  match last (filter (λ e, key e = k) es) with
  | Some e => Some (val e)
  | None => JSObject.get obj k
  end.
Proof.
  revert obj. induction es as [|e es IH]; intros obj; [done|].
  simpl. rewrite IH, filter_cons.
  destruct (decide (key e = k)) as [<-|Hne].
  - rewrite last_cons. destruct (last _); [done|apply JSObject_get_set_eq].
  - destruct (last _); [done|by apply JSObject_get_set_ne].
Qed.

End ObjectsOfTheBuild.

Lemma JSMap_set_same {V} (m : JSMap.t V) k v :
  JSMap.get m k = Some v → JSMap.set m k v = m.
Proof.
  induction m as [|[k' v'] r IH]; simpl; [done|].
  destruct (decide (k' = k)) as [->|Hk]; [by intros [= ->]|].
  intros Hr. by rewrite IH.
Qed.

Section SecondLoop.

Variable byAnswer : JSMap.t (list string).

(** The files and the object of a length, after the inner loop. *)
Lemma write_chunks_spec n lengthMap out0 obj0 :
  JSObject.get (Build.chunkManifest out0) (of_nat n) = Some obj0 →
  fold_left (Build.write_chunk byAnswer n) lengthMap out0 =
  {| Build.files :=
       Build.files out0 ++
       map (λ e, (shard_file n (sanitize_all e.1), Build.make_chunk byAnswer e.2))
           lengthMap;
     Build.chunkManifest :=
       JSObject_set (Build.chunkManifest out0) (of_nat n)
         (fold_left (λ o e, JSObject_set o (sanitize_all e.1)
                              (shard_file n (sanitize_all e.1)))
                    lengthMap obj0);
     Build.written := (Build.written out0 + Z.of_nat (length lengthMap))%Z |}.
Proof.
  revert out0 obj0. induction lengthMap as [|[l m] lm IH]; intros out0 obj0 Hobj.
  - destruct out0 as [files M written]. simpl in *. f_equal.
    + by rewrite app_nil_r.
    + unfold JSObject_set. rewrite Hobj. symmetry. by apply JSMap_set_same.
    + lia.
  - cbn [fold_left]. erewrite IH.
    + unfold Build.write_chunk. cbn [Build.files Build.chunkManifest Build.written fst snd].
      rewrite Hobj. cbn [default from_option id]. f_equal.
      * rewrite <-app_assoc. done.
      * by rewrite JSObject_set_set.
      * cbn [length]. lia.
    + unfold Build.write_chunk. cbn [Build.chunkManifest].
      rewrite Hobj. apply JSObject_get_set_eq.
Qed.

Lemma write_length_spec out n lengthMap :
  Build.write_length byAnswer out (n, lengthMap) =
  {| Build.files :=
       Build.files out ++
       map (λ e, (shard_file n (sanitize_all e.1), Build.make_chunk byAnswer e.2))
           lengthMap;
     Build.chunkManifest :=
       JSObject_set (Build.chunkManifest out) (of_nat n)
         (length_object n lengthMap);
     Build.written := (Build.written out + Z.of_nat (length lengthMap))%Z |}.
Proof.
  unfold Build.write_length, length_object. cbn [fst snd].
  erewrite write_chunks_spec by apply JSObject_get_set_eq.
  cbn [Build.files Build.chunkManifest Build.written].
  by rewrite JSObject_set_set.
Qed.

Lemma write_lengths_spec (byLength : list (nat * list (string * JSMap.t Z))) out :
  fold_left (Build.write_length byAnswer) byLength out =
  {| Build.files :=
       Build.files out ++
       (byLength ≫= λ e,
          (λ e', (shard_file e.1 (sanitize_all e'.1),
                  Build.make_chunk byAnswer e'.2)) <$> e.2);
     Build.chunkManifest :=
       fold_left (λ M e, JSObject_set M (of_nat e.1) (length_object e.1 e.2))
                 byLength (Build.chunkManifest out);
     Build.written :=
       (Build.written out + Z.of_nat (length (byLength ≫= λ e, e.2)))%Z |}.
Proof.
  revert out. induction byLength as [|[n lm] byLength IH]; intros out.
  - destruct out. simpl. f_equal; [by rewrite app_nil_r|lia].
  - cbn [fold_left]. rewrite IH, write_length_spec.
    cbn [Build.files Build.chunkManifest Build.written fst snd].
    rewrite !bind_cons, length_app, <-app_assoc. cbn [fst snd]. f_equal. lia.
Qed.

End SecondLoop.

Lemma write_index_spec ix :
  Build.write_index ix =
  {| Build.files := shard_files ix;
     Build.chunkManifest :=
       fold_left (λ M e, JSObject_set M (of_nat e.1) (length_object e.1 e.2))
                 (Build.answersByLengthAndLetter ix) [];
     Build.written := Z.of_nat (length (shard_files ix)) |}.
Proof.
  unfold Build.write_index. rewrite write_lengths_spec.
  cbn [Build.files Build.chunkManifest Build.written Build.empty_output app].
  f_equal. rewrite Z.add_0_l. f_equal. unfold shard_files.
  induction (Build.answersByLengthAndLetter ix) as [|[n lm] byLength IH]; [done|].
  rewrite !bind_cons, !length_app, IH. by rewrite length_fmap.
Qed.


Lemma string_app_cons c s t : String c s +:+ t = String c (s +:+ t).
Proof. done. Qed.

Lemma string_app_assoc s t u : (s +:+ t) +:+ u = s +:+ (t +:+ u).
Proof.
  induction s as [|c s IH]; [done|]. by rewrite !string_app_cons, IH.
Qed.

Lemma string_app_length s t :
  String.length (s +:+ t) = String.length s + String.length t.
Proof. induction s as [|c s IH]; [done|]. rewrite string_app_cons. simpl. by rewrite IH. Qed.

Lemma string_app_inj_length s1 s2 t1 t2 :
  s1 +:+ t1 = s2 +:+ t2 → String.length t1 = String.length t2 →
  s1 = s2 ∧ t1 = t2.
Proof.
  revert s2. induction s1 as [|c s1 IH]; intros [|d s2] Heq Hlen.
  - done.
  - exfalso. change ("" +:+ t1) with t1 in Heq. subst t1.
    rewrite string_app_length in Hlen. simpl in Hlen. lia.
  - exfalso. change ("" +:+ t2) with t2 in Heq. subst t2.
    rewrite string_app_length in Hlen. simpl in Hlen. lia.
  - rewrite !string_app_cons in Heq. injection Heq as -> Heq.
    destruct (IH s2 Heq Hlen) as [-> ->]. done.
Qed.

(** Two shards of different lengths or buckets have different files. *)
Lemma shard_file_inj n n' k k' :
  String.length k = String.length k' →
  shard_file n k = shard_file n' k' → n = n' ∧ k = k'.
Proof.
  intros Hlen Heq. unfold shard_file in Heq.
  apply (inj (String.append "chunk_")) in Heq.
  rewrite !string_app_assoc in Heq.
  apply string_app_inj_length in Heq as [Hn Hk].
  - split; [by apply (inj pretty)|].
    apply (inj (String.append "_")) in Hk.
    by apply string_app_inj_length in Hk as [-> _].
  - rewrite !string_app_length. simpl. lia.
Qed.

Lemma shard_file_truthy n k : truthy (shard_file n k) = true.
Proof. done. Qed.

Lemma chunk_key_inj : Inj (=) (=) chunk_key.
Proof. intros f f' Heq. by apply (inj (String.append "chunked-indexes/")) in Heq. Qed.

Lemma sanitize_fixed c : is_upper c || is_digit c = true → sanitize c = c.
Proof. intros Hc. unfold sanitize. by rewrite Hc. Qed.

Lemma sanitize_clean c : is_upper (sanitize c) || is_digit (sanitize c) = true → sanitize c = c.
Proof.
  unfold sanitize. destruct (is_upper c || is_digit c) eqn:Hc; [done|].
  intros Hbad. by vm_compute in Hbad.
Qed.

(** The bucket of a letter or digit holds the first characters that are
    this letter or digit, and no other. *)
Lemma sanitize_letter_inj l C :
  String.length l = 1 → is_upper C || is_digit C = true →
  sanitize_all l = String C EmptyString → l = String C EmptyString.
Proof.
  destruct l as [|c [|d r]]; [done| |done]. intros _ HC [= Hc].
  f_equal. rewrite <-Hc in HC. apply sanitize_clean in HC. congruence.
Qed.

Lemma last_filter_unique {A} (P : A → Prop) `{∀ x, Decision (P x)} (l : list A) x :
  x ∈ l → P x → (∀ y, y ∈ l → P y → y = x) → last (filter P l) = Some x.
Proof.
  intros Hx HPx Hunique. destruct (last (filter P l)) as [y|] eqn:Hlast.
  - apply last_Some_elem_of, list_elem_of_filter in Hlast as [HPy Hy].
    f_equal. by apply Hunique.
  - apply last_None in Hlast.
    assert (x ∈ filter P l) as Hin by by apply list_elem_of_filter.
    rewrite Hlast in Hin. by apply elem_of_nil in Hin.
Qed.

Lemma assigned_elem {E V} (key : E → string) (val : E → V) (es : list E)
    (obj : JSObject.t V) kv :
  kv ∈ fold_left (λ o e, JSObject_set o (key e) (val e)) es obj →
  kv ∈ obj ∨ ∃ e, e ∈ es ∧ kv = (key e, val e).
Proof.
  revert obj. induction es as [|e es IH]; intros obj; simpl; [by left|].
  intros [[->|Hin]%JSObject_set_elem|(e' & He' & ->)]%IH.
  - right. exists e. split; [left|done].
  - by left.
  - right. exists e'. split; [by right|done].
Qed.

Lemma assigned_NoDup {E V} (key : E → string) (val : E → V) (es : list E)
    (obj : JSObject.t V) :
  NoDup (JSObject.keys obj) →
  NoDup (JSObject.keys (fold_left (λ o e, JSObject_set o (key e) (val e)) es obj)).
Proof.
  revert obj. induction es as [|e es IH]; intros obj Hobj; simpl; [done|].
  by apply IH, JSObject_NoDup_set.
Qed.

Lemma length_object_elem n lengthMap k file :
  (k, file) ∈ length_object n lengthMap →
  ∃ e, e ∈ lengthMap ∧ k = sanitize_all e.1 ∧ file = shard_file n k.
Proof.
  intros [?%elem_of_nil|(e & He & [= -> ->])]%assigned_elem; [done|].
  by exists e.
Qed.

Lemma length_object_NoDup n lengthMap : NoDup (JSObject.keys (length_object n lengthMap)).
Proof. apply assigned_NoDup, NoDup_nil_2. Qed.

Lemma length_object_get n lengthMap e :
  e ∈ lengthMap →
  JSObject.get (length_object n lengthMap) (sanitize_all e.1) =
  Some (shard_file n (sanitize_all e.1)).
Proof.
  intros He. unfold length_object. rewrite JSObject_get_assigned.
  destruct (last _) as [e'|] eqn:Hlast.
  - apply last_Some_elem_of, list_elem_of_filter in Hlast as [-> _]. done.
  - apply last_None in Hlast.
    match type of Hlast with
    | ?kept = [] => assert (e ∈ kept) as Hin by by apply list_elem_of_filter
    end.
    rewrite Hlast in Hin. by apply elem_of_nil in Hin.
Qed.

Section BuiltManifest.

Variable ix : Build.Index.
Hypothesis Hkeys : NoDup (Build.answersByLengthAndLetter ix).*1.

Local Abbreviation built := (Build.chunkManifest (Build.write_index ix)).

Lemma built_chunks_elem k obj :
  (k, obj) ∈ built →
  ∃ n lengthMap, (n, lengthMap) ∈ Build.answersByLengthAndLetter ix ∧
                 k = of_nat n ∧ obj = length_object n lengthMap.
Proof.
  rewrite write_index_spec. cbn [Build.chunkManifest].
  intros [?%elem_of_nil|([n lm] & He & [= -> ->])]%assigned_elem; [done|].
  by exists n, lm.
Qed.

Lemma built_chunks_get n lengthMap :
  (n, lengthMap) ∈ Build.answersByLengthAndLetter ix →
  JSObject.get built (of_nat n) = Some (length_object n lengthMap).
Proof.
  intros Hin. rewrite write_index_spec. cbn [Build.chunkManifest].
  rewrite JSObject_get_assigned.
  rewrite (last_filter_unique _ _ (n, lengthMap)); [done..|].
  intros [n' lm'] Hin' Hn. simpl in Hn. apply (inj pretty) in Hn as ->.
  f_equal. apply (NumMap_elem_get _ _ _ Hkeys) in Hin, Hin'. congruence.
Qed.

(** What the built manifest registers. *)
Lemma built_registered n bucket file :
  JSObject.get built (of_nat n) ≫= (λ lc, JSObject.get lc bucket) = Some file →
  ∃ lengthMap e,
    (n, lengthMap) ∈ Build.answersByLengthAndLetter ix ∧ e ∈ lengthMap ∧
    bucket = sanitize_all e.1 ∧ file = shard_file n bucket.
Proof.
  destruct (JSObject.get built (of_nat n)) as [lc|] eqn:Hlc; [|done]. csimpl.
  intros Hfile. apply (JSMap_get_elem built) in Hlc.
  apply built_chunks_elem in Hlc as (n' & lm & Hin & Hn & ->).
  apply (inj pretty) in Hn as <-.
  apply (JSMap_get_elem (length_object n lm)), length_object_elem in Hfile
    as (e & He & -> & ->).
  by exists lm, e.
Qed.

End BuiltManifest.

(** Every shard file that was written can be fetched from the store. *)
Lemma uploaded_written files file chunk :
  (file, chunk) ∈ files → ∃ chunk', uploaded files (chunk_key file) = R2Body chunk'.
Proof.
  intros Hin. unfold uploaded. destruct (last _) as [fc|] eqn:Hlast; [by eexists|].
  apply last_None in Hlast.
  match type of Hlast with
  | ?kept = [] => assert ((file, chunk) ∈ kept) as Hin' by by apply list_elem_of_filter
  end.
  rewrite Hlast in Hin'. by apply elem_of_nil in Hin'.
Qed.

(** A file that was written once holds what was written. *)
Lemma uploaded_unique files file chunk :
  (file, chunk) ∈ files →
  (∀ chunk', (file, chunk') ∈ files → chunk' = chunk) →
  uploaded files (chunk_key file) = R2Body chunk.
Proof.
  intros Hin Hunique. unfold uploaded.
  rewrite (last_filter_unique _ _ (file, chunk)); [done..|].
  intros [file' chunk'] Hin' Hkey. simpl in Hkey.
  apply chunk_key_inj in Hkey as ->. f_equal. by apply Hunique.
Qed.

Lemma shard_files_elem ix file chunk :
  (file, chunk) ∈ shard_files ix ↔
  ∃ n lengthMap l letterMap,
    (n, lengthMap) ∈ Build.answersByLengthAndLetter ix ∧
    (l, letterMap) ∈ lengthMap ∧
    file = shard_file n (sanitize_all l) ∧
    chunk = Build.make_chunk (Build.cluesByAnswer ix) letterMap.
Proof.
  unfold shard_files. rewrite list_elem_of_bind. split.
  - intros ([n lm] & ([l m] & [= -> ->] & Hlm)%list_elem_of_fmap & Hin).
    by exists n, lm, l, m.
  - intros (n & lm & l & m & Hin & Hlm & -> & ->).
    exists (n, lm). split; [|done]. apply list_elem_of_fmap. by exists (l, m).
Qed.

(** X25. The build is well formed, whatever the TSV holds: every shard
    file name in the manifest is a non-empty text, no object of the
    manifest has a property twice, every file that the manifest registers
    was written and can be fetched from the store after the upload, and
    the manifest counts the accepted lines and the writes. *)
Theorem build_is_well_formed (tsvData buildTime : string) :
  let files := (Build.build tsvData buildTime).1 in
  let m := (Build.build tsvData buildTime).2 in
  shard_names_nonempty m ∧
  buckets_unique m ∧
  (∀ n bucket file,
     registered m n bucket file →
     file = shard_file n bucket ∧
     ∃ chunk, uploaded files (chunk_key file) = R2Body chunk) ∧
  totalEntries m = Z.of_nat (length (tsv_entries tsvData)) ∧
  chunkCount m = Z.of_nat (length files).
Proof.
  intros files m. subst files m. unfold Build.build. cbn [fst snd].
  set (ix := Build.read_index tsvData).
  destruct (read_index_spec tsvData) as (Hentries & _ & _ & Hkeys & _). fold ix in Hentries, Hkeys.
  split; [|split; [|split; [|split]]].
  - unfold shard_names_nonempty. cbn [chunks]. rewrite Forall_forall.
    intros [k obj] (n & lm & _ & _ & ->)%built_chunks_elem. rewrite Forall_forall.
    intros [bucket file] (e & _ & _ & ->)%length_object_elem. done.
  - unfold buckets_unique. cbn [chunks]. rewrite Forall_forall.
    intros [k obj] (n & lm & _ & _ & ->)%built_chunks_elem.
    apply length_object_NoDup.
  - intros n bucket file (lc & Hlc & Hfile). cbn [chunks] in Hlc.
    destruct (built_registered ix n bucket file) as (lm & [l letterMap] & Hin & He & -> & ->).
    { by rewrite Hlc. }
    split; [done|]. rewrite write_index_spec. cbn [Build.files].
    apply (uploaded_written _ _ (Build.make_chunk (Build.cluesByAnswer ix) letterMap)).
    apply shard_files_elem. by exists n, lm, l, letterMap.
  - done.
  - cbn [chunkCount]. by rewrite write_index_spec.
Qed.

Section MakeChunk.

Variable byAnswer : JSMap.t (list string).

Local Abbreviation entry_match :=
  (λ ac : string * Z, {| answer := ac.1; count := ac.2 |}).

Lemma entry_match_answers (answerCounts : JSMap.t Z) :
  answer <$> (entry_match <$> answerCounts) = JSMap.keys answerCounts.
Proof.
  unfold JSMap.keys. induction answerCounts as [|[A c] r IH]; csimpl; [done|].
  by rewrite IH.
Qed.

Lemma make_chunk_answers (answerCounts : JSMap.t Z) :
  answers (Build.make_chunk byAnswer answerCounts) ≡ₚ entry_match <$> answerCounts.
Proof. apply Array_sort_perm. Qed.

Lemma make_chunk_elem (answerCounts : JSMap.t Z) a :
  a ∈ answers (Build.make_chunk byAnswer answerCounts) ↔
  (answer a, count a) ∈ answerCounts.
Proof.
  rewrite make_chunk_answers, list_elem_of_fmap. split.
  - by intros ([A c] & -> & Hin).
  - intros Hin. exists (answer a, count a). by destruct a.
Qed.

Lemma make_chunk_NoDup (answerCounts : JSMap.t Z) :
  NoDup (JSMap.keys answerCounts) →
  NoDup (answer <$> answers (Build.make_chunk byAnswer answerCounts)).
Proof.
  intros Hkeys. by rewrite make_chunk_answers, entry_match_answers.
Qed.

Lemma collected_clues (found : list AnswerMatch) (acc : gmap string (list string)) A :
  fold_left
    (λ (clues : gmap string (list string)) a,
       match JSMap.get byAnswer (answer a) with
       | Some kept => <[answer a := kept]> clues
       | None => clues
       end) found acc !! A =
  match (if decide (A ∈ answer <$> found) then JSMap.get byAnswer A else None) with
  | Some kept => Some kept
  | None => acc !! A
  end.
Proof.
  revert acc. induction found as [|a found IH]; intros acc; csimpl; [done|].
  rewrite IH. destruct (decide (A ∈ answer <$> found)) as [Hin|Hout].
  - rewrite decide_True by by right.
    destruct (JSMap.get byAnswer A) as [kept|] eqn:HA; [done|].
    destruct (decide (answer a = A)) as [Ha|Hne].
    + by rewrite Ha, HA.
    + destruct (JSMap.get byAnswer (answer a)); [|done]. by rewrite lookup_insert_ne.
  - destruct (decide (answer a = A)) as [<-|Hne].
    + rewrite decide_True by left.
      destruct (JSMap.get byAnswer (answer a)) as [kept|]; [|done].
      by rewrite lookup_insert_eq.
    + rewrite decide_False by (intros [?|?]%elem_of_cons; done).
      destruct (JSMap.get byAnswer (answer a)) as [kept|]; [|done].
      by rewrite lookup_insert_ne.
Qed.

Lemma make_chunk_clues (answerCounts : JSMap.t Z) A :
  clues (Build.make_chunk byAnswer answerCounts) !! A =
  if decide (A ∈ JSMap.keys answerCounts) then JSMap.get byAnswer A else None.
Proof.
  unfold Build.make_chunk. cbn [clues]. rewrite collected_clues, lookup_empty.
  assert (A ∈ answer <$> Array_sort by_count_desc (entry_match <$> answerCounts) ↔
          A ∈ JSMap.keys answerCounts) as Hiff.
  { by rewrite Array_sort_perm, entry_match_answers. }
  destruct (decide (A ∈ JSMap.keys answerCounts)) as [Hin|Hout].
  - rewrite decide_True by by apply Hiff. by destruct (JSMap.get byAnswer A).
  - by rewrite decide_False by by rewrite Hiff.
Qed.

End MakeChunk.

Lemma sanitize_all_length l : String.length (sanitize_all l) = String.length l.
Proof. induction l as [|c l IH]; simpl; [done|]. by rewrite IH. Qed.

Section BuiltIndex.

Variable tsvData : string.

Local Abbreviation ix := (Build.read_index tsvData).
Local Abbreviation es := (tsv_entries tsvData).

(** The count that a Map of a letter holds for an answer of its length
    and letter. *)
Lemma index_letterMap n lengthMap letterMap A :
  (n, lengthMap) ∈ Build.answersByLengthAndLetter ix →
  (String.substring 0 1 A, letterMap) ∈ lengthMap →
  String.length A = n →
  JSMap.get letterMap A =
  if decide (A ∈ es.*1) then Some (occurrences A es) else None.
Proof.
  intros Hn Hl Hlen.
  destruct (read_index_spec tsvData) as (_ & _ & Hcounts & Hkeys & Hlevels).
  rewrite <-Hcounts. unfold count_lookup.
  rewrite Hlen, (NumMap_elem_get _ _ _ Hkeys Hn). csimpl.
  destruct (Hlevels _ _ Hn) as [Hlm _].
  by rewrite (JSMap_elem_get _ _ _ Hlm Hl).
Qed.

Lemma index_count n lengthMap l letterMap A c :
  (n, lengthMap) ∈ Build.answersByLengthAndLetter ix →
  (l, letterMap) ∈ lengthMap → (A, c) ∈ letterMap →
  String.length A = n ∧ String.substring 0 1 A = l ∧
  A ∈ es.*1 ∧ c = occurrences A es.
Proof.
  intros Hn Hl HA.
  destruct (read_index_spec tsvData) as (_ & _ & _ & _ & Hlevels).
  destruct (Hlevels _ _ Hn) as [_ Hlm].
  destruct (Hlm _ _ Hl) as (_ & Hm & Hin). destruct (Hin _ _ HA) as [Hlen Hfirst].
  split; [done|]. split; [done|]. subst l.
  pose proof (index_letterMap n lengthMap letterMap A Hn Hl Hlen) as Hget.
  rewrite (JSMap_elem_get _ _ _ Hm HA) in Hget.
  destruct (decide (A ∈ es.*1)); [|done]. by injection Hget.
Qed.

Lemma index_present A :
  A ∈ es.*1 →
  ∃ lengthMap letterMap,
    (String.length A, lengthMap) ∈ Build.answersByLengthAndLetter ix ∧
    (String.substring 0 1 A, letterMap) ∈ lengthMap ∧
    (A, occurrences A es) ∈ letterMap.
Proof.
  intros HA. destruct (read_index_spec tsvData) as (_ & _ & Hcounts & _).
  specialize (Hcounts A). rewrite decide_True in Hcounts by done.
  unfold count_lookup in Hcounts.
  destruct (NumMap.get _ (String.length A)) as [lm|] eqn:Hlm; [|done].
  csimpl in Hcounts.
  destruct (JSMap.get lm (String.substring 0 1 A)) as [m|] eqn:Hm; [|done].
  csimpl in Hcounts. exists lm, m.
  split; [by apply NumMap_get_elem|]. split; by apply JSMap_get_elem.
Qed.

(** The store holds, under the file of a bucket that is a letter or a
    digit, the chunk made from the answers of that first character. *)
Lemma deployed_shard buildTime w0 n lengthMap C letterMap :
  (n, lengthMap) ∈ Build.answersByLengthAndLetter ix →
  (String C EmptyString, letterMap) ∈ lengthMap →
  is_upper C || is_digit C = true →
  r2_chunk (deployed tsvData buildTime w0)
           (chunk_key (shard_file n (String C EmptyString))) =
  R2Body (Build.make_chunk (Build.cluesByAnswer ix) letterMap).
Proof.
  intros Hn Hl HC.
  destruct (read_index_spec tsvData) as (_ & _ & _ & Hkeys & Hlevels).
  unfold deployed, Build.build. cbn [r2_chunk fst].
  rewrite write_index_spec. cbn [Build.files].
  apply uploaded_unique.
  - apply shard_files_elem. exists n, lengthMap, (String C EmptyString), letterMap.
    split; [done|]. split; [done|]. split; [|done].
    simpl. by rewrite sanitize_fixed.
  - intros chunk' (n' & lm' & l' & m' & Hn' & Hl' & Hfile & ->)%shard_files_elem.
    destruct (Hlevels _ _ Hn') as [Hlm' Hin']. destruct (Hin' _ _ Hl') as (Hlen' & _).
    apply shard_file_inj in Hfile as [<- Hbucket].
    2:{ by rewrite sanitize_all_length, Hlen'. }
    symmetry in Hbucket. apply sanitize_letter_inj in Hbucket; [|done..]. subst l'.
    apply (NumMap_elem_get _ _ _ Hkeys) in Hn, Hn'.
    assert (lm' = lengthMap) as -> by congruence.
    apply (JSMap_elem_get _ _ _ Hlm') in Hl, Hl'. congruence.
Qed.

End BuiltIndex.

(** X26. What a shard file holds. Every file that the build writes is
    the file of a length and of a first character: its answers are
    distinct, ranked by count, all of that length (at most 20) and first
    character, each with the number of accepted lines of the TSV that
    have this answer, in any letter case; and the clues it holds for an
    answer are the clues of the first ten of these lines. *)
Theorem shards_hold_the_answers (tsvData buildTime : string) (file : string)
    (chunk : Chunk) :
  (file, chunk) ∈ (Build.build tsvData buildTime).1 →
  let es := tsv_entries tsvData in
  ∃ n l,
    file = shard_file n (sanitize_all l) ∧ String.length l = 1 ∧
    StronglySorted ranked (answers chunk) ∧
    NoDup (answer <$> answers chunk) ∧
    (∀ a, a ∈ answers chunk →
       String.length (answer a) = n ∧ n ≤ 20 ∧
       String.substring 0 1 (answer a) = l ∧
       toUpperCase (answer a) = answer a ∧
       (1 <= count a)%Z ∧ count a = occurrences (answer a) es) ∧
    (∀ A kept, clues chunk !! A = Some kept →
       A ∈ answer <$> answers chunk ∧ kept = take 10 (clues_of A es)).
Proof.
  unfold Build.build. cbn [fst]. rewrite write_index_spec. cbn [Build.files].
  intros (n & lm & l & m & Hn & Hl & -> & ->)%shard_files_elem. cbv zeta.
  destruct (read_index_spec tsvData) as (_ & Hclues & _ & _ & Hlevels).
  destruct (Hlevels _ _ Hn) as [_ Hlm]. destruct (Hlm _ _ Hl) as (Hlen & Hm & _).
  exists n, l. split; [done|]. split; [done|]. split; [|split; [|split]].
  - apply Sorted_StronglySorted; [|apply Array_sort_ranked].
    intros a b c. unfold ranked. lia.
  - by apply make_chunk_NoDup.
  - intros a Ha%make_chunk_elem.
    destruct (index_count tsvData n lm l m _ _ Hn Hl Ha) as (HA & Hfirst & Hin & Hcount).
    destruct (tsv_entries_entry tsvData _ Hin) as (_ & Hshort & Hupper).
    split; [done|]. split; [lia|]. split; [done|]. split; [done|].
    split; [|done]. rewrite Hcount. by apply occurrences_present.
  - intros A kept. rewrite make_chunk_clues.
    destruct (decide (A ∈ JSMap.keys m)) as [HA|]; [|done].
    rewrite Hclues. destruct (decide (A ∈ (tsv_entries tsvData).*1)); [|done].
    intros [= <-]. split; [|done].
    by rewrite make_chunk_answers, entry_match_answers.
Qed.

Lemma full_match_literal p x :
  all_in_class is_upper p = true → full_match p x ↔ x = p.
Proof.
  revert x. induction p as [|c p IH]; intros x Hp.
  - apply full_match_empty.
  - simpl in Hp. apply andb_prop in Hp as [Hc Hp]. rewrite full_match_cons.
    assert (Ascii.eqb c "?" = false) as ->.
    { apply Ascii.eqb_neq. intros ->. done. }
    split.
    + intros (d & x' & -> & -> & Hx'). f_equal. by apply IH.
    + intros ->. exists c, p. split; [done|]. split; [done|]. by apply IH.
Qed.

Lemma upper_char_letter c : letter_char c = true → is_upper (upper_char c) = true.
Proof.
  intros Hc. destruct c as [[] [] [] [] [] [] [] []];
    vm_compute in Hc; try discriminate Hc; reflexivity.
Qed.

Lemma toUpperCase_letters a :
  all_in_class letter_char a = true → all_in_class is_upper (toUpperCase a) = true.
Proof.
  induction a as [|c a IH]; simpl; [done|].
  intros [Hc Ha]%andb_prop. by rewrite IH, upper_char_letter.
Qed.

Lemma upper_is_normalized p :
  all_in_class is_upper p = true → normalized_pattern p = true.
Proof.
  induction p as [|c p IH]; simpl; [done|].
  intros [Hc Hp]%andb_prop. rewrite IH by done. unfold pattern_char. by rewrite Hc.
Qed.

(** The matcher of a word accepts the word, and nothing else. *)
Lemma literal_matcher A regex x :
  all_in_class is_upper A = true →
  compile_matcher A = Some regex →
  RegExp.test regex x = true ↔ x = A.
Proof.
  intros HA. rewrite (compile_matcher_normalized A (upper_is_normalized A HA)).
  intros [= <-]. rewrite test_anchored, match_here_pattern.
  by apply full_match_literal.
Qed.

Lemma word_in_entries (m : JSMap.t Z) A :
  NoDup (JSMap.keys m) →
  filter (λ a, answer a = A) ((λ ac : string * Z, {| answer := ac.1; count := ac.2 |}) <$> m) =
  match JSMap.get m A with
  | Some c => [{| answer := A; count := c |}]
  | None => []
  end.
Proof.
  unfold JSMap.keys. induction m as [|[B c] m IH]; csimpl; [done|].
  intros [HB Hm]%NoDup_cons. rewrite filter_cons. simpl.
  destruct (decide (B = A)) as [->|Hne].
  - f_equal. rewrite IH by done.
    destruct (JSMap.get m A) as [c'|] eqn:Hget; [|done].
    destruct HB. apply JSMap_get_elem in Hget.
    apply list_elem_of_fmap. by exists (A, c').
  - by apply IH.
Qed.

(** The matches of a word in the chunk of its first character. *)
Lemma make_chunk_word byAnswer (m : JSMap.t Z) regex A :
  NoDup (JSMap.keys m) →
  (∀ x, RegExp.test regex x = true ↔ x = A) →
  filter (λ a, RegExp.test regex (answer a) = true)
         (answers (Build.make_chunk byAnswer m)) =
  match JSMap.get m A with
  | Some c => [{| answer := A; count := c |}]
  | None => []
  end.
Proof.
  intros Hm Htest.
  rewrite (list_filter_iff _ (λ a, answer a = A)) by (intros a; apply Htest).
  pose proof (word_in_entries m A Hm) as Hword.
  assert (filter (λ a, answer a = A) (answers (Build.make_chunk byAnswer m)) ≡ₚ
          filter (λ a, answer a = A)
            ((λ ac : string * Z, {| answer := ac.1; count := ac.2 |}) <$> m)) as Hperm.
  { by rewrite make_chunk_answers. }
  rewrite Hword in Hperm. destruct (JSMap.get m A) as [c|].
  - by apply Permutation_singleton_r in Hperm.
  - by apply Permutation_nil_r in Hperm.
Qed.

Lemma getRelevantChunks_literal p st m C :
  manifest st = Some m → at_index p 0 = Some C → C ≠ "?"%char →
  getRelevantChunks p st =
  (Returns match owning_shard m p C with
           | Some file => if truthy file then [file] else []
           | None => []
           end, st).
Proof.
  intros Hm HC Hq. unfold getRelevantChunks, bind, this, owning_shard.
  rewrite Hm, HC. rewrite (proj2 (Ascii.eqb_neq C "?")) by done. cbn [negb].
  destruct (JSObject.get (chunks m) _) as [lc|]; [|done]. csimpl.
  by destruct (JSObject.get lc _).
Qed.

Lemma substring_first A C :
  at_index A 0 = Some C → String.substring 0 1 A = String C EmptyString.
Proof. destruct A as [|c [|d r]]; [done| |]; by intros [= ->]. Qed.

(** The shard of a word in a deployed build. *)
Lemma word_shard tsvData buildTime A C :
  at_index A 0 = Some C → is_upper C = true →
  let ix := Build.read_index tsvData in
  match owning_shard (Build.build tsvData buildTime).2 A C with
  | None => A ∉ (tsv_entries tsvData).*1
  | Some file =>
      truthy file = true ∧
      ∃ lengthMap letterMap,
        (String.length A, lengthMap) ∈ Build.answersByLengthAndLetter ix ∧
        (String.substring 0 1 A, letterMap) ∈ lengthMap ∧
        ∀ w0, r2_chunk (deployed tsvData buildTime w0) (chunk_key file) =
              R2Body (Build.make_chunk (Build.cluesByAnswer ix) letterMap)
  end.
Proof.
  intros HC Hup ix.
  assert (is_upper C || is_digit C = true) as Halnum by by rewrite Hup.
  destruct (read_index_spec tsvData) as (_ & _ & _ & Hkeys & Hlevels).
  rewrite (substring_first A C HC).
  unfold owning_shard, Build.build. cbn [snd chunks].
  rewrite (sanitize_fixed C Halnum).
  destruct (JSObject.get _ (of_nat (String.length A)) ≫= _) as [file|] eqn:Hfile.
  - destruct (built_registered _ _ _ _ Hfile)
      as (lm & [l letterMap] & Hn & Hl & Hbucket & ->).
    split; [done|]. exists lm, letterMap.
    destruct (Hlevels _ _ Hn) as [_ Hlm]. destruct (Hlm _ _ Hl) as (Hlen & _).
    symmetry in Hbucket. apply sanitize_letter_inj in Hbucket; [|done..].
    simpl in Hbucket. subst l. split; [done|]. split; [done|].
    intros w0. exact (deployed_shard tsvData buildTime w0 _ lm C letterMap Hn Hl Halnum).
  - intros HA. destruct (index_present tsvData A HA) as (lm & letterMap & Hn & Hl & _).
    rewrite (substring_first A C HC) in Hl.
    rewrite (built_chunks_get _ Hkeys _ _ Hn) in Hfile. csimpl in Hfile.
    pose proof (length_object_get (String.length A) lm _ Hl) as Hget.
    simpl in Hget. rewrite (sanitize_fixed C Halnum) in Hget. congruence.
Qed.

Lemma word_first a c :
  at_index a 0 = Some c → letter_char c = true →
  at_index (toUpperCase a) 0 = Some (upper_char c) ∧
  is_upper (upper_char c) = true ∧ c ≠ "?"%char.
Proof.
  intros Hc Hletter. rewrite toUpperCase_first, Hc.
  split; [done|]. split; [by apply upper_char_letter|]. by intros ->.
Qed.

(** X27. The service answers from the data. On the store that the build
    and the upload fill from a TSV, the query for a word (letters only,
    in any letter case) returns the word with the number of accepted
    lines of the TSV that have it as their answer, and returns nothing
    when no accepted line has it. *)
Theorem lookup_finds_the_word (tsvData buildTime : string) (w0 : World)
    (a : string) (mr : option Z) :
  a ≠ "" → all_in_class letter_char a = true →
  (1 <= default default_maxResults mr)%Z →
  let n := occurrences (toUpperCase a) (tsv_entries tsvData) in
  ∃ st',
    findMatchingAnswers (deployed tsvData buildTime w0) a mr new_loader =
    (Returns (if decide (n = 0%Z) then []
              else [{| answer := toUpperCase a; count := n |}]), st').
Proof.
  intros Hne Hletters Hmax n.
  set (w := deployed tsvData buildTime w0).
  set (m := (Build.build tsvData buildTime).2).
  destruct (nonempty_first a Hne) as [c Hc].
  assert (letter_char c = true) as Hletter.
  { destruct a as [|c' a']; [done|]. injection Hc as ->.
    simpl in Hletters. by apply andb_prop in Hletters as [? _]. }
  destruct (word_first a c Hc Hletter) as (HC & Hup & Hq).
  assert (manifest_available w new_loader m) as Hav by by right.
  destruct (findMatchingAnswers_miss w a mr new_loader m c Hav
              (letters_query a Hletters) Hc)
    as (regex & files & st2 & c' & Hregex & Hfiles & _ & _ & _ & Hrun).
  { intros cached [Hget _]. discriminate Hget. }
  rewrite Hrun. eexists. f_equal. f_equal.
  rewrite (bool_decide_eq_false_2 _ Hq). unfold accumulated.
  rewrite (getRelevantChunks_literal (toUpperCase a) (set_manifest m new_loader) m
             (upper_char c) eq_refl HC) in Hfiles.
  2:{ intros Hbad. by apply (proj1 (upper_char_wildcard c)) in Hbad. }
  injection Hfiles as <-.
  pose proof (word_shard tsvData buildTime (toUpperCase a) (upper_char c) HC Hup)
    as Hshard.
  fold m in Hshard. cbv zeta in Hshard.
  destruct (owning_shard m (toUpperCase a) (upper_char c)) as [file|].
  - destruct Hshard as (Htruthy & lm & letterMap & Hn & Hl & Hstore).
    rewrite Htruthy.
    unfold all_matches. csimpl. unfold fulfilled. cbn [JSMap.get chunkCache new_loader].
    unfold w. rewrite (Hstore w0). csimpl. rewrite app_nil_r.
    destruct (read_index_spec tsvData) as (_ & _ & _ & _ & Hlevels).
    destruct (Hlevels _ _ Hn) as [_ Hlm]. destruct (Hlm _ _ Hl) as (_ & Hm & _).
    change (Array_sort by_count_desc (map _ letterMap))
      with (answers (Build.make_chunk (Build.cluesByAnswer (Build.read_index tsvData))
                       letterMap)).
    rewrite (make_chunk_word (Build.cluesByAnswer (Build.read_index tsvData))
               letterMap regex (toUpperCase a) Hm).
    2:{ intros x. apply literal_matcher; [|done]. by apply toUpperCase_letters. }
    rewrite (index_letterMap tsvData _ lm letterMap (toUpperCase a) Hn Hl eq_refl).
    fold n.
    destruct (decide (toUpperCase a ∈ (tsv_entries tsvData).*1)) as [HA|HA].
    + pose proof (occurrences_present _ _ HA) as Hone. fold n in Hone.
      rewrite decide_False by lia. simpl. unfold slice0.
      rewrite (proj2 (Z.ltb_ge _ _)) by lia.
      apply take_ge. simpl. lia.
    + rewrite decide_True by by apply occurrences_absent.
      simpl. apply slice0_nil.
  - rewrite decide_True by by apply occurrences_absent.
    simpl. apply slice0_nil.
Qed.

(** X28. The clues come from the data. On the store that the build and
    the upload fill from a TSV, the clues returned for a word (letters
    only, in any letter case) are distinct clues of the first ten
    accepted lines of the TSV that have the word as their answer; with
    [maxClues] of ten or more (ten is the default) every clue of these
    lines is returned. *)
Theorem clues_come_from_the_tsv (tsvData buildTime : string) (w0 : World)
    (a : string) (mc : option Z) :
  a ≠ "" → all_in_class letter_char a = true →
  let kept := take 10 (clues_of (toUpperCase a) (tsv_entries tsvData)) in
  ∃ r st',
    getClues (deployed tsvData buildTime w0) a mc new_loader = (Returns r, st') ∧
    NoDup r ∧
    (∀ clue, clue ∈ r → clue ∈ kept) ∧
    ((10 <= default default_maxClues mc)%Z → ∀ clue, clue ∈ kept → clue ∈ r).
Proof.
  intros Hne Hletters kept.
  set (w := deployed tsvData buildTime w0).
  set (m := (Build.build tsvData buildTime).2).
  destruct (nonempty_first a Hne) as [c Hc].
  assert (letter_char c = true) as Hletter.
  { destruct a as [|c' a']; [done|]. injection Hc as ->.
    simpl in Hletters. by apply andb_prop in Hletters as [? _]. }
  destruct (word_first a c Hc Hletter) as (HC & Hup & Hq).
  assert (manifest_available w new_loader m) as Hav by by right.
  destruct (getClues_run w a mc new_loader m (upper_char c) Hav HC)
    as (r & st' & Hrun & Hr).
  exists r, st'. split; [done|]. cbv zeta in Hr.
  pose proof (word_shard tsvData buildTime (toUpperCase a) (upper_char c) HC Hup)
    as Hshard.
  fold m in Hshard. cbv zeta in Hshard.
  destruct (owning_shard m (toUpperCase a) (upper_char c)) as [file|].
  2:{ subst r. split; [apply NoDup_nil_2|]. split; [by intros ? ?%elem_of_nil|].
      intros _ clue. unfold kept. by rewrite (clues_of_absent _ _ Hshard), take_nil. }
  destruct Hshard as (Htruthy & lm & letterMap & Hn & Hl & Hstore).
  rewrite Htruthy in Hr. unfold fulfilled in Hr.
  cbn [JSMap.get chunkCache new_loader] in Hr. unfold w in Hr.
  rewrite (Hstore w0) in Hr. destruct Hr as (shuffled & Hperm & ->).
  assert (default [] (clues (Build.make_chunk
                               (Build.cluesByAnswer (Build.read_index tsvData))
                               letterMap) !! toUpperCase a) = kept) as Hkept.
  { rewrite make_chunk_clues.
    destruct (read_index_spec tsvData) as (_ & Hclues & _).
    pose proof (index_letterMap tsvData _ lm letterMap (toUpperCase a) Hn Hl eq_refl)
      as Hget.
    rewrite Hclues. unfold kept.
    destruct (decide (toUpperCase a ∈ (tsv_entries tsvData).*1)) as [HA|HA].
    - rewrite decide_True; [done|].
      destruct (decide (toUpperCase a ∈ JSMap.keys letterMap)) as [|Hout]; [done|].
      apply JSMap_get_None in Hout. congruence.
    - rewrite (clues_of_absent _ _ HA), take_nil. by case_decide. }
  rewrite Hkept in Hperm.
  assert (NoDup shuffled) as Hnodup.
  { rewrite Hperm. apply Set_from_NoDup. }
  split; [|split].
  - eapply sublist_NoDup; [exact Hnodup|apply prefix_is_sublist, slice0_prefix].
  - intros clue Hin. apply Set_from_elem. rewrite <-Hperm.
    destruct (slice0_prefix (default default_maxClues mc) shuffled) as [rest Hrest].
    rewrite Hrest. apply elem_of_app. by left.
  - intros Hten clue Hin. rewrite slice0_nonneg by lia.
    rewrite take_ge.
    + rewrite Hperm. by apply Set_from_elem.
    + rewrite Hperm.
      assert (length (Set_from kept) ≤ length kept) as Hlen.
      { apply submseteq_length, NoDup_submseteq; [apply Set_from_NoDup|].
        intros x. by rewrite Set_from_elem. }
      assert (length kept ≤ 10) by (unfold kept; rewrite length_take; lia).
      lia.
Qed.

(** Every chunk of a deployed store was made from the answers of a
    length and a first character. *)
Lemma deployed_chunk_origin tsvData buildTime w0 key chunk :
  r2_chunk (deployed tsvData buildTime w0) key = R2Body chunk →
  ∃ n lengthMap l letterMap,
    (n, lengthMap) ∈ Build.answersByLengthAndLetter (Build.read_index tsvData) ∧
    (l, letterMap) ∈ lengthMap ∧
    chunk = Build.make_chunk (Build.cluesByAnswer (Build.read_index tsvData)) letterMap.
Proof.
  unfold deployed, Build.build. cbn [r2_chunk fst]. rewrite write_index_spec.
  cbn [Build.files]. unfold uploaded.
  destruct (last _) as [[file chunk']|] eqn:Hlast; [|done].
  intros [= <-]. apply last_Some_elem_of, list_elem_of_filter in Hlast as [_ Hin].
  apply shard_files_elem in Hin as (n & lm & l & m & Hn & Hl & _ & ->).
  by exists n, lm, l, m.
Qed.

Lemma deployed_chunk_answers tsvData buildTime w0 key chunk x :
  r2_chunk (deployed tsvData buildTime w0) key = R2Body chunk →
  x ∈ answers chunk →
  answer x ∈ (tsv_entries tsvData).*1 ∧
  count x = occurrences (answer x) (tsv_entries tsvData).
Proof.
  intros (n & lm & l & m & Hn & Hl & ->)%deployed_chunk_origin Hx%make_chunk_elem.
  by destruct (index_count tsvData n lm l m _ _ Hn Hl Hx) as (_ & _ & ? & ?).
Qed.

Lemma all_matches_elem regex loaded x :
  x ∈ all_matches regex loaded →
  RegExp.test regex (answer x) = true ∧ ∃ chunk, chunk ∈ loaded ∧ x ∈ answers chunk.
Proof.
  unfold all_matches. induction loaded as [|chunk loaded IH]; simpl.
  - by intros ?%elem_of_nil.
  - intros [[Htest Hx]%list_elem_of_filter|Hin]%elem_of_app.
    + split; [done|]. exists chunk. split; [left|done].
    + destruct (IH Hin) as (? & chunk' & ? & ?). split; [done|].
      exists chunk'. split; [by right|done].
Qed.

(** X29. The answers are those of the data. On the store that the build
    and the upload fill from a TSV, after any sequence of calls, every
    answer that a query returns matches the pattern in full, is the
    answer of an accepted line of the TSV, and carries the number of
    accepted lines that have it. *)
Theorem answers_are_those_of_the_tsv (tsvData buildTime : string) (w0 : World)
    (calls : list Call) (p : string) (mr : option Z) (r : list AnswerMatch)
    (st' : Loader) :
  let w := deployed tsvData buildTime w0 in
  forallb modelled_call calls = true →
  query_pattern p = true →
  findMatchingAnswers w p mr (run_calls w calls new_loader) = (Returns r, st') →
  ∀ x, x ∈ r →
    full_match (toUpperCase p) (answer x) ∧
    answer x ∈ (tsv_entries tsvData).*1 ∧
    count x = occurrences (answer x) (tsv_entries tsvData).
Proof.
  intros w _ Hp Hrun x Hx.
  destruct (refinement_query w p mr (run_calls w calls new_loader)) as [_ Hval].
  { apply refinement_run_calls, refinement_state_new. }
  rewrite Hrun in Hval.
  destruct (Hval r eq_refl) as (all & st_b & Hbase & Hsub & _).
  assert (x ∈ all) as Hall by by eapply elem_of_sublist.
  set (m := (Build.build tsvData buildTime).2).
  assert (manifest_available w new_loader m) as Hav by by right.
  destruct (at_index p 0) as [c|] eqn:Hc.
  2:{ destruct p; [|done]. unfold Baseline.findMatchingAnswers in Hbase.
      rewrite (bind_returns _ _ _ _ _ (loadManifest_available w new_loader m Hav))
        in Hbase.
      discriminate Hbase. }
  assert (at_index (toUpperCase p) 0 = Some (upper_char c)) as Hnc.
  { by rewrite toUpperCase_first, Hc. }
  destruct (getRelevantChunks_returns (toUpperCase p) (set_manifest m new_loader) m
              (upper_char c) eq_refl Hnc) as (files & Hfiles & _).
  pose proof (compile_matcher_normalized _ (toUpperCase_normalized p Hp)) as Hregex.
  destruct (Baseline_findMatchingAnswers_run w p new_loader m _ files Hav Hregex)
    as [cb Hrun_b]; [by rewrite Hfiles|].
  rewrite Hbase in Hrun_b. injection Hrun_b as -> _.
  rewrite Array_sort_perm in Hall.
  rewrite (load_in_turn_coherent w _ files) in Hall by apply Forall_nil_2.
  apply all_matches_elem in Hall as (Htest & chunk & Hchunk & Hin).
  apply list_elem_of_omap in Hchunk as (f & _ & Hstore).
  unfold store_chunk in Hstore.
  destruct (r2_chunk w (chunk_key f)) as [| | |chunk'] eqn:Hr; try done.
  injection Hstore as ->.
  split; [|by apply (deployed_chunk_answers tsvData buildTime w0 (chunk_key f) chunk)].
  by rewrite test_anchored, match_here_pattern in Htest.
Qed.

(** The shard of a length and of a first character that is a letter or
    a digit, in a deployed build. *)
Lemma bucket_shard tsvData buildTime n C :
  is_upper C || is_digit C = true →
  let ix := Build.read_index tsvData in
  match JSObject.get (chunks (Build.build tsvData buildTime).2) (of_nat n) ≫=
        (λ lc, JSObject.get lc (String (sanitize C) EmptyString)) with
  | None =>
      ∀ A, A ∈ (tsv_entries tsvData).*1 → String.length A = n →
           at_index A 0 ≠ Some C
  | Some file =>
      truthy file = true ∧
      ∃ lengthMap letterMap,
        (n, lengthMap) ∈ Build.answersByLengthAndLetter ix ∧
        (String C EmptyString, letterMap) ∈ lengthMap ∧
        ∀ w0, r2_chunk (deployed tsvData buildTime w0) (chunk_key file) =
              R2Body (Build.make_chunk (Build.cluesByAnswer ix) letterMap)
  end.
Proof.
  intros Halnum ix.
  destruct (read_index_spec tsvData) as (_ & _ & _ & Hkeys & Hlevels).
  unfold Build.build. cbn [snd chunks].
  rewrite (sanitize_fixed C Halnum).
  destruct (JSObject.get _ (of_nat n) ≫= _) as [file|] eqn:Hfile.
  - destruct (built_registered _ _ _ _ Hfile)
      as (lm & [l letterMap] & Hn & Hl & Hbucket & ->).
    split; [done|]. exists lm, letterMap.
    destruct (Hlevels _ _ Hn) as [_ Hlm]. destruct (Hlm _ _ Hl) as (Hlen & _).
    symmetry in Hbucket. apply sanitize_letter_inj in Hbucket; [|done..].
    simpl in Hbucket. subst l. split; [done|]. split; [done|].
    intros w0. exact (deployed_shard tsvData buildTime w0 _ lm C letterMap Hn Hl Halnum).
  - intros A HA Hlen HC.
    destruct (index_present tsvData A HA) as (lm & letterMap & Hn & Hl & _).
    rewrite (substring_first A C HC), Hlen in *.
    rewrite (built_chunks_get _ Hkeys _ _ Hn) in Hfile. csimpl in Hfile.
    pose proof (length_object_get n lm _ Hl) as Hget.
    simpl in Hget. rewrite (sanitize_fixed C Halnum) in Hget. congruence.
Qed.

Lemma full_match_first P A C :
  at_index P 0 = Some C → C ≠ "?"%char → full_match P A →
  String.length A = String.length P ∧ at_index A 0 = Some C.
Proof.
  intros HC Hq [Hlen Hpos]. split; [done|].
  specialize (Hpos 0). unfold position_ok in Hpos. rewrite HC in Hpos.
  by rewrite (proj2 (Ascii.eqb_neq C "?")) in Hpos by done.
Qed.

(** X30. A pattern that starts with a letter is answered in full. On
    the store that the build and the upload fill from a TSV, when no more
    than [maxResults] distinct answers of the accepted lines match the
    pattern, the query returns exactly these answers, each once and with
    its number of lines, ranked by count. *)
Theorem literal_first_queries_are_complete (tsvData buildTime : string)
    (w0 : World) (p : string) (mr : option Z) (regex : RegExp.t) :
  query_pattern p = true → p ≠ "" → at_index p 0 ≠ Some "?"%char →
  compile_matcher (toUpperCase p) = Some regex →
  let es := tsv_entries tsvData in
  let matching := filter (λ A, RegExp.test regex A = true) (remove_dups es.*1) in
  (Z.of_nat (length matching) <= default default_maxResults mr)%Z →
  ∃ r st',
    findMatchingAnswers (deployed tsvData buildTime w0) p mr new_loader =
      (Returns r, st') ∧
    r ≡ₚ (λ A, {| answer := A; count := occurrences A es |}) <$> matching ∧
    StronglySorted ranked r.
Proof.
  intros Hp Hne Hlit Hregex es matching Hfew.
  set (w := deployed tsvData buildTime w0).
  set (m := (Build.build tsvData buildTime).2).
  destruct (nonempty_first p Hne) as [c Hc].
  assert (c ≠ "?"%char) as Hq by congruence.
  assert (at_index (toUpperCase p) 0 = Some (upper_char c)) as HC
    by by rewrite toUpperCase_first, Hc.
  assert (upper_char c ≠ "?"%char) as HQ.
  { intros Hbad. by apply (proj1 (upper_char_wildcard c)) in Hbad. }
  assert (is_upper (upper_char c) = true) as Hup.
  { destruct p as [|c' p']; [done|]. injection Hc as ->. simpl in Hp.
    apply andb_prop in Hp as [Hchar _]. clear -Hchar Hq.
    destruct c as [[] [] [] [] [] [] [] []];
      vm_compute in Hchar; try discriminate Hchar; try reflexivity.
    by destruct Hq. }
  assert (is_upper (upper_char c) || is_digit (upper_char c) = true) as Halnum
    by by rewrite Hup.
  assert (∀ A, RegExp.test regex A = true ↔ full_match (toUpperCase p) A) as Htest.
  { intros A. rewrite (compile_matcher_normalized _ (toUpperCase_normalized p Hp))
      in Hregex. injection Hregex as <-.
    by rewrite test_anchored, match_here_pattern. }
  assert (manifest_available w new_loader m) as Hav by by right.
  destruct (findMatchingAnswers_miss w p mr new_loader m c Hav Hp Hc)
    as (regex' & files & st2 & c' & Hregex' & Hfiles & _ & _ & _ & Hrun).
  { intros cached [Hget _]. discriminate Hget. }
  rewrite Hregex in Hregex'. injection Hregex' as <-.
  rewrite (bool_decide_eq_false_2 _ Hq) in Hrun. unfold accumulated in Hrun.
  rewrite (getRelevantChunks_literal (toUpperCase p) (set_manifest m new_loader) m
             (upper_char c) eq_refl HC HQ) in Hfiles.
  injection Hfiles as <-.
  pose proof (bucket_shard tsvData buildTime (String.length (toUpperCase p))
                (upper_char c) Halnum) as Hshard.
  fold m in Hshard. cbv zeta in Hshard. unfold owning_shard in Hrun.
  set (found := all_matches regex _) in Hrun.
  assert (found ≡ₚ (λ A, {| answer := A; count := occurrences A es |}) <$> matching)
    as Hfound.
  { subst found.
    destruct (JSObject.get (chunks m) _ ≫= _) as [file|].
    - destruct Hshard as (Htruthy & lm & letterMap & Hn & Hl & Hstore).
      rewrite Htruthy. unfold all_matches. csimpl. unfold fulfilled.
      cbn [JSMap.get chunkCache new_loader]. unfold w. rewrite (Hstore w0).
      csimpl. rewrite app_nil_r.
      change (Array_sort by_count_desc (map _ letterMap))
        with (answers (Build.make_chunk
                         (Build.cluesByAnswer (Build.read_index tsvData)) letterMap)).
      set (chunk := Build.make_chunk _ letterMap).
      destruct (read_index_spec tsvData) as (_ & _ & _ & _ & Hlevels).
      destruct (Hlevels _ _ Hn) as [_ Hlm]. destruct (Hlm _ _ Hl) as (_ & Hm & _).
      apply NoDup_Permutation.
      + apply NoDup_filter. eapply NoDup_fmap_1.
        by apply (make_chunk_NoDup _ letterMap).
      + apply NoDup_fmap_2; [by intros A B [= ->]|].
        apply NoDup_filter, NoDup_remove_dups.
      + intros x. rewrite list_elem_of_filter, list_elem_of_fmap. split.
        * intros [Hx Hin%make_chunk_elem].
          destruct (index_count tsvData _ lm _ letterMap _ _ Hn Hl Hin)
            as (_ & _ & HA & Hcount).
          exists (answer x). split; [destruct x; simpl in *; by subst|].
          apply list_elem_of_filter. split; [done|]. by apply elem_of_remove_dups.
        * intros (A & -> & [HA Hin]%list_elem_of_filter).
          apply (proj1 (elem_of_remove_dups _ _)) in Hin.
          split; [done|]. apply make_chunk_elem. simpl.
          destruct (full_match_first _ A _ HC HQ (proj1 (Htest A) HA)) as [Hlen HA0].
          pose proof (index_letterMap tsvData _ lm letterMap A Hn) as Hget.
          rewrite (substring_first A _ HA0) in Hget.
          specialize (Hget Hl Hlen). rewrite decide_True in Hget by done.
          by apply JSMap_get_elem.
    - simpl. assert (matching = []) as ->; [|done].
      destruct matching as [|A rest] eqn:Hmatching; [done|]. exfalso.
      assert (A ∈ matching) as HA by (rewrite Hmatching; left).
      apply list_elem_of_filter in HA as [HA Hin].
      apply (proj1 (elem_of_remove_dups _ _)) in Hin.
      destruct (full_match_first _ A _ HC HQ (proj1 (Htest A) HA)) as [Hlen HA0].
      by apply (Hshard A Hin Hlen). }
  rewrite Hrun. eexists _, _. split; [reflexivity|].
  assert (slice0 (default default_maxResults mr) (Array_sort by_count_desc found) =
          Array_sort by_count_desc found) as ->.
  { unfold slice0. destruct (_ <? 0)%Z eqn:Hneg; [apply Z.ltb_lt in Hneg; lia|].
    apply take_ge. rewrite (Permutation_length (Array_sort_perm _ _)),
      (Permutation_length Hfound), length_fmap. lia. }
  split; [by rewrite Array_sort_perm|].
  apply Sorted_StronglySorted; [|apply Array_sort_ranked].
  intros x y z. unfold ranked. lia.
Qed.

(** ** The further properties on the small world *)

(** A list stored under [a?ple] is found under [A?PLE] a second later. *)
Lemma result_cache_round_trip_witness :
  (getCachedResult demo_world "A?PLE"
     (setCachedResult demo_world "a?ple" [match_of "APPLE" 12] new_loader).2).1 =
  Returns (Some [match_of "APPLE" 12]).
Proof.
  apply (result_cache_round_trip demo_world new_loader "a?ple" "A?PLE").
  - reflexivity.
  - vm_compute. discriminate.
Defined.

(** The old entry goes, the other one stays. *)
Lemma result_cache_expiry_witness :
  (getCachedResult demo_world "A?PLE" loader_with_old_entry).1 = Returns None ∧
  JSMap.keys (resultCache (getCachedResult demo_world "A?PLE" loader_with_old_entry).2)
  = ["pattern:CAB??"].
Proof.
  destruct (result_cache_expiry demo_world loader_with_old_entry "A?PLE"
              {| results := [match_of "APPLE" 12]; timestamp := (-400000)%Z |})
    as (Hmiss & _).
  - compute_done.
  - reflexivity.
  - reflexivity.
  - split; [exact Hmiss|]. reflexivity.
Defined.

(** The second query for [A?PLE] gives the same in a world without store. *)
Lemma cache_hit_reads_no_store_witness :
  findMatchingAnswers lone_shard_world "A?PLE" None loader_after_query =
  findMatchingAnswers demo_world "A?PLE" None loader_after_query.
Proof.
  apply (cache_hit_reads_no_store demo_world lone_shard_world loader_after_query
           demo_manifest "A?PLE" None
           {| results := [match_of "APPLE" 12; match_of "AMPLE" 3];
              timestamp := 0%Z |}).
  - reflexivity.
  - split; [reflexivity|]. vm_compute. discriminate.
  - reflexivity.
Defined.

(** A shard loaded from the small world is served from the cache in a
    world whose store fails. *)
Lemma loadChunk_then_hit_witness :
  (loadChunk lone_shard_world "chunk_5_C.json"
     (loadChunk demo_world "chunk_5_C.json" new_loader).2).1 = Returns chunk_5_C.
Proof.
  pose proof (loadChunk_then_hit demo_world lone_shard_world "chunk_5_C.json"
                new_loader (loadChunk demo_world "chunk_5_C.json" new_loader).2
                chunk_5_C eq_refl) as Hhit.
  by rewrite Hhit.
Defined.

(** After three calls, the query for [A?PLE] is served from the cache:
    both answers match the pattern, the higher count comes first, and
    they are no more than five. *)
Lemma query_results_match_the_pattern_witness :
  Forall (λ a, full_match "A?PLE" (answer a))
         [match_of "APPLE" 12; match_of "AMPLE" 3].
Proof.
  apply (query_results_match_the_pattern demo_world earlier_calls "A?PLE" (Some 5%Z)
           [match_of "APPLE" 12; match_of "AMPLE" 3]
           (findMatchingAnswers demo_world "A?PLE" (Some 5%Z)
              (run_calls demo_world earlier_calls new_loader)).2).
  - reflexivity.
  - reflexivity.
  - vm_compute. reflexivity.
Defined.

Lemma query_results_are_ranked_witness :
  StronglySorted ranked [match_of "APPLE" 12; match_of "AMPLE" 3].
Proof.
  apply (query_results_are_ranked demo_world earlier_calls "A?PLE" (Some 5%Z)
           [match_of "APPLE" 12; match_of "AMPLE" 3]
           (findMatchingAnswers demo_world "A?PLE" (Some 5%Z)
              (run_calls demo_world earlier_calls new_loader)).2).
  - reflexivity.
  - reflexivity.
  - vm_compute. reflexivity.
Defined.

Lemma query_results_are_bounded_witness :
  (Z.of_nat (length [match_of "APPLE" 12; match_of "AMPLE" 3]) <= 5)%Z.
Proof.
  apply (query_results_are_bounded demo_world
           (run_calls demo_world earlier_calls new_loader) "A?PLE" (Some 5%Z)
           [match_of "APPLE" 12; match_of "AMPLE" 3]
           (findMatchingAnswers demo_world "A?PLE" (Some 5%Z)
              (run_calls demo_world earlier_calls new_loader)).2).
  - simpl. lia.
  - vm_compute. reflexivity.
Defined.

(** With room for ten clues, both distinct clues of [APPLE] come back. *)
Lemma getClues_returns_every_clue_when_room_witness :
  ∃ r st',
    getClues demo_world "apple" None new_loader = (Returns r, st') ∧
    NoDup r ∧ (∀ clue, clue ∈ r ↔ clue ∈ ["a"; "a"; "b"]).
Proof.
  apply (getClues_returns_every_clue_when_room demo_world new_loader demo_manifest
           "apple" None "A" "chunk_5_A.json" chunk_5_A).
  - right. split; reflexivity.
  - reflexivity.
  - eexists. split; reflexivity.
  - reflexivity.
  - reflexivity.
  - vm_compute. discriminate.
Defined.

(** The two shards that load hold two matches of [?A?LE]: with
    [maxResults = 1] the capped scan keeps both, and the query returns the
    better one. *)
Lemma early_stop_is_exact_below_the_cap_witness :
  ∃ st', findMatchingAnswers demo_world "?A?LE" (Some 1%Z) new_loader =
         (Returns [match_of "CABLE" 7], st').
Proof.
  destruct (early_stop_is_exact_below_the_cap demo_world new_loader demo_manifest
              "?A?LE" 1 (RegExp.AssertStart :: pattern_atoms "?A?LE" ++ [RegExp.AssertEnd])
              ["chunk_5_A.json"; "chunk_5_B.json"; "chunk_5_C.json"])
    as [_ [st' Hrun]].
  - right. split; reflexivity.
  - reflexivity.
  - reflexivity.
  - intros cached [Hget _]. discriminate Hget.
  - lia.
  - reflexivity.
  - reflexivity.
  - vm_compute. discriminate.
  - exists st'. rewrite Hrun. f_equal.
Defined.

(** The query for [A?PLE] reads the shard of the bucket [A] only: a store
    that fails everywhere else gives the same. *)
Lemma query_reads_only_the_selected_shards_witness :
  findMatchingAnswers lone_shard_world "A?PLE" None
    (set_manifest demo_manifest new_loader) =
  findMatchingAnswers demo_world "A?PLE" None
    (set_manifest demo_manifest new_loader).
Proof.
  apply (query_reads_only_the_selected_shards demo_world lone_shard_world
           (set_manifest demo_manifest new_loader) demo_manifest "A?PLE" None
           ["chunk_5_A.json"]).
  - by left.
  - by left.
  - reflexivity.
  - reflexivity.
  - by intros pending.
  - reflexivity.
  - intros f ->%list_elem_of_singleton. reflexivity.
Defined.

(** A request for [a?ple] with [maxResults=1] is answered with the best
    match. *)
Lemma answers_route_serves_the_engine_witness :
  ∃ headers st',
    answers_route demo_world (Some "a?ple") (Some "1") new_loader =
    (Returns (json (AnswersBody [match_of "APPLE" 12]) 200 headers), st').
Proof.
  destruct (answers_route_serves_the_engine demo_world (Some "a?ple") (Some "1")
              new_loader 1) as [Hok _].
  - discriminate.
  - reflexivity.
  - reflexivity.
  - lia.
  - destruct (Hok demo_manifest) as (answers & st1 & Hengine & Hroute).
    + right. split; reflexivity.
    + vm_compute in Hengine. injection Hengine as <- _.
      eexists _, _. exact Hroute.
Defined.

(** After a request for [A?PLE] with [maxResults=abc], the request for
    [a?ple] with [maxResults=5] gets no answers, although the store holds
    two matches. *)
Lemma unparsable_maxResults_caches_an_empty_result_witness :
  ∃ headers1 st1 headers2 st2,
    answers_route demo_world (Some "A?PLE") (Some "abc") new_loader =
      (Returns (json (AnswersBody []) 200 headers1), st1) ∧
    answers_route demo_world (Some "a?ple") (Some "5") st1 =
      (Returns (json (AnswersBody []) 200 headers2), st2).
Proof.
  destruct (unparsable_maxResults_caches_an_empty_result demo_world new_loader
              demo_manifest "A?PLE" "a?ple" (Some "abc") (Some "5"))
    as (headers1 & st1 & Hfirst & Hsecond).
  - discriminate.
  - reflexivity.
  - discriminate.
  - reflexivity.
  - reflexivity.
  - reflexivity.
  - simpl. lia.
  - right. split; reflexivity.
  - intros cached [Hget _]. discriminate Hget.
  - destruct Hsecond as (headers2 & st2 & Hsecond).
    + vm_compute in Hfirst. injection Hfirst as _ <-.
      intros cached Hget. vm_compute in Hget. injection Hget as <-.
      vm_compute. discriminate.
    + by exists headers1, st1, headers2, st2.
Defined.

(** The pattern [????E] is high-cost, [A????] is not, and [?????] is. *)
Lemma analyzePattern_cost_classes_witness :
  (at_index "????E" 0 = Some "?"%char ∧
   searchStrategy (analyzePattern "????E") = "parallel-optimized") ∧
  (isHighCostPattern (analyzePattern "A????") = false ∧
   searchStrategy (analyzePattern "A????") = "direct") ∧
  isHighCostPattern (analyzePattern "?????") = true.
Proof.
  split; [|split].
  - apply (analyzePattern_cost_classes "????E"). reflexivity.
  - apply (analyzePattern_cost_classes "A????") with (c := "A"%char).
    + reflexivity.
    + discriminate.
  - apply (analyzePattern_cost_classes "?????").
    + discriminate.
    + intros i c Hc.
      destruct i as [|[|[|[|[|i]]]]]; simpl in Hc; by inversion Hc.
Defined.

(** In the small world the first of the earlier calls loads the manifest,
    and the calls keep it. *)
Lemma manifest_is_loaded_once_witness :
  manifest (run_calls demo_world earlier_calls new_loader) = Some demo_manifest ∧
  manifest (run_calls lone_shard_world earlier_calls
              (set_manifest demo_manifest new_loader)) = Some demo_manifest.
Proof.
  split.
  - apply (manifest_is_loaded_once demo_world earlier_calls).
    + reflexivity.
    + reflexivity.
    + discriminate.
  - apply (manifest_is_loaded_once lone_shard_world earlier_calls); reflexivity.
Defined.

(** The caches of the small world after the earlier calls. *)
Lemma caches_stay_coherent_witness :
  caches_coherent demo_world (run_calls demo_world earlier_calls new_loader).
Proof. apply (caches_stay_coherent demo_world earlier_calls). reflexivity. Defined.

(** A pattern with a digit is rejected; so is [maxResults=0]; the pattern
    [a?ple] with no [maxResults] is not. *)
Lemma answers_route_rejects_exactly_the_invalid_witness :
  answers_route demo_world (Some "a1ple") None new_loader =
    (Returns (json (AnswersBody []) 400 []), new_loader) ∧
  answers_route demo_world (Some "a?ple") (Some "0") new_loader =
    (Returns (json (AnswersBody []) 400 []), new_loader) ∧
  ∃ resp st', answers_route demo_world (Some "a?ple") None new_loader =
                (Returns resp, st') ∧
              (status resp = 200 ∨ status resp = 500).
Proof.
  split; [|split].
  - apply (answers_route_rejects_exactly_the_invalid demo_world (Some "a1ple") None).
    intros (_ & Hp & _). discriminate Hp.
  - apply (answers_route_rejects_exactly_the_invalid demo_world (Some "a?ple") (Some "0")).
    intros (_ & _ & Hn). simpl in Hn. lia.
  - apply (answers_route_rejects_exactly_the_invalid demo_world (Some "a?ple") None).
    split; [discriminate|]. split; [reflexivity|]. simpl. lia.
Defined.

(** The clues route rejects [it's], serves the clues of [apple] in the
    small world, and answers 500 where no manifest can be loaded. *)
Lemma clues_route_statuses_witness :
  clues_route demo_world (Some "it's") new_loader =
    (Returns (json (CluesBody []) 400 []), new_loader) ∧
  (∃ found st',
     getClues demo_world "apple" (Some 10%Z) new_loader = (Returns found, st') ∧
     clues_route demo_world (Some "apple") new_loader =
       (Returns (json (CluesBody found) 200 []), st') ∧
     length found ≤ 10) ∧
  clues_route lone_shard_world (Some "apple") new_loader =
    (Returns (json (CluesBody []) 500 []), new_loader).
Proof.
  split; [|split].
  - apply (clues_route_statuses demo_world (Some "it's")). right. reflexivity.
  - apply (clues_route_statuses demo_world (Some "apple") new_loader)
      with (m := demo_manifest).
    + discriminate.
    + reflexivity.
    + right. split; reflexivity.
  - apply (clues_route_statuses lone_shard_world (Some "apple") new_loader).
    + discriminate.
    + reflexivity.
    + split; [reflexivity|]. intros m Hm. discriminate Hm.
Defined.

(** After the earlier calls, the query for [?????] with [maxResults = 5]
    is served the single answer cached by the query with
    [maxResults = 1]: the first of the six that the first version
    returns. *)
Lemma optimized_answers_refine_the_first_version_witness :
  ∃ all st_b,
    Baseline.findMatchingAnswers demo_world "?????" new_loader = (Returns all, st_b) ∧
    [match_of "ANGLE" 40] `sublist_of` all ∧
    (at_index "?????" 0 ≠ Some "?"%char → [match_of "ANGLE" 40] `prefix_of` all).
Proof.
  apply (optimized_answers_refine_the_first_version demo_world earlier_calls
           "?????" (Some 5%Z) [match_of "ANGLE" 40]
           (findMatchingAnswers demo_world "?????" (Some 5%Z)
              (run_calls demo_world earlier_calls new_loader)).2).
  - reflexivity.
  - reflexivity.
  - vm_compute. reflexivity.
Defined.

(** The query for [ca???] misses the cache and returns the first two of
    the three answers of the first version. *)
Lemma optimized_equals_first_version_on_a_miss_witness :
  ∃ st', findMatchingAnswers demo_world "ca???" (Some 2%Z)
           (run_calls demo_world earlier_calls new_loader) =
         (Returns [match_of "CABLE" 7; match_of "CANDY" 5], st').
Proof.
  apply (optimized_equals_first_version_on_a_miss demo_world earlier_calls
           "ca???" (Some 2%Z)
           [match_of "CABLE" 7; match_of "CANDY" 5; match_of "CAPLE" 1]
           (Baseline.findMatchingAnswers demo_world "ca???" new_loader).2).
  - reflexivity.
  - reflexivity.
  - intros cached [Hget _]. vm_compute in Hget. discriminate Hget.
  - vm_compute. reflexivity.
  - left. discriminate.
Defined.

(** After the earlier requests, the request for [?????] with
    [maxResults=5] gets 200, as from the first version, and a sublist of
    the first version's answers. *)
Lemma upgrade_keeps_the_answers_witness :
  ∃ code old st_old new headers st_new,
    Baseline.answers_route demo_world (Some "?????") new_loader =
      (Returns (json (AnswersBody old) code []), st_old) ∧
    answers_route demo_world (Some "?????") (Some "5")
      (serve demo_world earlier_requests new_loader) =
      (Returns (json (AnswersBody new) code headers), st_new) ∧
    new `sublist_of` old ∧
    (at_index "?????" 0 ≠ Some "?"%char → new `prefix_of` old).
Proof.
  apply (upgrade_keeps_the_answers demo_world earlier_requests
           (Some "?????") (Some "5")).
  simpl. lia.
Defined.

(** The caches of the small world's worker after the earlier requests. *)
Lemma worker_caches_stay_bounded_witness :
  caches_bounded (serve demo_world earlier_requests new_loader).
Proof.
  apply (worker_caches_stay_bounded demo_world earlier_requests).
  - intros m [= <-]. repeat constructor.
  - by intros pending.
Defined.

(** The debug route rejects [a1], and says of [a??] that it is fast and
    of [???] that it is slow. *)
Lemma debug_route_reports_the_analysis_witness :
  debug_pattern_route (Some "a1") new_loader =
    (Returns (json (ErrorBody "Invalid pattern") 400 []), new_loader) ∧
  (∃ tips,
     debug_pattern_route (Some "a??") new_loader =
       (Returns (json (AnalysisBody "A??" (analyzePattern "a??") tips) 200 []),
        new_loader) ∧
     (tips = tips_fast ↔ isHighCostPattern (analyzePattern "a??") = false) ∧
     (tips = tips_slow ↔ isHighCostPattern (analyzePattern "a??") = true) ∧
     (at_index "a??" 0 ≠ Some "?"%char → tips = tips_fast)).
Proof.
  split.
  - apply (debug_route_reports_the_analysis (Some "a1") new_loader).
    right. reflexivity.
  - apply (debug_route_reports_the_analysis (Some "a??") new_loader).
    + discriminate.
    + reflexivity.
Defined.

(** The first shard that the build writes from the small TSV. *)
Lemma shards_hold_the_answers_witness :
  ("chunk_5_A.json", demo_shard) ∈ (Build.build demo_tsv "2024-01-01").1 ∧
  ∃ n l,
    "chunk_5_A.json" = shard_file n (sanitize_all l) ∧ String.length l = 1 ∧
    StronglySorted ranked (answers demo_shard) ∧
    NoDup (answer <$> answers demo_shard) ∧
    (∀ a, a ∈ answers demo_shard →
       String.length (answer a) = n ∧ n ≤ 20 ∧
       String.substring 0 1 (answer a) = l ∧
       toUpperCase (answer a) = answer a ∧ (1 <= count a)%Z ∧
       count a = occurrences (answer a) (tsv_entries demo_tsv)) ∧
    (∀ A kept, clues demo_shard !! A = Some kept →
       A ∈ answer <$> answers demo_shard ∧
       kept = take 10 (clues_of A (tsv_entries demo_tsv))).
Proof.
  assert (("chunk_5_A.json", demo_shard) ∈ (Build.build demo_tsv "2024-01-01").1)
    as Hin.
  { apply (list_elem_of_lookup_2 _ 0). vm_compute. reflexivity. }
  split; [exact Hin|].
  exact (shards_hold_the_answers demo_tsv "2024-01-01" "chunk_5_A.json" demo_shard Hin).
Defined.

(** The small TSV has two lines for [apple]. *)
Lemma lookup_finds_the_word_witness :
  ∃ st',
    findMatchingAnswers (deployed demo_tsv "2024-01-01" demo_world) "apple" None
      new_loader =
    (Returns [match_of "APPLE" 2], st').
Proof.
  apply (lookup_finds_the_word demo_tsv "2024-01-01" demo_world "apple" None).
  - discriminate.
  - reflexivity.
  - unfold default_maxResults. simpl. lia.
Defined.

(** The clues of [apple] in the small TSV. *)
Lemma clues_come_from_the_tsv_witness :
  ∃ r st',
    getClues (deployed demo_tsv "2024-01-01" demo_world) "apple" None new_loader =
      (Returns r, st') ∧
    NoDup r ∧
    (∀ clue, clue ∈ r → clue ∈ ["A fruit"; "Mac maker"]) ∧
    ((10 <= default default_maxClues None)%Z →
     ∀ clue, clue ∈ ["A fruit"; "Mac maker"] → clue ∈ r).
Proof.
  apply (clues_come_from_the_tsv demo_tsv "2024-01-01" demo_world "apple" None).
  - discriminate.
  - reflexivity.
Defined.

(** The best answer to [a????] on the small TSV, after the earlier
    calls. *)
Lemma answers_are_those_of_the_tsv_witness :
  full_match (toUpperCase "a????") "APPLE" ∧
  "APPLE" ∈ (tsv_entries demo_tsv).*1 ∧
  2%Z = occurrences "APPLE" (tsv_entries demo_tsv).
Proof.
  refine (answers_are_those_of_the_tsv demo_tsv "2024-01-01" demo_world
            earlier_calls "a????" None [match_of "APPLE" 2; match_of "ANGLE" 1]
            (findMatchingAnswers (deployed demo_tsv "2024-01-01" demo_world)
               "a????" None
               (run_calls (deployed demo_tsv "2024-01-01" demo_world)
                  earlier_calls new_loader)).2
            eq_refl eq_refl _ (match_of "APPLE" 2) _).
  - vm_compute. reflexivity.
  - left.
Defined.

(** The two answers of the small TSV that match [a????]. *)
Lemma literal_first_queries_are_complete_witness :
  ∃ r st',
    findMatchingAnswers (deployed demo_tsv "2024-01-01" demo_world) "a????" None
      new_loader = (Returns r, st') ∧
    r ≡ₚ [match_of "APPLE" 2; match_of "ANGLE" 1] ∧
    StronglySorted ranked r.
Proof.
  apply (literal_first_queries_are_complete demo_tsv "2024-01-01" demo_world
           "a????" None
           (RegExp.AssertStart :: pattern_atoms "A????" ++ [RegExp.AssertEnd])).
  - reflexivity.
  - discriminate.
  - discriminate.
  - reflexivity.
  - vm_compute. discriminate.
Defined.
